(** * REDCap stratified randomization: a shallow embedding of [redcap_rand.py]

    The development follows the program top-down in the order of its
    data flow: the codebook translator ([convert_codebook]), the frequency
    aggregation done in [main], the probability calculator
    ([calculate_probabilities]), the encoding reconciliation
    ([convert_to_values] and the integer coercion of [main]), the index
    builder ([create_probability_dict]) and the randomizer
    ([randomization_step]).

    Modelling conventions.
    - A Python [str] is the [string] of its UTF-8 bytes. [strip] removes
      the white space of [str.isspace], ASCII and beyond; [py_int] reads
      decimal literals written in ASCII digits.
    - A Python [dict] whose iteration order is never observed is a [gmap];
      the inner treatment distributions, whose order feeds
      [random.choices], are insertion-ordered association lists.
    - A pandas row is a total function from column names to cells together
      with the column list of its frame; a missing column is a [KeyError],
      checked once per frame.
    - [sys.exit(1)] and uncaught exceptions are [None].
    - Integers are [Z]. The quotient of two integers is the binary64
      number nearest to it ([py_truediv]); [round(x, 3)] of a float is
      the decimal with three digits nearest to the value of [x], ties to
      even ([py_round3]). A float that [round(x, 3)] returns is written
      as that decimal, a rational with denominator 1000; sums of such
      floats are taken on the decimals.
    - The names [treatment_field] and [randomized_field] come from the
      configuration module, which is not part of the sources: they are
      section variables. *)

From Stdlib Require Import Ascii String ZArith QArith Qround Qabs Qpower Lqa.
From stdpp Require Import gmap strings list fin_maps sorting.

Local Open Scope string_scope.
Local Open Scope Z_scope.
Local Open Scope list_scope.

(** ** Python string primitives *)

Module PyStr.

(** [str.isspace] on an ASCII character: TAB, LF, VT, FF, CR, the four
    separators FS GS RS US, and the space. *)
Definition is_space (c : ascii) : bool :=
  let n := nat_of_ascii c in
  ((9 <=? n) && (n <=? 13) || (28 <=? n) && (n <=? 32))%nat.

(** The white space that C's [isspace] knows, which is what [int] skips
    in an ASCII string: TAB, LF, VT, FF, CR and the space. *)
Definition is_c_space (c : ascii) : bool :=
  let n := nat_of_ascii c in
  ((9 <=? n) && (n <=? 13) || (n =? 32))%nat.

(** White space beyond ASCII, in UTF-8: U+0085 and U+00A0 take two
    bytes; U+1680, U+2000 to U+200A, U+2028, U+2029, U+202F, U+205F and
    U+3000 take three. *)
Definition is_space2 (c1 c2 : ascii) : bool :=
  let '(b1, b2) := (nat_of_ascii c1, nat_of_ascii c2) in
  ((b1 =? 194) && ((b2 =? 133) || (b2 =? 160)))%nat.

Definition is_space3 (c1 c2 c3 : ascii) : bool :=
  let '(b1, b2, b3) := (nat_of_ascii c1, nat_of_ascii c2, nat_of_ascii c3) in
  ((b1 =? 225) && (b2 =? 154) && (b3 =? 128)
   || (b1 =? 226) && (b2 =? 128) &&
      ((128 <=? b3) && (b3 <=? 138) || (b3 =? 168) || (b3 =? 169) || (b3 =? 175))
   || (b1 =? 226) && (b2 =? 129) && (b3 =? 159)
   || (b1 =? 227) && (b2 =? 128) && (b3 =? 128))%nat.

(** Leading white space removed. [ascii_space] tells the one-byte white
    space; with [backwards] the bytes of [s] come last byte first, as
    they do when the end of a string is stripped. *)
Fixpoint strip_front (ascii_space : ascii → bool) (backwards : bool) (s : string)
  : string :=
  match s with
  | EmptyString => EmptyString
  | String c1 s1 =>
      if ascii_space c1 then strip_front ascii_space backwards s1
      else
        match s1 with
        | EmptyString => s
        | String c2 s2 =>
            if (if backwards then is_space2 c2 c1 else is_space2 c1 c2)
            then strip_front ascii_space backwards s2
            else
              match s2 with
              | EmptyString => s
              | String c3 s3 =>
                  if (if backwards then is_space3 c3 c2 c1 else is_space3 c1 c2 c3)
                  then strip_front ascii_space backwards s3
                  else s
              end
        end
  end.

Definition strip_with (ascii_space : ascii → bool) (s : string) : string :=
  String.rev (strip_front ascii_space true
                (String.rev (strip_front ascii_space false s))).

Definition lstrip (s : string) : string := strip_front is_space false s.

Definition rstrip (s : string) : string :=
  String.rev (strip_front is_space true (String.rev s)).

(** [s.strip()] *)
Definition strip (s : string) : string := strip_with is_space s.

(** [s.split(sep)] for a one-character separator: never empty, keeps
    empty fields. *)
Fixpoint split (sep : ascii) (s : string) : list string :=
  match s with
  | EmptyString => [EmptyString]
  | String c s' =>
      if decide (c = sep) then EmptyString :: split sep s'
      else match split sep s' with
           | [] => [String c EmptyString]
           | w :: ws => String c w :: ws
           end
  end.

Definition is_digit (c : ascii) : bool :=
  let n := nat_of_ascii c in ((48 <=? n) && (n <=? 57))%nat.

Definition digit_val (c : ascii) : Z := Z.of_nat (nat_of_ascii c) - 48.

(** The digit part of an integer literal: decimal digits, single
    underscores allowed between digits only. *)
Fixpoint digits_go (s : string) (acc : Z) (prev_digit : bool) : option Z :=
  match s with
  | EmptyString => if prev_digit then Some acc else None
  | String c s' =>
      if is_digit c then digits_go s' (10 * acc + digit_val c) true
      else if decide (c = "_"%char) then
             if prev_digit then digits_go s' acc false else None
           else None
  end.

(** The number of digits above which [int] refuses a decimal literal
    ([sys.int_info.default_max_str_digits]). *)
Definition int_max_str_digits : nat := 4300.

Fixpoint count_digits (s : string) : nat :=
  match s with
  | EmptyString => O
  | String c s' => if is_digit c then S (count_digits s') else count_digits s'
  end.

(** [int(s)] on a string: surrounding white space (of an ASCII string
    only what C's [isspace] knows, so not FS, GS, RS and US), an optional
    sign, then the digits; [None] is the [ValueError]. Digits are the
    ASCII digits: a literal written in other decimal digits, which [int]
    reads too, is not read here. *)
Definition py_int (s : string) : option Z :=
  let literal := strip_with is_c_space s in
  if decide (int_max_str_digits < count_digits literal)%nat then None
  else
    match literal with
    | String "-" d => Z.opp <$> digits_go d 0 false
    | String "+" d => digits_go d 0 false
    | d => digits_go d 0 false
    end.

End PyStr.

(** ** Codebook translator *)

Module Codebook.
Import PyStr.

(** One object of the metadata export; only the three keys that
    [convert_codebook] reads. *)
Record field_descriptor := FieldDescriptor {
  field_name : string;
  field_type : string;
  select_choices_or_calculations : string
}.

Definition approved_field_types : list string := ["dropdown"; "radio"; "checkbox"].

(** Lines 85-89: the body of the [try]. [kv_list[1]] raises [IndexError]
    when the pair holds no comma. *)
Definition add_pair (temp_dict : option (gmap string string)) (pair : string)
  : option (gmap string string) :=
  d ← temp_dict;
  match split ","%char pair with
  | k :: v :: _ => Some (<[strip v := strip k]> d)
  | _ => None
  end.

Definition parse_choices (spec : string) : option (gmap string string) :=
  foldl add_pair (Some ∅) (split "|"%char spec).

Section WithConfig.
Variable treatment_field : string.

  (** The choices string after lines 73-79, or [None] when the object is
      skipped by [continue]. *)
Definition effective_choices (obj : field_descriptor) : option string :=
    if decide (field_type obj = "yesno") then Some "1, Yes | 0, No"
    else if decide (field_type obj = "truefalse") then Some "1, True | 0, False"
    else if decide (field_type obj ∈ approved_field_types)
         then Some (select_choices_or_calculations obj)
         else None.

Definition convert_step (criteria : list string)
      (codebook : option (gmap string (gmap string string)))
      (obj : field_descriptor) : option (gmap string (gmap string string)) :=
    cb ← codebook;
    match effective_choices obj with
    | None => Some cb
    | Some choices =>
        if decide (choices ≠ "" ∧
                   (field_name obj ∈ criteria ∨ field_name obj = treatment_field))
        then temp_dict ← parse_choices choices;
             Some (<[field_name obj := temp_dict]> cb)
        else Some cb
    end.

Definition convert_codebook (full_codebook : list field_descriptor)
      (criteria : list string) : option (gmap string (gmap string string)) :=
    foldl (convert_step criteria) (Some ∅) full_codebook.
End WithConfig.

End Codebook.

(** ** Data frames *)

Module Frames.

(** A row: column name to cell. *)
Definition series (C : Type) : Type := string → C.

Record frame (R : Type) := Frame { columns : list string; rows : list R }.
Arguments Frame {R} _ _.
Arguments columns {R} _.
Arguments rows {R} _.

(** The row whose cells under [cols] are [vals], in order. *)
Fixpoint series_of {C} (d : C) (cols : list string) (vals : list C) : series C :=
  match cols, vals with
  | c :: cs, v :: vs => λ x, if decide (x = c) then v else series_of d cs vs x
  | _, _ => λ _, d
  end.

(** [tuple(row[cols])] *)
Definition project {C} (cols : list string) (r : series C) : list C := r <$> cols.

(** Order of group keys: tuples of strings, lexicographic, strings by
    code point. *)
Fixpoint tuple_leb (a b : list string) : bool :=
  match a, b with
  | [], _ => true
  | _ :: _, [] => false
  | x :: a', y :: b' =>
      match String.compare x y with
      | Lt => true
      | Gt => false
      | Eq => tuple_leb a' b'
      end
  end.

Definition tuple_le (a b : list string) : Prop := Is_true (tuple_leb a b).

Global Instance tuple_le_dec : RelDecision tuple_le.
Proof. intros a b. unfold tuple_le. apply _. Defined.

(** The distinct keys of a [groupby], sorted ([sort=True] is the default). *)
Definition group_keys (keys : list (list string)) : list (list string) :=
  merge_sort tuple_le (remove_dups keys).

Definition count_of (k : list string) (keys : list (list string)) : Z :=
  Z.of_nat (length (filter (λ k', k' = k) keys)).

Definition sum_Z (l : list Z) : Z := foldr Z.add 0 l.

(** A row of [grouped_df] or of [freq_df]: the key cells and the [size]
    column. *)
Record grouped_row := GroupedRow { g_cells : series string; g_size : Z }.

(** A row of [mapped_df]: the cells, [size] and [probability]. *)
Record mapped_row (C : Type) := MappedRow {
  m_cells : series C;
  m_size : Z;
  m_probability : Q
}.
Arguments MappedRow {C} _ _ _.
Arguments m_cells {C} _.
Arguments m_size {C} _.
Arguments m_probability {C} _.

(** [df.replace({pd.NA: '', np.nan: ''})] on the table as read: [None] is
    a missing cell. *)
Definition replace_missing (df : frame (series (option string))) : frame (series string) :=
  Frame (columns df) ((λ r c, default "" (r c)) <$> rows df).

(** [df.groupby(df.columns.to_list(), as_index=False, dropna=False).size()];
    [None] is the [ValueError] for an empty key list. *)
Definition groupby_size (df : frame (series string)) : option (frame grouped_row) :=
  if decide (columns df = []) then None
  else
    let keys := project (columns df) <$> rows df in
    Some (Frame (columns df)
            ((λ k, GroupedRow (series_of "" (columns df) k) (count_of k keys))
               <$> group_keys keys)).

(** [df.groupby(by, dropna=False, as_index=False)['size'].sum()]; [None]
    is the [KeyError] or [ValueError] of an unknown or empty key list. *)
Definition groupby_sum (by_cols : list string) (df : frame grouped_row)
  : option (frame grouped_row) :=
  if decide (by_cols ≠ [] ∧ by_cols ⊆ columns df) then
    let key_of (r : grouped_row) := project by_cols (g_cells r) in
    Some (Frame by_cols
            ((λ k, GroupedRow (series_of "" by_cols k)
                     (sum_Z (g_size <$> filter (λ r, key_of r = k) (rows df))))
               <$> group_keys (key_of <$> rows df)))
  else None.

End Frames.

(** ** Probability calculator, encoding reconciliation, index *)

Module Prob.
Import PyStr Frames.

(** Nearest integer, ties to even. *)
Definition round_half_even (q : Q) : Z :=
  let f := Qfloor q in
  match (q - inject_Z f ?= 1 # 2)%Q with
  | Lt => f
  | Gt => f + 1
  | Eq => if Z.even f then f else f + 1
  end.

(** The exponent of a positive rational: the [e] with
    [2^e <= q < 2^(e+1)]. The difference of the bit lengths of numerator
    and denominator is [e] or [e + 1]. *)
Definition exponent (q : Q) : Z :=
  let e := Z.log2 (Qnum q) - Z.log2 (Zpos (Qden q)) in
  if Qle_bool (2 ^ e) q then e else e - 1.

(** The binary64 number nearest to a rational, ties to even: 53
    significant bits. The exponent is not bounded: the quotients of the
    program are of two counts held in 64-bit integers, far inside the
    range of the format. *)
Definition binary64 (q : Q) : Q :=
  let r := Qred q in
  let e := exponent (Qabs r) in
  match Qnum r with
  | Z0 => 0
  | _ => inject_Z (round_half_even (r * 2 ^ (52 - e))) * 2 ^ (e - 52)
  end.

(** [a / b] on two integers, [b] not zero: the quotient correctly
    rounded to a float. *)
Definition py_truediv (a b : Z) : Q := binary64 (inject_Z a / inject_Z b).

(** [round(x, 3)] on a float [x]: the decimal with three digits nearest
    to the value of [x], ties to even. *)
Definition py_round3 (x : Q) : Q := Qred (round_half_even (x * 1000) # 1000).

(** Insertion-ordered dictionary: [d[k] = v] and [d.get(k)]. *)
Fixpoint dict_set {K V} `{EqDecision K} (k : K) (v : V) (d : list (K * V))
  : list (K * V) :=
  match d with
  | [] => [(k, v)]
  | (k', v') :: d' =>
      if decide (k = k') then (k', v) :: d' else (k', v') :: dict_set k v d'
  end.

Fixpoint dict_get {K V} `{EqDecision K} (k : K) (d : list (K * V)) : option V :=
  match d with
  | [] => None
  | (k', v') :: d' => if decide (k = k') then Some v' else dict_get k d'
  end.

(** [l.remove(x)] on a copy: the first occurrence goes; [None] is the
    [ValueError]. *)
Fixpoint py_remove (x : string) (l : list string) : option (list string) :=
  match l with
  | [] => None
  | y :: l' => if decide (x = y) then Some l' else (y ::.) <$> py_remove x l'
  end.

(** The values of a 64-bit integer. *)
Definition int64 (z : Z) : Prop := - 2 ^ 63 ≤ z < 2 ^ 63.

Global Instance int64_dec z : Decision (int64 z).
Proof. unfold int64. apply _. Defined.

(** A treatment distribution and the sum of its values. *)
Definition dist_sum {K} (d : list (K * Q)) : Q := foldr Qplus 0%Q (d.*2).

Section WithConfig.
Variables treatment_field randomized_field : string.

  (** Line 131: [all(row[col] == row2[col] for col in less_criteria)]. *)
Definition criteria_match (less_criteria : list string) (row row2 : grouped_row) : bool :=
    forallb (λ col, bool_decide (g_cells row col = g_cells row2 col)) less_criteria.

  (** Lines 132-133; [None] is the [ZeroDivisionError], which ends in
      [sys.exit]. *)
Definition probability_row (row row2 : grouped_row) : option (mapped_row string) :=
    if decide (g_size row = 0) then None
    else Some (MappedRow (g_cells row2) (g_size row2)
                 (py_round3 (py_truediv (g_size row2) (g_size row)))).

  (** Lines 129-135 for one row of [freq_df]. *)
Fixpoint inner_loop (less_criteria : list string) (row : grouped_row)
      (grouped : list grouped_row) (mapped_df : list (mapped_row string))
    : option (list (mapped_row string)) :=
    match grouped with
    | [] => Some mapped_df
    | row2 :: rest =>
        if criteria_match less_criteria row row2 then
          temp_row ← probability_row row row2;
          inner_loop less_criteria row rest (mapped_df ++ [temp_row])
        else inner_loop less_criteria row rest mapped_df
    end.

  (** Lines 128-142. *)
Fixpoint outer_loop (less_criteria : list string) (freq : list grouped_row)
      (grouped : list grouped_row) (mapped_df : list (mapped_row string))
    : option (list (mapped_row string)) :=
    match freq with
    | [] => Some mapped_df
    | row :: rest =>
        m ← inner_loop less_criteria row grouped mapped_df;
        outer_loop less_criteria rest grouped m
    end.

  (** [df[col] = df[src]] on one row. *)
Definition assign_column {C} (col src : string) (r : mapped_row C) : mapped_row C :=
    MappedRow (λ c, if decide (c = col) then m_cells r src else m_cells r c)
              (m_size r) (m_probability r).

Definition add_column (col : string) (cols : list string) : list string :=
    if decide (col ∈ cols) then cols else cols ++ [col].

  (** Lines 117-146. An empty [mapped_df] has no columns at all, so line
      145 raises [KeyError]. *)
Definition calculate_probabilities (grouped_df : frame grouped_row)
      (less_criteria : list string) : option (frame (mapped_row string)) :=
    freq_df ← groupby_sum less_criteria grouped_df;
    mapped ← outer_loop less_criteria (rows freq_df) (rows grouped_df) [];
    if decide (mapped ≠ [] ∧ treatment_field ∈ columns grouped_df) then
      Some (Frame (add_column randomized_field (columns grouped_df))
              (assign_column randomized_field treatment_field <$> mapped))
    else None.

  (** Line 153 for one column. The lambda looks [translation_dict] up only
      when it is called, that is when the frame has a row. *)
Definition convert_column (translation_dict : gmap string (gmap string string))
      (df : option (frame (mapped_row (option string)))) (column_name : string)
    : option (frame (mapped_row (option string))) :=
    d ← df;
    if decide (column_name ∈ columns d) then
      match rows d with
      | [] => Some d
      | _ =>
          m ← translation_dict !! column_name;
          Some (Frame (columns d)
                  ((λ r, MappedRow
                           (λ c, if decide (c = column_name)
                                 then m_cells r c ≫= (m !!.)
                                 else m_cells r c)
                           (m_size r) (m_probability r)) <$> rows d))
      end
    else None.

  (** Lines 148-160; unmapped labels become [None] and line 159 turns
      them into the empty string. *)
Definition convert_to_values (full_criteria : list string)
      (mapped_df : frame (mapped_row string))
      (translation_dict : gmap string (gmap string string))
    : option (frame (mapped_row string)) :=
    let start :=
      Frame (columns mapped_df)
        ((λ r, MappedRow (λ c, Some (m_cells r c)) (m_size r) (m_probability r))
           <$> rows mapped_df) in
    d ← foldl (convert_column translation_dict) (Some start) full_criteria;
    Some (Frame (columns d)
            ((λ r, MappedRow (λ c, default "" (m_cells r c)) (m_size r) (m_probability r))
               <$> rows d)).

  (** Line 266 on one cell: [''] becomes [-1], anything else goes through
      [int] into a 64-bit integer; [None] is the [ValueError] of [int] or
      the [OverflowError] of [astype]. *)
Definition coerce_cell (s : string) : option Z :=
    if decide (s = "") then Some (-1)
    else z ← py_int s; if decide (int64 z) then Some z else None.

Definition coerce_row (full_criteria : list string) (r : mapped_row string)
    : option (mapped_row Z) :=
    cells ← mapM (λ c, coerce_cell (m_cells r c)) full_criteria;
    Some (MappedRow (series_of (-1) full_criteria cells) (m_size r) (m_probability r)).

  (** Line 266. The result keeps the integer columns [full_criteria], the
      only ones read afterwards. *)
Definition coerce_criteria (full_criteria : list string)
      (mapped_df : frame (mapped_row string)) : option (frame (mapped_row Z)) :=
    if decide (full_criteria ⊆ columns mapped_df) then
      Frame full_criteria <$> mapM (coerce_row full_criteria) (rows mapped_df)
    else None.

  (** Lines 177-182 for one row. *)
Definition index_step {C} `{Countable C} (less_criteria : list string)
      (probability_dict : gmap (list C) (list (C * Q))) (row : mapped_row C)
    : gmap (list C) (list (C * Q)) :=
    let key := project less_criteria (m_cells row) in
    let value_dict := default [] (probability_dict !! key) in
    let inner_key := m_cells row randomized_field in
    let inner_value := m_probability row in
    <[key := dict_set inner_key inner_value value_dict]> probability_dict.

  (** Lines 162-183; a column missing from a frame with rows is a
      [KeyError]. *)
Definition create_probability_dict {C} `{Countable C}
      (mapped_df : frame (mapped_row C)) (less_criteria : list string)
    : option (gmap (list C) (list (C * Q))) :=
    if decide (rows mapped_df = [] ∨
               (less_criteria ⊆ columns mapped_df ∧ randomized_field ∈ columns mapped_df))
    then Some (foldl (index_step less_criteria) ∅ (rows mapped_df))
    else None.

  (** Lines 243-244 of [main]: the frequency aggregator. *)
Definition frequency_aggregator (allocation_df : frame (series (option string)))
    : option (frame grouped_row) :=
    groupby_size (replace_missing allocation_df).

  (** The probability calculator on labels: aggregation, probabilities,
      index, before any label is rewritten to a code. *)
Definition probability_index (allocation_df : frame (series (option string)))
      (less_criteria : list string) : option (gmap (list string) (list (string * Q))) :=
    grouped_df ← frequency_aggregator allocation_df;
    mapped_df ← calculate_probabilities grouped_df less_criteria;
    create_probability_dict mapped_df less_criteria.

  (** Lines 247-259 of [main]: [less_criteria], and the comparison of the
      report's fields with the table's columns. [None] is the
      [ValueError] of [remove], the [KeyError] of [drop], or the exit on a
      mismatch. *)
Definition main_less_criteria (allocation_df : frame (series (option string)))
      (full_criteria : list string) : option (list string) :=
    less_criteria ← py_remove randomized_field full_criteria;
    if decide (treatment_field ∈ columns allocation_df ∧
               full_criteria ≡ₚ filter (λ c, c ≠ treatment_field) (columns allocation_df))
    then Some less_criteria else None.

  (** Lines 242-272 of [main], from the table to the index on codes. *)
Definition main_index (allocation_df : frame (series (option string)))
      (full_criteria : list string)
      (translation_dict : gmap string (gmap string string))
    : option (gmap (list Z) (list (Z * Q))) :=
    grouped_df ← frequency_aggregator allocation_df;
    less_criteria ← main_less_criteria allocation_df full_criteria;
    mapped_df ← calculate_probabilities grouped_df less_criteria;
    mapped_df ← convert_to_values full_criteria mapped_df translation_dict;
    mapped_df ← coerce_criteria full_criteria mapped_df;
    create_probability_dict mapped_df less_criteria.
End WithConfig.

End Prob.

(** ** Randomizer *)

Module Rand.
Import PyStr Frames Prob.

(** The random source: the stream of values that successive calls of
    [random.random()] return, and the number of calls made so far. *)
Record rng := Rng { stream : nat → Q; cursor : nat }.

Definition random (g : rng) : Q * rng :=
  (stream g (cursor g), Rng (stream g) (S (cursor g))).

(** [itertools.accumulate] *)
Fixpoint accumulate_from (acc : Q) (w : list Q) : list Q :=
  match w with
  | [] => []
  | x :: w' => (acc + x)%Q :: accumulate_from (acc + x)%Q w'
  end.

Definition accumulate (w : list Q) : list Q :=
  match w with
  | [] => []
  | x :: w' => x :: accumulate_from x w'
  end.

(** [bisect.bisect(a, x, 0, hi)] on a non-decreasing list: the first
    position below [hi] whose entry exceeds [x], else [hi]. *)
Fixpoint bisect (a : list Q) (x : Q) (hi : nat) : nat :=
  match hi, a with
  | S hi', y :: a' => if Qlt_le_dec x y then O else S (bisect a' x hi')
  | _, _ => O
  end.

(** [random.choices(population, weights=weights, k=1)[0]] given the value
    [u] of the call to [random()]; [None] is the [ValueError] for a total
    weight that is not positive (or the [IndexError] on an empty
    population). *)
Definition choices {A} (population : list A) (weights : list Q) (u : Q) : option A :=
  let cum_weights := accumulate weights in
  total ← last cum_weights;
  if Qlt_le_dec 0 total
  then population !! bisect cum_weights (u * total)%Q (length population - 1)
  else None.

(** A subject record after line 269: field name to integer. *)
Abbreviation record := (gmap string Z).

Section WithConfig.
Variable randomized_field : string.

  (** Lines 190-195 for the subject at position [report_key]. [mapM]
      yields the tuple exactly when every criterion is a key of the
      record. *)
Definition assign_subject (less_criteria : list string)
      (probability_dict : gmap (list Z) (list (Z * Q)))
      (st : list record * rng) (report_key : nat) : option (list record * rng) :=
    let '(eligibility_report, g) := st in
    match eligibility_report !! report_key with
    | None => Some st
    | Some report_value =>
        match mapM (λ key, report_value !! key) less_criteria with
        | None => Some st
        | Some tuple_key =>
            match probability_dict !! tuple_key with
            | None => Some st
            | Some multilevel_value =>
                let '(u, g') := random g in
                random_choice ← choices (multilevel_value.*1) (multilevel_value.*2) u;
                Some (<[report_key :=
                          <[randomized_field := random_choice]> report_value]>
                        eligibility_report, g')
            end
        end
    end.

  (** Lines 185-196: the list is updated in place, position by position,
      and returned. *)
Definition randomization_step (eligibility_report : list record)
      (less_criteria : list string)
      (probability_dict : gmap (list Z) (list (Z * Q))) (g : rng)
    : option (list record * rng) :=
    foldl (λ st report_key, st ≫= λ s, assign_subject less_criteria probability_dict s report_key)
          (Some (eligibility_report, g))
          (seq 0 (length eligibility_report)).

  (** Line 269 on one value and on one record. *)
Definition parse_value (value : string) : option Z :=
    if decide (value = "") then Some (-1) else py_int value.

Definition parse_record (input_dict : gmap string string) : option record :=
    if decide (map_Forall (λ _ value, is_Some (parse_value value)) input_dict)
    then Some (omap parse_value input_dict) else None.

  (** Lines 278-281: every [-1] of a record becomes [None]. *)
Definition null_sentinels (r : record) : gmap string (option Z) :=
    (λ value, if decide (value = -1) then None else Some value) <$> r.

  (** Lines 268-281 of [main] around a given index. *)
Definition main_assign (eligibility_report : list (gmap string string))
      (less_criteria : list string)
      (probability_dict : gmap (list Z) (list (Z * Q))) (g : rng)
    : option (list (gmap string (option Z)) * rng) :=
    match mapM parse_record eligibility_report with
    | None => None
    | Some parsed =>
        match randomization_step parsed less_criteria probability_dict g with
        | None => None
        | Some (assigned, g') => Some (null_sentinels <$> assigned, g')
        end
    end.
End WithConfig.

End Rand.

(** ** The whole run *)

Module Main.
Import PyStr Codebook Frames Prob Rand.

Section WithConfig.
Variables treatment_field randomized_field : string.

  (** [main] between the downloads and the upload: [full_criteria] is the
      field list that line 231 reads off the first record. *)
Definition main_core (eligibility_report : list (gmap string string))
      (full_criteria : list string)
      (original_codebook : list field_descriptor)
      (allocation_df : frame (series (option string))) (g : rng)
    : option (list (gmap string (option Z)) * rng) :=
    translation_dict ← convert_codebook treatment_field original_codebook full_criteria;
    less_criteria ← main_less_criteria treatment_field randomized_field
                      allocation_df full_criteria;
    probability_dict ← main_index treatment_field randomized_field
                         allocation_df full_criteria translation_dict;
    main_assign randomized_field eligibility_report less_criteria probability_dict g.
End WithConfig.

End Main.

Import PyStr Codebook Frames Prob Rand Main.


(** ** Notions used to state the properties *)

Module Props.
Import PyStr Codebook Frames Prob Rand.

(** The part of a pair before its first comma and the whole remainder
    after it; [None] when the pair holds no comma. *)
Fixpoint split_first (sep : ascii) (s : string) : option (string * string) :=
  match s with
  | EmptyString => None
  | String c s' =>
      if decide (c = sep) then Some (EmptyString, s')
      else '(a, b) ← split_first sep s'; Some (String c a, b)
  end.

(** The reading of one [code, label] pair in the words of the parsing
    rule: the first comma-delimited token is the code, the remainder,
    trimmed, is the label. The result is (label, code). *)
Definition rule_entry (pair : string) : option (string * string) :=
  '(code, label) ← split_first ","%char pair; Some (strip label, strip code).

(** The (label, code) entry that lines 88-89 take from one pair. *)
Definition pair_entry (pair : string) : option (string * string) :=
  match split ","%char pair with
  | k :: v :: _ => Some (strip v, strip k)
  | _ => None
  end.

(** The codes of a specification, pair by pair. *)
Definition codes_of (spec : string) : list string :=
  (λ pair, strip (hd "" (split ","%char pair))) <$> split "|"%char spec.

(** Decoding through the inverse of a label-to-code mapping: a label that
    the mapping sends to [code]. *)
Definition decode (m : gmap string string) (code : string) : option string :=
  (λ hit, hit.2.1) <$> list_find (λ kv, kv.2 = code) (map_to_list m).

(** The probability that the index holds for a treatment in a stratum. *)
Definition index_entry {C} `{Countable C} (probability_dict : gmap (list C) (list (C * Q)))
    (key : list C) (treatment : C) : option Q :=
  probability_dict !! key ≫= dict_get treatment.

(** The row that lines 132-133 build from a row of [freq_df] and a
    matching row of [grouped_df]. *)
Definition mapped_of (row row2 : grouped_row) : mapped_row string :=
  MappedRow (g_cells row2) (g_size row2)
    (py_round3 (py_truediv (g_size row2) (g_size row))).


(** A table row lands in the group of [grouped_df] whose key cells are
    its cells after line 243. *)
Definition in_group (cols : list string) (gr : grouped_row)
    (r : series (option string)) : Prop :=
  project cols (g_cells gr) = project cols (λ c, default "" (r c)).

Global Instance in_group_dec cols gr r : Decision (in_group cols gr r).
Proof. unfold in_group. apply _. Defined.

(** A row of [mapped_df] speaks for a stratum key and an inner key. *)
Definition row_matches {C} (randomized_field : string) (less_criteria : list string)
    (key : list C) (inner_key : C) (row : mapped_row C) : Prop :=
  project less_criteria (m_cells row) = key ∧ m_cells row randomized_field = inner_key.

(** A well-formed inner dictionary: distinct keys, at least one. *)
Definition dist_ok {K} (d : list (K * Q)) : Prop := NoDup (d.*1) ∧ d ≠ [].

(** The cell that line 153 leaves in column [c] of a row once the columns
    [cs] have been converted: [None] is an unlisted label. *)
Definition converted_cell (translation_dict : gmap string (gmap string string))
    (cs : list string) (r : mapped_row string) (c : string) : option string :=
  if decide (c ∈ cs)
  then translation_dict !! c ≫= λ m, m !! m_cells r c
  else Some (m_cells r c).

(** A row of the frame under conversion stands for the row [r] of
    [mapped_df] with the columns [cs] converted. *)
Definition converts_to (translation_dict : gmap string (gmap string string))
    (cs : list string) (r : mapped_row string) (r' : mapped_row (option string)) : Prop :=
  m_size r' = m_size r ∧ m_probability r' = m_probability r ∧
  ∀ c, m_cells r' c = converted_cell translation_dict cs r c.

(** A subject gets no draw: a criterion is not a key of its record, or its
    stratum key is not a key of the index. *)
Definition unmatched (less_criteria : list string)
    (probability_dict : gmap (list Z) (list (Z * Q))) (r : gmap string Z) : Prop :=
  ∀ tuple_key, mapM (λ key, r !! key) less_criteria = Some tuple_key →
               probability_dict !! tuple_key = None.

(** The loop of [randomization_step] over a list of positions. *)
Definition run_subjects (randomized_field : string) (less_criteria : list string)
    (probability_dict : gmap (list Z) (list (Z * Q)))
    (st : option (list (gmap string Z) * rng)) (positions : list nat)
  : option (list (gmap string Z) * rng) :=
  foldl (λ st report_key,
           st ≫= λ s, assign_subject randomized_field less_criteria probability_dict
                        s report_key)
        st positions.

(** A distribution from which [random.choices] can draw: its weights
    have a positive total. *)
Definition drawable (dist : list (Z * Q)) : Prop :=
  ∃ total, last (accumulate (dist.*2)) = Some total ∧ (0 < total)%Q.

Section Counting.
Variable treatment_field : string.

  (** The rows of the historical table after line 243. *)
Definition table_rows (allocation_df : frame (series (option string)))
    : list (series string) := rows (replace_missing allocation_df).

  (** The number of historical rows with a stratum key. *)
Definition count_stratum (less_criteria : list string) (table : list (series string))
      (key : list string) : Z :=
    Z.of_nat (length (filter (λ r, project less_criteria r = key) table)).

  (** The number of historical rows with a stratum key and a treatment. *)
Definition count_pair (less_criteria : list string) (table : list (series string))
      (key : list string) (treatment : string) : Z :=
    Z.of_nat (length (filter (λ r, project less_criteria r = key ∧
                                   r treatment_field = treatment) table)).

  (** Rows are told apart by their stratum key and treatment: no other
      column of the table distinguishes two of them. *)
Definition determined_by_key_and_treatment (cols less_criteria : list string)
      (table : list (series string)) : Prop :=
    ∀ r1 r2, r1 ∈ table → r2 ∈ table →
      project less_criteria r1 = project less_criteria r2 →
      r1 treatment_field = r2 treatment_field →
      project cols r1 = project cols r2.

  (** The rows of [grouped_df], of [freq_df] and of [mapped_df] for a
      table whose rows are [table] under the columns [cols], as
      [groupby_size], [groupby_sum] and the two loops produce them. *)
Definition grouped_rows (cols : list string) (table : list (series string))
    : list grouped_row :=
    (λ k, GroupedRow (series_of "" cols k) (count_of k (project cols <$> table)))
      <$> group_keys (project cols <$> table).

Definition freq_rows (cols less_criteria : list string) (table : list (series string))
    : list grouped_row :=
    (λ k, GroupedRow (series_of "" less_criteria k)
            (sum_Z (g_size <$> filter (λ r, project less_criteria (g_cells r) = k)
                                      (grouped_rows cols table))))
      <$> group_keys ((λ r, project less_criteria (g_cells r)) <$> grouped_rows cols table).

Definition mapped_rows (randomized_field : string) (cols less_criteria : list string)
      (table : list (series string)) : list (mapped_row string) :=
    assign_column randomized_field treatment_field <$>
      (freq_rows cols less_criteria table ≫= λ row,
         mapped_of row <$> filter (λ row2, criteria_match less_criteria row row2)
                                  (grouped_rows cols table)).


  (** What lines 132-133 compute from the two counts. *)
Definition stored_probability (less_criteria : list string)
      (table : list (series string)) (key : list string) (treatment : string) : Q :=
    py_round3 (py_truediv (count_pair less_criteria table key treatment)
                          (count_stratum less_criteria table key)).
End Counting.

End Props.

Import Props.

(** ** Sample data *)

Module Examples.
Import PyStr Codebook Frames Prob Rand.

(** A table row from its cells; a column that is not listed is missing. *)
Definition row_of (cells : list (string * string)) : series (option string) :=
  λ c, dict_get c cells.

(** Stratum A: 15 rows of treatment1 and 5 of treatment2; stratum B: 10
    rows of treatment3. *)
Definition join_table : frame (series (option string)) :=
  Frame ["stratum"; "treatment"]
    (replicate 15 (row_of [("stratum", "A"); ("treatment", "treatment1")]) ++
     replicate 5 (row_of [("stratum", "A"); ("treatment", "treatment2")]) ++
     replicate 10 (row_of [("stratum", "B"); ("treatment", "treatment3")])).

(** One stratum with six treatments, one row each. *)
Definition six_arm_table : frame (series (option string)) :=
  Frame ["stratum"; "treatment"]
    ((λ t, row_of [("stratum", "A"); ("treatment", t)])
       <$> ["t1"; "t2"; "t3"; "t4"; "t5"; "t6"]).

(** A table in the layout that [main] accepts: the criteria of the
    report, among them the field that receives the assignment, and the
    treatment column. Stratum A holds one row of each of two treatments
    whose labels the codebook below does not list. *)
Definition unlisted_table : frame (series (option string)) :=
  Frame ["stratum"; "assigned"; "treatment"]
    [row_of [("stratum", "A"); ("treatment", "Drug X")];
     row_of [("stratum", "A"); ("treatment", "Drug Y")]].

Definition unlisted_codebook : list field_descriptor :=
  [FieldDescriptor "stratum" "radio" "1, A | 2, B";
   FieldDescriptor "assigned" "radio" "1, Placebo | 2, Drug"].

(** One pending subject of site 1 whose assignment field already holds 2,
    and an index that knows site 1. *)
Definition one_subject : list (gmap string Z) :=
  [ {[ "record_id" := 1; "site" := 1; "assigned" := 2 ]} ].

Definition site_index : gmap (list Z) (list (Z * Q)) := {[ [1] := [(2, 1 # 1)] ]}.

Definition constant_rng : rng := Rng (λ _, 0 # 1) 0.

(** Two rows with the same treatment, one of them without a stratum. *)
Definition gap_table : frame (series (option string)) :=
  Frame ["stratum"; "treatment"]
    [row_of [("stratum", "A"); ("treatment", "treatment1")];
     row_of [("treatment", "treatment1")]].

(** One row of [mapped_df] with a treatment label that the codebook
    below does not list. *)
Definition unlisted_mapped : frame (mapped_row string) :=
  Frame ["stratum"; "assigned"]
    [MappedRow (λ c, default "" (row_of [("stratum", "A"); ("assigned", "Drug X")] c))
       1 (1 # 1)].

Definition small_translation : gmap string (gmap string string) :=
  {[ "stratum" := {[ "A" := "1" ]}; "assigned" := {[ "Placebo" := "1" ]} ]}.

Definition arm_descriptors : list field_descriptor :=
  [FieldDescriptor "arm" "radio" "1, Drug | 2, Placebo"].

Definition arm_mapping : gmap string string := {[ "Drug" := "1"; "Placebo" := "2" ]}.

(** Two rows of the converted table with the same stratum key and the
    same treatment code. *)
Definition clash_row (p : Q) : mapped_row Z :=
  MappedRow (λ c, if decide (c = "stratum") then 1 else -1) 1 p.

Definition join_index : gmap (list string) (list (string * Q)) :=
  {[ ["A"] := [("treatment1", 3 # 4); ("treatment2", 1 # 4)];
     ["B"] := [("treatment3", 1 # 1)] ]}.

(** The same two tables in the layout that [main] accepts, with the
    codebooks that list their labels, and the index on codes. *)
Definition join_main_table : frame (series (option string)) :=
  Frame ["stratum"; "assigned"; "treatment"] (rows join_table).

Definition join_codebook : list field_descriptor :=
  [FieldDescriptor "stratum" "radio" "1, A | 2, B";
   FieldDescriptor "assigned" "radio" "1, treatment1 | 2, treatment2 | 3, treatment3"].


Definition six_arm_main_table : frame (series (option string)) :=
  Frame ["stratum"; "assigned"; "treatment"] (rows six_arm_table).

Definition six_arm_codebook : list field_descriptor :=
  [FieldDescriptor "stratum" "radio" "1, A";
   FieldDescriptor "assigned" "radio" "1, t1 | 2, t2 | 3, t3 | 4, t4 | 5, t5 | 6, t6"].





End Examples.

Import Examples.

(** ** Notions used to state further properties *)

Module Behaviour.
Import PyStr Codebook Frames Prob Rand Props.

(** Line 83: the field is a criterion or the treatment field. *)
Definition of_interest (treatment_field : string) (criteria : list string)
    (obj : field_descriptor) : Prop :=
  field_name obj ∈ criteria ∨ field_name obj = treatment_field.

(** A string of ASCII characters only. *)
Definition is_ascii (s : string) : Prop :=
  Forall (λ c, (nat_of_ascii c < 128)%nat) (list_ascii_of_string s).

(** A pair without a comma: [pair.split(',')] is the pair alone. *)
Definition no_comma (pair : string) : Prop := split ","%char pair = [pair].

(** The total that line 127 gives to the stratum of a row of
    [grouped_df]: the sizes of the rows with the same criteria cells,
    added up. *)
Definition stratum_size (less_criteria : list string) (grouped : list grouped_row)
    (row2 : grouped_row) : Z :=
  sum_Z (g_size <$>
         filter (λ r, project less_criteria (g_cells r) = project less_criteria (g_cells row2))
                grouped).

(** The row of [mapped_df] that stands for a row of [grouped_df]: its
    cells and size, its size over the total of its stratum rounded to 3
    digits, and the treatment copied to the randomized field. *)
Definition mapped_from (treatment_field randomized_field : string)
    (less_criteria : list string) (grouped : list grouped_row) (row2 : grouped_row)
  : mapped_row string :=
  assign_column randomized_field treatment_field
    (MappedRow (g_cells row2) (g_size row2)
       (py_round3 (py_truediv (g_size row2)
                              (stratum_size less_criteria grouped row2)))).

(** Lines 190 and 192: the subject gets a draw, that is every criterion
    is a key of its record and its stratum key is a key of the index. *)
Definition matched (less_criteria : list string)
    (probability_dict : gmap (list Z) (list (Z * Q))) (r : gmap string Z) : Prop :=
  match mapM (λ key, r !! key) less_criteria with
  | Some tuple_key => is_Some (probability_dict !! tuple_key)
  | None => False
  end.

Global Instance matched_dec less_criteria probability_dict r :
  Decision (matched less_criteria probability_dict r).
Proof. unfold matched. destruct (mapM _ less_criteria); apply _. Defined.

(** The number of draws made before the subject at position [i] is
    reached. *)
Definition draws_before (less_criteria : list string)
    (probability_dict : gmap (list Z) (list (Z * Q)))
    (eligibility_report : list (gmap string Z)) (i : nat) : nat :=
  length (filter (matched less_criteria probability_dict) (take i eligibility_report)).

End Behaviour.

Import Behaviour.

(** ** Further sample data *)

Module Samples.
Import PyStr Codebook Frames Prob Rand Props Examples.

(** A metadata export with a yes-no field whose choices string is empty,
    a text field and a radio field, and its translation for the criteria
    [consent] and [site]. *)
Definition consent_codebook : list field_descriptor :=
  [FieldDescriptor "consent" "yesno" "";
   FieldDescriptor "notes" "text" "";
   FieldDescriptor "site" "radio" "1, North | 2, South"].

Definition consent_translation : gmap string (gmap string string) :=
  {[ "consent" := {[ "Yes" := "1"; "No" := "0" ]};
     "site" := {[ "North" := "1"; "South" := "2" ]} ]}.

(** A grouped frame: stratum A with 3 rows of t1 and 1 row of t2. *)
Definition small_grouped : frame grouped_row :=
  Frame ["stratum"; "treatment"]
    [GroupedRow (series_of "" ["stratum"; "treatment"] ["A"; "t1"]) 3;
     GroupedRow (series_of "" ["stratum"; "treatment"] ["A"; "t2"]) 1].

(** A grouped frame of one stratum with sizes 1, 3 and 76, whose first
    two quotients lie halfway between two thousandths. *)
Definition tie_grouped : frame grouped_row :=
  Frame ["stratum"; "treatment"]
    [GroupedRow (series_of "" ["stratum"; "treatment"] ["A"; "t1"]) 1;
     GroupedRow (series_of "" ["stratum"; "treatment"] ["A"; "t2"]) 3;
     GroupedRow (series_of "" ["stratum"; "treatment"] ["A"; "t3"]) 76].

(** A record of the report as downloaded, and as line 269 reads it. *)
Definition raw_record : gmap string string :=
  {[ "record_id" := "7"; "site" := ""; "arm" := "-1" ]}.

Definition parsed_record : gmap string Z :=
  {[ "record_id" := 7; "site" := -1; "arm" := -1 ]}.

(** A report with one pending subject of stratum 1. *)
Definition join_report : list (gmap string string) :=
  [ {[ "record_id" := "1"; "stratum" := "1"; "assigned" := "" ]} ].

(** The row of stratum B of [join_table] after line 243. *)
Definition stratum_B_row : series string :=
  λ c, default "" (row_of [("stratum", "B"); ("treatment", "treatment3")] c).

End Samples.

Import Samples.

(** * Properties *)

(** ** Codebook translator *)

Section CodebookFacts.

Lemma add_pair_entry d pair :
    add_pair d pair = d ≫= λ m, pair_entry pair ≫= λ e, Some (<[e.1 := e.2]> m).
  Proof.
    unfold add_pair, pair_entry. destruct d as [m|]; simpl; [|done].
    destruct (split _ pair) as [|k [|v rest]]; done.
  Qed.

Lemma foldl_add_pair_None pairs : foldl add_pair None pairs = None.
  Proof. induction pairs as [|p ps IH]; simpl; done. Qed.

  (** [parse_choices] succeeds exactly when every pair yields an entry,
      and then inserts the entries from left to right. *)
Lemma foldl_add_pair_Some pairs d m :
    foldl add_pair (Some d) pairs = Some m ↔
    ∃ entries, mapM pair_entry pairs = Some entries ∧
               m = foldl (λ acc e, <[e.1 := e.2]> acc) d entries.
  Proof.
    revert d. induction pairs as [|p ps IH]; intros d.
    - simpl. split.
      + intros [= <-]. by exists [].
      + intros (es & [= <-] & ->). done.
    - change (foldl add_pair (Some d) (p :: ps))
        with (foldl add_pair (add_pair (Some d) p) ps).
      rewrite add_pair_entry. simpl.
      destruct (pair_entry p) as [e|] eqn:He; simpl.
      + rewrite IH. split.
        * intros (es & Hes & ->). exists (e :: es). by rewrite Hes.
        * intros (es & Hes & ->).
          destruct (mapM pair_entry ps) as [es'|]; simpl in Hes; [|done].
          injection Hes as <-. by exists es'.
      + rewrite foldl_add_pair_None. split; [done|].
        intros (es & Hes & _). done.
  Qed.

Lemma foldl_insert_lookup (entries : list (string * string)) (d : gmap string string) l c :
    foldl (λ acc e, <[e.1 := e.2]> acc) d entries !! l = Some c →
    (l, c) ∈ entries ∨ d !! l = Some c.
  Proof.
    revert d. induction entries as [|[l' c'] es IH]; intros d; simpl; [by right|].
    intros H. apply IH in H as [H|H]; [left; by right|].
    destruct (decide (l' = l)) as [->|Hne].
    - rewrite lookup_insert_eq in H. simplify_eq. left. by left.
    - rewrite lookup_insert_ne in H by done. by right.
  Qed.

Lemma foldl_insert_is_Some (entries : list (string * string)) (d : gmap string string) l :
    l ∈ entries.*1 ∨ is_Some (d !! l) →
    is_Some (foldl (λ acc e, <[e.1 := e.2]> acc) d entries !! l).
  Proof.
    revert d. induction entries as [|[l' c'] es IH]; intros d; simpl.
    - intros [H|H]; [by apply elem_of_nil in H|done].
    - intros [H|H]; apply IH.
      + apply elem_of_cons in H as [->|H]; [right|by left].
        simpl. rewrite lookup_insert_eq. by eexists.
      + right. simpl. destruct (decide (l' = l)) as [->|Hne].
        * rewrite lookup_insert_eq. by eexists.
        * by rewrite lookup_insert_ne.
  Qed.

Lemma pair_entry_code pair e :
    pair_entry pair = Some e → e.2 = strip (hd "" (split ","%char pair)).
  Proof.
    unfold pair_entry. destruct (split _ pair) as [|k [|v rest]]; [done..|].
    by intros [= <-].
  Qed.

Lemma codes_of_entries spec entries :
    mapM pair_entry (split "|"%char spec) = Some entries →
    entries.*2 = codes_of spec.
  Proof.
    unfold codes_of. generalize (split "|"%char spec). intros pairs. revert entries.
    induction pairs as [|p ps IH]; intros entries; simpl.
    - by intros [= <-].
    - destruct (pair_entry p) as [e|] eqn:He; simpl; [|done].
      destruct (mapM pair_entry ps) as [es|] eqn:Hes; simpl; [|done].
      intros [= <-]. simpl. f_equal; [by apply pair_entry_code|by apply IH].
  Qed.

Lemma decode_unique (m : gmap string string) l c :
    m !! l = Some c → (∀ l', m !! l' = Some c → l' = l) → decode m c = Some l.
  Proof.
    intros Hl Huniq. unfold decode.
    destruct (list_find (λ kv, kv.2 = c) (map_to_list m)) as [[i [l' c']]|] eqn:Hfind.
    - apply list_find_Some in Hfind as (Hi & Hc & _). simpl in *. subst c'.
      apply list_elem_of_lookup_2 in Hi. apply elem_of_map_to_list in Hi.
      simpl. f_equal. by apply Huniq.
    - apply list_find_None in Hfind.
      rewrite Forall_forall in Hfind.
      exfalso. apply (Hfind (l, c)); [|done].
      by apply elem_of_map_to_list.
  Qed.

  (** Round trip for the mapping parsed from one specification. *)
Lemma parse_choices_round_trip spec m :
    parse_choices spec = Some m →
    NoDup (codes_of spec) →
    ∀ pair label code,
      pair ∈ split "|"%char spec →
      pair_entry pair = Some (label, code) →
      ∃ code', m !! label = Some code' ∧ decode m code' = Some label.
  Proof.
    unfold parse_choices. intros Hm Hnd pair label code Hpair He.
    apply foldl_add_pair_Some in Hm as (entries & Hes & ->).
    pose proof (codes_of_entries _ _ Hes) as Hcodes. rewrite <- Hcodes in Hnd.
    assert (Hin : (label, code) ∈ entries).
    { apply mapM_Some_1 in Hes.
      apply list_elem_of_lookup_1 in Hpair as [i Hi].
      destruct (Forall2_lookup_l _ _ _ _ _ Hes Hi) as (e & He1 & He2).
      rewrite He in He2. injection He2 as <-. by eapply list_elem_of_lookup_2. }
    destruct (foldl_insert_is_Some entries ∅ label) as [code' Hc'].
    { left. apply list_elem_of_fmap. by exists (label, code). }
    exists code'. split; [done|].
    apply decode_unique; [done|]. intros l' Hl'.
    apply foldl_insert_lookup in Hc' as [Hc'|Hc']; [|by rewrite lookup_empty in Hc'].
    apply foldl_insert_lookup in Hl' as [Hl'|Hl']; [|by rewrite lookup_empty in Hl'].
    apply list_elem_of_lookup_1 in Hc' as [i Hi].
    apply list_elem_of_lookup_1 in Hl' as [j Hj].
    assert (i = j) as ->.
    { eapply NoDup_lookup; [exact Hnd|..]; rewrite list_lookup_fmap.
      - by rewrite Hi.
      - by rewrite Hj. }
    congruence.
  Qed.

Lemma foldl_convert_step_None tf criteria fc :
    foldl (convert_step tf criteria) None fc = None.
  Proof. induction fc; simpl; done. Qed.

  (** Every mapping of the translated codebook was parsed from the choices
      of a descriptor of that name. *)
Lemma convert_codebook_origin tf criteria fc cb0 cb field m :
    foldl (convert_step tf criteria) (Some cb0) fc = Some cb →
    cb !! field = Some m →
    cb0 !! field = Some m ∨
    ∃ obj spec, obj ∈ fc ∧ field_name obj = field ∧
                effective_choices obj = Some spec ∧ parse_choices spec = Some m.
  Proof.
    revert cb0. induction fc as [|obj fc IH]; intros cb0; simpl.
    - intros [= <-] ?. by left.
    - intros Hfold Hm.
      destruct (effective_choices obj) as [spec|] eqn:Hspec.
      2: { destruct (IH _ Hfold Hm) as [?|(o & sp & ? & ?)]; [by left|].
           right. exists o, sp. split; [by right|done]. }
      case_decide as Hsel.
      2: { destruct (IH _ Hfold Hm) as [?|(o & sp & ? & ?)]; [by left|].
           right. exists o, sp. split; [by right|done]. }
      destruct (parse_choices spec) as [temp_dict|] eqn:Hparse; simpl in Hfold.
      2: { by rewrite foldl_convert_step_None in Hfold. }
      destruct (IH _ Hfold Hm) as [Hcb|(o & sp & ? & ?)].
      + destruct (decide (field_name obj = field)) as [Heq|Hne].
        * rewrite Heq, lookup_insert_eq in Hcb. injection Hcb as ->.
          right. exists obj, spec. split; [by left|done].
        * rewrite lookup_insert_ne in Hcb by done. by left.
      + right. exists o, sp. split; [by right|done].
  Qed.

Lemma split_nonempty sep s : split sep s ≠ [].
  Proof.
    induction s as [|c s IH]; simpl; [done|].
    case_decide; [done|]. by destruct (split sep s).
  Qed.

Lemma split_single sep s v : split sep s = [v] → s = v.
  Proof.
    revert v. induction s as [|c s IH]; intros v; simpl.
    - by intros [= <-].
    - case_decide.
      + intros [= _ Hs]. by apply split_nonempty in Hs.
      + destruct (split sep s) as [|w ws] eqn:Hs; [by apply split_nonempty in Hs|].
        intros [= <- ->]. f_equal. by apply IH.
  Qed.

  (** On a pair with exactly one comma, lines 88-89 and the rule read the
      same entry. *)
Lemma pair_entry_one_comma pair k v :
    split ","%char pair = [k; v] →
    pair_entry pair = Some (strip v, strip k) ∧
    rule_entry pair = Some (strip v, strip k).
  Proof.
    intros Hsplit. split; [unfold pair_entry; by rewrite Hsplit|].
    unfold rule_entry.
    assert (split_first ","%char pair = Some (k, v)) as ->; [|done].
    revert k Hsplit. induction pair as [|c s IH]; intros k; simpl; [done|].
    case_decide.
    - intros [= <- Hs]. apply split_single in Hs. by subst.
    - destruct (split ","%char s) as [|w ws] eqn:Hs; [done|].
      intros [= <- ->]. by rewrite (IH w eq_refl).
  Qed.

End CodebookFacts.

(** C4, evaluated on a label that holds a comma. The rule reads the pair
    [1, Yes, definitely] as code [1] with label [Yes, definitely]; the
    translator keeps the second comma-delimited token only, so its mapping
    knows [Yes] and does not know [Yes, definitely]. *)
Theorem convert_codebook_keeps_second_token_only :
  rule_entry "1, Yes, definitely " = Some ("Yes, definitely", "1") ∧
  ∃ cb m,
    convert_codebook "arm"
      [FieldDescriptor "arm" "radio" "1, Yes, definitely | 0, No"] [] = Some cb ∧
    cb !! "arm" = Some m ∧
    m !! "Yes, definitely" = None ∧
    m !! "Yes" = Some "1" ∧
    m !! "No" = Some "0".
Proof.
  split; [reflexivity|].
  eexists _, _. split; [reflexivity|].
  split; [vm_compute; reflexivity|].
  repeat split; vm_compute; reflexivity.
Qed.

(** On pairs that hold one comma each the round trip works: for every
    field that the codebook translator maps, the mapping comes from the
    choices of a descriptor of that field, and when the codes of these
    choices are pairwise distinct, the label that the rule reads from a
    pair with one comma is sent to a code whose decoding through the
    inverse of the mapping is that label again. *)
Lemma one_comma_labels_round_trip tf full_codebook criteria cb field m :
  convert_codebook tf full_codebook criteria = Some cb →
  cb !! field = Some m →
  ∃ obj spec,
    obj ∈ full_codebook ∧ field_name obj = field ∧
    effective_choices obj = Some spec ∧
    (NoDup (codes_of spec) →
     ∀ pair k v,
       pair ∈ split "|"%char spec →
       split ","%char pair = [k; v] →
       ∃ label code code',
         rule_entry pair = Some (label, code) ∧
         m !! label = Some code' ∧ decode m code' = Some label).
Proof.
  intros Hcb Hm. unfold convert_codebook in Hcb.
  destruct (convert_codebook_origin _ _ _ _ _ _ _ Hcb Hm)
    as [Hempty|(obj & spec & Hin & Hname & Hspec & Hparse)].
  { by rewrite lookup_empty in Hempty. }
  exists obj, spec. repeat split; try done.
  intros Hnd pair k v Hpair Hsplit.
  destruct (pair_entry_one_comma pair k v Hsplit) as [Hentry Hrule].
  destruct (parse_choices_round_trip spec m Hparse Hnd pair _ _ Hpair Hentry)
    as (code' & Hcode' & Hdec).
  by exists (strip v), (strip k), code'.
Qed.

(** C9, evaluated on a well-formed specification with a label that holds
    a comma and pairwise distinct codes. The entry [1, Yes, definitely]
    has the label [Yes, definitely]; the mapping of the translator does
    not know this label, so it cannot be encoded, and the code [1] of the
    entry decodes to [Yes]. *)
Theorem label_with_comma_is_not_recovered :
  NoDup (codes_of "1, Yes, definitely | 0, No") ∧
  rule_entry "1, Yes, definitely " = Some ("Yes, definitely", "1") ∧
  ∃ cb m,
    convert_codebook "arm"
      [FieldDescriptor "arm" "radio" "1, Yes, definitely | 0, No"] [] = Some cb ∧
    cb !! "arm" = Some m ∧
    m !! "Yes, definitely" = None ∧
    decode m "1" = Some "Yes" ∧
    "Yes" ≠ "Yes, definitely".
Proof.
  split; [apply (bool_decide_unpack _); vm_compute; exact I|].
  split; [reflexivity|].
  eexists _, _. split; [reflexivity|].
  split; [vm_compute; reflexivity|].
  split; [vm_compute; reflexivity|].
  split; [vm_compute; reflexivity|discriminate].
Qed.

(** ** Frames and grouping *)

Section FrameFacts.

Lemma series_of_project {C} (d : C) (r : series C) cols c :
    c ∈ cols → series_of d cols (project cols r) c = r c.
  Proof.
    induction cols as [|c' cols IH]; simpl.
    - intros H. by apply elem_of_nil in H.
    - intros H. case_decide as Hc; [by subst|].
      apply IH. apply elem_of_cons in H as [?|?]; done.
  Qed.

Lemma project_series_of {C} (d : C) (r : series C) cols cl :
    cl ⊆ cols → project cl (series_of d cols (project cols r)) = project cl r.
  Proof.
    intros Hsub. unfold project at 1 3. apply list_fmap_ext.
    intros i c Hc. apply series_of_project, Hsub. by eapply list_elem_of_lookup_2.
  Qed.

Lemma project_eq_iff {C} (r1 r2 : series C) cols :
    project cols r1 = project cols r2 ↔ ∀ c, c ∈ cols → r1 c = r2 c.
  Proof.
    unfold project. induction cols as [|c cols IH]; simpl.
    - split; [|done]. intros _ c H. by apply elem_of_nil in H.
    - split.
      + intros [= Hc Hcols] c' [->|H]%elem_of_cons; [done|]. by apply IH.
      + intros H. f_equal; [apply H; by left|]. apply IH. intros c' Hc'. apply H. by right.
  Qed.

Lemma elem_of_group_keys k keys : k ∈ group_keys keys ↔ k ∈ keys.
  Proof.
    unfold group_keys. rewrite merge_sort_Permutation. apply elem_of_remove_dups.
  Qed.

Lemma NoDup_group_keys keys : NoDup (group_keys keys).
  Proof.
    unfold group_keys. rewrite merge_sort_Permutation. apply NoDup_remove_dups.
  Qed.

Lemma sum_Z_app l1 l2 : sum_Z (l1 ++ l2) = sum_Z l1 + sum_Z l2.
  Proof. unfold sum_Z. induction l1 as [|x l1 IH]; simpl; lia. Qed.

Lemma sum_Z_add {A} (g h : A → Z) (T : list A) :
    sum_Z ((λ t, g t + h t) <$> T) = sum_Z (g <$> T) + sum_Z (h <$> T).
  Proof. unfold sum_Z. induction T as [|t T IH]; csimpl; lia. Qed.

Lemma sum_Z_indicator {B} `{EqDecision B} (b : B) (T : list B) :
    NoDup T →
    sum_Z ((λ t, if decide (b = t) then 1 else 0) <$> T) = if decide (b ∈ T) then 1 else 0.
  Proof.
    unfold sum_Z. induction T as [|t T IH]; intros Hnd; csimpl.
    - first [done | case_decide as H; [by apply elem_of_nil in H|done]].
    - apply NoDup_cons in Hnd as [Hnotin Hnd]. rewrite (IH Hnd).
      destruct (decide (b = t)) as [->|Hne].
      + rewrite decide_False by done. rewrite decide_True by (by left). done.
      + destruct (decide (b ∈ T)) as [Hin|Hnin].
        * rewrite decide_True by (by right). done.
        * rewrite decide_False; [done|]. intros [?|?]%elem_of_cons; done.
  Qed.

  (** Counting by classes: the class sizes of a classification into
      distinct classes add up to the size of the list. *)
Lemma sum_counts {A B} `{EqDecision B} (f : A → B) (T : list B) (l : list A) :
    NoDup T →
    (∀ x, x ∈ l → f x ∈ T) →
    sum_Z ((λ t, Z.of_nat (length (filter (λ x, f x = t) l))) <$> T) = Z.of_nat (length l).
  Proof.
    intros Hnd. induction l as [|a l IH]; intros Hcover.
    - simpl. unfold sum_Z. clear. induction T as [|t T IHT]; csimpl; [done|].
      by rewrite IHT.
    - rewrite (list_fmap_ext _
        (λ t, Z.of_nat (length (filter (λ x, f x = t) l)) +
              (if decide (f a = t) then 1 else 0)) T).
      + rewrite sum_Z_add, IH, sum_Z_indicator by (try done; intros x Hx; apply Hcover; by right).
        rewrite decide_True by (apply Hcover; by left). simpl length. lia.
      + intros i t _. rewrite filter_cons. case_decide; simpl length; lia.
  Qed.

Lemma length_filter_fmap {A B} (f : A → B) (P : B → Prop) `{∀ y, Decision (P y)}
      (l : list A) :
    length (filter P (f <$> l)) = length (filter (λ x, P (f x)) l).
  Proof.
    induction l as [|a l IH]; [done|]. csimpl.
    rewrite !filter_cons. destruct (decide (P (f a))); simpl; by rewrite IH.
  Qed.

Lemma groupby_size_Some df g :
    groupby_size df = Some g →
    columns df ≠ [] ∧ columns g = columns df ∧
    rows g = (λ k, GroupedRow (series_of "" (columns df) k)
                     (count_of k (project (columns df) <$> rows df)))
               <$> group_keys (project (columns df) <$> rows df).
  Proof. unfold groupby_size. case_decide; [done|]. by intros [= <-]. Qed.

  (** The sizes of the groups add up to the number of rows. *)
Lemma groupby_size_total df g :
    groupby_size df = Some g →
    sum_Z (g_size <$> rows g) = Z.of_nat (length (rows df)).
  Proof.
    intros (_ & _ & ->)%groupby_size_Some.
    rewrite <- list_fmap_compose.
    set (keys := project (columns df) <$> rows df).
    etrans; [apply (sum_counts id (group_keys keys) keys)|].
    - apply NoDup_group_keys.
    - intros k Hk. by apply elem_of_group_keys.
    - unfold keys. by rewrite length_fmap.
  Qed.

  (** Every row has its group, whose size is the number of rows with the
      same cells. *)
Lemma groupby_size_group df g r :
    groupby_size df = Some g → r ∈ rows df →
    ∃ gr, gr ∈ rows g ∧
          project (columns df) (g_cells gr) = project (columns df) r ∧
          g_size gr = Z.of_nat (length (filter
                        (λ r', project (columns df) r' = project (columns df) r) (rows df))).
  Proof.
    intros (_ & _ & Hrows)%groupby_size_Some Hr.
    exists (GroupedRow (series_of "" (columns df) (project (columns df) r))
              (count_of (project (columns df) r) (project (columns df) <$> rows df))).
    split; [|split]; simpl.
    - rewrite Hrows. apply list_elem_of_fmap. eexists. split; [done|].
      apply elem_of_group_keys. apply list_elem_of_fmap. by exists r.
    - by apply project_series_of.
    - unfold count_of. by rewrite length_filter_fmap.
  Qed.

End FrameFacts.

(** C6. The frequency aggregator of [main] counts every historical row:
    the group sizes add up to the number of rows, every row lands in a
    group whose size is the number of rows landing there, and a row with a
    missing cell in a column never lands in the group of a row that
    carries a value in that column. *)
Theorem frequency_aggregator_keeps_missing_apart df grouped_df :
  frequency_aggregator df = Some grouped_df →
  sum_Z (g_size <$> rows grouped_df) = Z.of_nat (length (rows df)) ∧
  (∀ r, r ∈ rows df →
     ∃ gr, gr ∈ rows grouped_df ∧ in_group (columns df) gr r ∧
           g_size gr = Z.of_nat (length (filter (in_group (columns df) gr) (rows df))) ∧
           0 < g_size gr) ∧
  (∀ r1 r2 c s gr,
     r1 ∈ rows df → r2 ∈ rows df → c ∈ columns df →
     r1 c = None → r2 c = Some s → s ≠ "" →
     in_group (columns df) gr r1 → ¬ in_group (columns df) gr r2).
Proof.
  unfold frequency_aggregator. intros Hg. split; [|split].
  - rewrite (groupby_size_total _ _ Hg). simpl. by rewrite length_fmap.
  - intros r Hr.
    destruct (groupby_size_group (replace_missing df) grouped_df (λ c, default "" (r c)) Hg)
      as (gr & Hin & Hcells & Hsize).
    { simpl. apply list_elem_of_fmap. by exists r. }
    simpl in Hcells, Hsize. rewrite length_filter_fmap in Hsize.
    assert (Hsize' : g_size gr =
              Z.of_nat (length (filter (in_group (columns df) gr) (rows df)))).
    { rewrite Hsize. do 2 f_equal. apply list_filter_iff. intros r'.
      unfold in_group. rewrite Hcells. split; congruence. }
    exists gr. repeat split; try done.
    rewrite Hsize'. apply list_elem_of_lookup_1 in Hr as [i Hi].
    assert (r ∈ filter (in_group (columns df) gr) (rows df)) as Hf.
    { apply list_elem_of_filter. split; [done|by eapply list_elem_of_lookup_2]. }
    destruct (filter _ (rows df)); [by apply elem_of_nil in Hf|simpl; lia].
  - intros r1 r2 c s gr _ _ Hc H1 H2 Hs Hg1 Hg2.
    unfold in_group in *. rewrite Hg1 in Hg2.
    apply project_eq_iff with (c := c) in Hg2; [|done].
    rewrite H1, H2 in Hg2. simpl in Hg2. congruence.
Qed.

(** ** The index builder *)

Section IndexFacts.
Context {C : Type} `{Countable C}.
Variable randomized_field : string.
Variable less_criteria : list string.

Lemma dict_get_set_eq {V} (k : C) (v : V) d : dict_get k (dict_set k v d) = Some v.
  Proof.
    induction d as [|[k' v'] d IH]; simpl.
    - by rewrite decide_True.
    - destruct (decide (k = k')) as [->|Hne]; simpl.
      + by rewrite decide_True.
      + by rewrite decide_False.
  Qed.

Lemma dict_get_set_ne {V} (k k' : C) (v : V) d :
    k ≠ k' → dict_get k' (dict_set k v d) = dict_get k' d.
  Proof.
    intros Hne. induction d as [|[k'' v''] d IH]; simpl.
    - by rewrite decide_False.
    - destruct (decide (k = k'')) as [->|Hne']; simpl.
      + by rewrite !decide_False by done.
      + destruct (decide (k' = k'')); [done|]. apply IH.
  Qed.

Lemma index_entry_step (d : gmap (list C) (list (C * Q))) row key t :
    index_entry (index_step randomized_field less_criteria d row) key t =
    if decide (row_matches randomized_field less_criteria key t row)
    then Some (m_probability row) else index_entry d key t.
  Proof.
    unfold index_entry, index_step, row_matches.
    destruct (decide (project less_criteria (m_cells row) = key)) as [<-|Hk].
    - rewrite lookup_insert_eq. simpl.
      destruct (decide (m_cells row randomized_field = t)) as [<-|Ht].
      + rewrite decide_True by done. apply dict_get_set_eq.
      + rewrite decide_False by (intros [_ ?]; done).
        rewrite dict_get_set_ne by done.
        by destruct (d !! project less_criteria (m_cells row)).
    - rewrite lookup_insert_ne by done.
      by rewrite decide_False by (intros [? _]; done).
  Qed.

  (** Rows that speak for other pairs leave an entry alone. *)
Lemma index_entry_foldl_other (d : gmap (list C) (list (C * Q))) l key t :
    (∀ row, row ∈ l → ¬ row_matches randomized_field less_criteria key t row) →
    index_entry (foldl (index_step randomized_field less_criteria) d l) key t =
    index_entry d key t.
  Proof.
    revert d. induction l as [|row l IH]; intros d Hno; simpl; [done|].
    rewrite IH by (intros r Hr; apply Hno; by right).
    rewrite index_entry_step. rewrite decide_False; [done|]. apply Hno. by left.
  Qed.

  (** The last row that speaks for a pair decides its entry. *)
Lemma index_entry_foldl_last (d : gmap (list C) (list (C * Q))) l1 row l2 key t :
    row_matches randomized_field less_criteria key t row →
    (∀ r, r ∈ l2 → ¬ row_matches randomized_field less_criteria key t r) →
    index_entry (foldl (index_step randomized_field less_criteria) d (l1 ++ row :: l2)) key t =
    Some (m_probability row).
  Proof.
    intros Hrow Hno. rewrite foldl_app. simpl.
    rewrite index_entry_foldl_other by done.
    rewrite index_entry_step. by rewrite decide_True.
  Qed.

  (** An entry is the probability of some row that speaks for the pair. *)
Lemma index_entry_foldl_inv (d : gmap (list C) (list (C * Q))) l key t p :
    index_entry (foldl (index_step randomized_field less_criteria) d l) key t = Some p →
    (∃ row, row ∈ l ∧ row_matches randomized_field less_criteria key t row ∧
            m_probability row = p) ∨
    index_entry d key t = Some p.
  Proof.
    revert d. induction l as [|row l IH]; intros d; simpl; [by right|].
    intros Hp. apply IH in Hp as [(r & Hr & Hm & Hpr)|Hp].
    - left. exists r. split; [by right|done].
    - rewrite index_entry_step in Hp. case_decide as Hm.
      + injection Hp as <-. left. exists row. split; [by left|done].
      + by right.
  Qed.

  (** When all the rows that speak for a pair agree on the probability,
      that probability is the entry. *)
Lemma index_entry_foldl_agree (d : gmap (list C) (list (C * Q))) l key t p :
    (∃ row, row ∈ l ∧ row_matches randomized_field less_criteria key t row) →
    (∀ row, row ∈ l → row_matches randomized_field less_criteria key t row →
            m_probability row = p) →
    index_entry (foldl (index_step randomized_field less_criteria) d l) key t = Some p.
  Proof.
    revert d. induction l as [|row l IH] using rev_ind; intros d (r & Hr & Hm) Hall.
    { by apply elem_of_nil in Hr. }
    rewrite foldl_snoc, index_entry_step. case_decide as Hrow.
    - f_equal. apply Hall; [|done]. apply elem_of_app. right. by left.
    - apply IH.
      + apply elem_of_app in Hr as [Hr|Hr%list_elem_of_singleton]; [|by subst].
        by exists r.
      + intros r' Hr' Hm'. apply Hall; [|done]. apply elem_of_app. by left.
  Qed.

End IndexFacts.

(** ** The probability calculator *)

Section CalcFacts.
Variables treatment_field randomized_field : string.

Lemma filter_fmap {A B} (f : A → B) (P : B → Prop) `{∀ y, Decision (P y)} (l : list A) :
    filter P (f <$> l) = f <$> filter (λ x, P (f x)) l.
  Proof.
    induction l as [|a l IH]; [done|]. csimpl.
    rewrite !filter_cons. destruct (decide (P (f a))); csimpl; by rewrite IH.
  Qed.

Lemma filter_ext_in {A} (P Q : A → Prop) `{∀ x, Decision (P x)} `{∀ x, Decision (Q x)}
      (l : list A) :
    (∀ x, x ∈ l → P x ↔ Q x) → filter P l = filter Q l.
  Proof.
    induction l as [|a l IH]; intros Hiff; [done|].
    rewrite !filter_cons.
    pose proof (Hiff a (list_elem_of_here _ _)) as Ha.
    rewrite IH by (intros x Hx; apply Hiff; by right).
    destruct (decide (P a)), (decide (Q a)); tauto.
  Qed.

Lemma criteria_match_iff lc row row2 :
    criteria_match lc row row2 ↔ project lc (g_cells row) = project lc (g_cells row2).
  Proof.
    unfold criteria_match. rewrite forallb_True, project_eq_iff, Forall_forall.
    split; intros Hall c Hc.
    - specialize (Hall c Hc). by apply bool_decide_unpack in Hall.
    - apply bool_decide_pack. by apply Hall.
  Qed.

Lemma inner_loop_spec lc row grouped acc :
    g_size row ≠ 0 →
    inner_loop lc row grouped acc =
    Some (acc ++ (mapped_of row <$> filter (λ row2, criteria_match lc row row2) grouped))%list.
  Proof.
    intros Hsize. revert acc. induction grouped as [|row2 rest IH]; intros acc;
      cbn [inner_loop].
    - by rewrite filter_nil, fmap_nil, app_nil_r.
    - rewrite filter_cons. destruct (criteria_match lc row row2) eqn:Hm.
      + rewrite decide_True by exact I. unfold probability_row.
        rewrite decide_False by done. cbn [mbind option_bind].
        rewrite IH, fmap_cons. by rewrite <- app_assoc.
      + rewrite decide_False by (intros []). apply IH.
  Qed.

Lemma outer_loop_spec lc freq grouped acc :
    Forall (λ row, g_size row ≠ 0) freq →
    outer_loop lc freq grouped acc =
    Some (acc ++ (freq ≫= λ row,
            mapped_of row <$> filter (λ row2, criteria_match lc row row2) grouped))%list.
  Proof.
    intros Hall. revert acc. induction Hall as [|row rest Hrow Hall IH]; intros acc;
      cbn [outer_loop].
    - by rewrite app_nil_r.
    - rewrite inner_loop_spec by done. cbn [mbind option_bind].
      rewrite IH, bind_cons. by rewrite <- app_assoc.
  Qed.

Lemma elem_of_grouped_rows cols table gr :
    gr ∈ grouped_rows cols table ↔
    ∃ r, r ∈ table ∧
         gr = GroupedRow (series_of "" cols (project cols r))
                (count_of (project cols r) (project cols <$> table)).
  Proof.
    unfold grouped_rows. rewrite list_elem_of_fmap. split.
    - intros (k & -> & Hk). apply elem_of_group_keys, list_elem_of_fmap in Hk
        as (r & -> & Hr). by exists r.
    - intros (r & Hr & ->). eexists. split; [done|].
      apply elem_of_group_keys, list_elem_of_fmap. by exists r.
  Qed.

  (** The total of a stratum in [freq_df] is the number of table rows of
      that stratum. *)
Lemma stratum_total cols lc table fk :
    lc ⊆ cols →
    sum_Z (g_size <$> filter (λ gr, project lc (g_cells gr) = fk) (grouped_rows cols table))
    = count_stratum lc table fk.
  Proof.
    intros Hsub. unfold grouped_rows, count_stratum.
    set (keys := project cols <$> table).
    rewrite filter_fmap, <- list_fmap_compose. simpl.
    set (P := λ k : list string, project lc (series_of "" cols k) = fk).
    rewrite (list_fmap_ext _
      (λ t, Z.of_nat (length (filter (λ x, id x = t) (filter P keys))))
      (filter P (group_keys keys))).
    - rewrite (sum_counts id).
      + unfold keys. rewrite length_filter_fmap. do 2 f_equal.
        apply list_filter_iff. intros r. unfold P.
        by rewrite project_series_of.
      + apply NoDup_filter, NoDup_group_keys.
      + intros k [Hk Hin]%list_elem_of_filter. apply list_elem_of_filter.
        split; [done|]. by apply elem_of_group_keys.
    - intros i k Hk. apply list_elem_of_lookup_2, list_elem_of_filter in Hk as [HP _].
      simpl. unfold count_of. rewrite list_filter_filter. do 2 f_equal.
      apply list_filter_iff. intros k'. unfold id. split; [|tauto].
      intros ->. done.
  Qed.

Lemma count_stratum_pos lc table r :
    r ∈ table → 0 < count_stratum lc table (project lc r).
  Proof.
    intros Hr. unfold count_stratum.
    assert (r ∈ filter (λ r', project lc r' = project lc r) table) as Hf.
    { by apply list_elem_of_filter. }
    destruct (filter _ table); [by apply elem_of_nil in Hf|simpl; lia].
  Qed.

Lemma elem_of_freq_rows cols lc table fr :
    lc ⊆ cols →
    fr ∈ freq_rows cols lc table ↔
    ∃ r, r ∈ table ∧
         fr = GroupedRow (series_of "" lc (project lc r))
                (count_stratum lc table (project lc r)).
  Proof.
    intros Hsub. unfold freq_rows. rewrite list_elem_of_fmap. split.
    - intros (k & -> & Hk).
      apply elem_of_group_keys, list_elem_of_fmap in Hk as (gr & -> & Hgr).
      apply elem_of_grouped_rows in Hgr as (r & Hr & ->). simpl.
      exists r. split; [done|]. rewrite project_series_of by done.
      by rewrite stratum_total.
    - intros (r & Hr & ->). exists (project lc r). split.
      + by rewrite stratum_total.
      + apply elem_of_group_keys, list_elem_of_fmap.
        eexists. split; [|apply elem_of_grouped_rows; by exists r].
        simpl. by rewrite project_series_of.
  Qed.

  (** The rows of [mapped_df], one for every row of [grouped_df]. *)
Lemma elem_of_mapped_rows cols lc table mrow :
    lc ⊆ cols →
    mrow ∈ mapped_rows treatment_field randomized_field cols lc table ↔
    ∃ r, r ∈ table ∧
         mrow = assign_column randomized_field treatment_field
                  (MappedRow (series_of "" cols (project cols r))
                     (count_of (project cols r) (project cols <$> table))
                     (py_round3
                        (py_truediv (count_of (project cols r) (project cols <$> table))
                                    (count_stratum lc table (project lc r))))).
  Proof.
    intros Hsub. unfold mapped_rows. split.
    - intros (m0 & -> & Hm0)%list_elem_of_fmap.
      apply list_elem_of_bind in Hm0 as (fr & Hm0 & Hfr).
      apply list_elem_of_fmap in Hm0 as (gr & -> & Hgr).
      apply list_elem_of_filter in Hgr as [Hmatch Hgr].
      apply elem_of_grouped_rows in Hgr as (r2 & Hr2 & ->).
      apply elem_of_freq_rows in Hfr as (r1 & Hr1 & ->); [|done].
      apply criteria_match_iff in Hmatch. simpl in Hmatch.
      rewrite !project_series_of in Hmatch by done.
      exists r2. split; [done|]. unfold mapped_of. simpl. by rewrite Hmatch.
    - intros (r & Hr & ->). apply list_elem_of_fmap. eexists. split; [reflexivity|].
      apply list_elem_of_bind.
      exists (GroupedRow (series_of "" lc (project lc r))
                (count_stratum lc table (project lc r))).
      split; [|apply elem_of_freq_rows; [done|by exists r]].
      apply list_elem_of_fmap.
      exists (GroupedRow (series_of "" cols (project cols r))
                (count_of (project cols r) (project cols <$> table))).
      split; [done|]. apply list_elem_of_filter.
      split; [|apply elem_of_grouped_rows; by exists r].
      apply criteria_match_iff. simpl. by rewrite !project_series_of.
  Qed.

Lemma table_rows_nonempty df : rows df ≠ [] → table_rows df ≠ [].
  Proof. unfold table_rows. simpl. by destruct (rows df). Qed.

  (** On a table with rows, with its criteria and its treatment among its
      columns, the calculator returns the index built from [mapped_rows]. *)
Lemma probability_index_eq df lc :
    lc ≠ [] → lc ⊆ columns df → treatment_field ∈ columns df → rows df ≠ [] →
    probability_index treatment_field randomized_field df lc =
    Some (foldl (index_step randomized_field lc) ∅
            (mapped_rows treatment_field randomized_field (columns df) lc (table_rows df))).
  Proof.
    intros Hlc Hsub Htf Hrows.
    assert (Hcols : columns df ≠ []).
    { intros Hnil. rewrite Hnil in Htf. by apply elem_of_nil in Htf. }
    unfold probability_index, frequency_aggregator, groupby_size.
    cbn [columns replace_missing]. rewrite decide_False by done.
    cbn [mbind option_bind]. unfold calculate_probabilities, groupby_sum.
    cbn [columns rows]. rewrite decide_True by done.
    cbn [mbind option_bind rows].
    change (rows (replace_missing df)) with (table_rows df).
    fold (grouped_rows (columns df) (table_rows df)).
    fold (freq_rows (columns df) lc (table_rows df)).
    rewrite outer_loop_spec.
    2: { apply Forall_forall. intros fr (r & Hr & ->)%elem_of_freq_rows; [|done].
         simpl. pose proof (count_stratum_pos lc _ r Hr). lia. }
    cbn [mbind option_bind app].
    fold (mapped_rows treatment_field randomized_field (columns df) lc (table_rows df)).
    assert (Hne : mapped_rows treatment_field randomized_field (columns df) lc
                    (table_rows df) ≠ []).
    { pose proof (table_rows_nonempty df Hrows) as Ht.
      destruct (table_rows df) as [|r rest] eqn:Hr; [done|].
      intros Hnil.
      assert (Hin : ∃ m, m ∈ mapped_rows treatment_field randomized_field (columns df) lc
                               (r :: rest)).
      { eexists. apply elem_of_mapped_rows; [done|]. exists r. split; [by left|done]. }
      destruct Hin as [m Hm]. rewrite Hnil in Hm. by apply elem_of_nil in Hm. }
    rewrite decide_True.
    2: { split; [|done]. unfold mapped_rows in Hne. intros Hnil. apply Hne.
         by rewrite Hnil. }
    cbn [mbind option_bind]. unfold create_probability_dict. cbn [rows columns].
    rewrite decide_True; [done|]. right. unfold add_column. case_decide as Hrf.
    - split; [done|done].
    - split.
      + intros c Hc. apply elem_of_app. left. by apply Hsub.
      + apply elem_of_app. right. by left.
  Qed.

  (** When no column beyond the criteria and the treatment tells rows
      apart, a group of [grouped_df] is a (stratum, treatment) pair. *)
Lemma count_of_pair cols lc table r :
    lc ⊆ cols → treatment_field ∈ cols → r ∈ table →
    determined_by_key_and_treatment treatment_field cols lc table →
    count_of (project cols r) (project cols <$> table) =
    count_pair treatment_field lc table (project lc r) (r treatment_field).
  Proof.
    intros Hsub Htf Hr Hdet. unfold count_of, count_pair.
    rewrite length_filter_fmap. do 2 f_equal.
    apply filter_ext_in. intros r' Hr'. split.
    - intros Heq. split.
      + apply project_eq_iff. intros c Hc.
        by apply (proj1 (project_eq_iff r' r cols) Heq), Hsub.
      + by apply (proj1 (project_eq_iff r' r cols) Heq).
    - intros [Hk Ht]. by apply Hdet.
  Qed.

Lemma count_pair_pos lc table r :
    r ∈ table → 0 < count_pair treatment_field lc table (project lc r) (r treatment_field).
  Proof.
    intros Hr. unfold count_pair.
    assert (r ∈ filter (λ r', project lc r' = project lc r ∧
                              r' treatment_field = r treatment_field) table) as Hf.
    { by apply list_elem_of_filter. }
    destruct (filter _ table); [by apply elem_of_nil in Hf|simpl; lia].
  Qed.


Lemma columns_determine cols lc table :
    (∀ c, c ∈ cols → c ∈ lc ∨ c = treatment_field) →
    determined_by_key_and_treatment treatment_field cols lc table.
  Proof.
    intros Hcols r1 r2 _ _ Hk Ht. apply project_eq_iff. intros c Hc.
    destruct (Hcols c Hc) as [Hin| ->]; [|done].
    by apply (proj1 (project_eq_iff r1 r2 lc) Hk).
  Qed.

  (** What a row of [mapped_df] says: its stratum key, its inner key and
      its probability are those of a table row. *)
Lemma mapped_rows_sound cols lc table mrow :
    lc ⊆ cols → treatment_field ∈ cols → randomized_field ∉ lc →
    determined_by_key_and_treatment treatment_field cols lc table →
    mrow ∈ mapped_rows treatment_field randomized_field cols lc table →
    ∃ r, r ∈ table ∧
         project lc (m_cells mrow) = project lc r ∧
         m_cells mrow randomized_field = r treatment_field ∧
         m_probability mrow =
         stored_probability treatment_field lc table (project lc r) (r treatment_field).
  Proof.
    intros Hsub Htf Hrf Hdet (r & Hr & ->)%elem_of_mapped_rows; [|done].
    exists r. split; [done|]. unfold assign_column. simpl. split; [|split].
    - apply project_eq_iff. intros c Hc.
      rewrite decide_False by (intros ->; done).
      apply series_of_project. by apply Hsub.
    - rewrite decide_True by done. by apply series_of_project.
    - unfold stored_probability. by rewrite (count_of_pair cols lc table r).
  Qed.

Lemma mapped_rows_complete cols lc table r :
    lc ⊆ cols → treatment_field ∈ cols → randomized_field ∉ lc →
    r ∈ table →
    ∃ mrow, mrow ∈ mapped_rows treatment_field randomized_field cols lc table ∧
            row_matches randomized_field lc (project lc r) (r treatment_field) mrow.
  Proof.
    intros Hsub Htf Hrf Hr. eexists. split.
    - apply elem_of_mapped_rows; [done|]. by exists r.
    - unfold row_matches, assign_column. simpl. split.
      + apply project_eq_iff. intros c Hc.
        rewrite decide_False by (intros ->; done).
        apply series_of_project. by apply Hsub.
      + rewrite decide_True by done. by apply series_of_project.
  Qed.

End CalcFacts.

Section IndexOfTable.
Variables treatment_field randomized_field : string.
Variable df : frame (series (option string)).
Variable lc : list string.
Hypothesis Hlc : lc ≠ [].
Hypothesis Hsub : lc ⊆ columns df.
Hypothesis Htf : treatment_field ∈ columns df.
Hypothesis Hrf : randomized_field ∉ lc.
Hypothesis Hrows : rows df ≠ [].
Hypothesis Hdet :
    determined_by_key_and_treatment treatment_field (columns df) lc (table_rows df).

Local Abbreviation idx :=
    (foldl (index_step randomized_field lc) ∅
       (mapped_rows treatment_field randomized_field (columns df) lc (table_rows df))).

Lemma table_index_forward r :
    r ∈ table_rows df →
    index_entry idx (project lc r) (r treatment_field) =
    Some (stored_probability treatment_field lc (table_rows df)
            (project lc r) (r treatment_field)).
  Proof.
    intros Hr. apply index_entry_foldl_agree.
    - destruct (mapped_rows_complete treatment_field randomized_field
                  (columns df) lc _ r Hsub Htf Hrf Hr) as (mrow & Hin & Hm).
      by exists mrow.
    - intros mrow Hin [Hk Ht].
      destruct (mapped_rows_sound treatment_field randomized_field
                  _ _ _ _ Hsub Htf Hrf Hdet Hin) as (r' & Hr' & Hk' & Ht' & ->).
      rewrite Hk' in Hk. rewrite Ht' in Ht. by rewrite Hk, Ht.
  Qed.

Lemma table_index_backward key t p :
    index_entry idx key t = Some p →
    ∃ r, r ∈ table_rows df ∧ project lc r = key ∧ r treatment_field = t.
  Proof.
    intros Hp.
    apply index_entry_foldl_inv in Hp as [(mrow & Hin & [Hk Ht] & _)|Hp].
    - destruct (mapped_rows_sound treatment_field randomized_field
                  _ _ _ _ Hsub Htf Hrf Hdet Hin) as (r' & Hr' & Hk' & Ht' & _).
      exists r'. split; [done|]. split; congruence.
    - unfold index_entry in Hp. by rewrite lookup_empty in Hp.
  Qed.

Lemma table_index_Some :
    probability_index treatment_field randomized_field df lc = Some idx.
  Proof. by apply probability_index_eq. Qed.

End IndexOfTable.

(** ** Rounding and sums of probabilities *)

Section RoundingFacts.
Local Open Scope Q_scope.

Lemma round_half_even_close q :
    Qabs (inject_Z (round_half_even q) - q) <= 1 # 2.
  Proof.
    unfold round_half_even.
    pose proof (Qfloor_le q) as Hlo. pose proof (Qlt_floor q) as Hhi.
    rewrite inject_Z_plus in Hhi.
    apply Qabs_Qle_condition.
    destruct (q - inject_Z (Qfloor q) ?= 1 # 2) eqn:Hcmp.
    - apply Qeq_alt in Hcmp.
      destruct (Z.even (Qfloor q)); [|rewrite inject_Z_plus];
        change (inject_Z 1) with 1 in *; split; lra.
    - apply Qlt_alt in Hcmp. change (inject_Z 1) with 1 in *. split; lra.
    - apply Qgt_alt in Hcmp. rewrite inject_Z_plus.
      change (inject_Z 1) with 1 in *. split; lra.
  Qed.

Lemma py_round3_value q : py_round3 q == inject_Z (round_half_even (q * 1000)) / 1000.
  Proof.
    unfold py_round3. rewrite Qred_correct. rewrite (Qmake_Qdiv _ 1000). reflexivity.
  Qed.

Lemma inject_Z_minus (a b : Z) : inject_Z (a - b) == inject_Z a - inject_Z b.
  Proof. unfold Z.sub. rewrite inject_Z_plus, inject_Z_opp. reflexivity. Qed.

Lemma two_neq_0 : ¬ (2 == 0).
  Proof. discriminate. Qed.

Lemma pow2_pos (e : Z) : 0 < 2 ^ e.
  Proof. apply Qpower_0_lt. reflexivity. Qed.

  (** The exponent is not above the binary logarithm. *)
Lemma exponent_le q : 0 < q → 2 ^ exponent q <= q.
  Proof.
    intros Hq. unfold exponent.
    set (ln := Z.log2 (Qnum q)). set (ld := Z.log2 (Z.pos (Qden q))).
    destruct (Qle_bool (2 ^ (ln - ld)) q) eqn:Hle; [by apply Qle_bool_iff|].
    assert (0 < Qnum q)%Z as Hn by (destruct q as [n d]; unfold Qlt in Hq; simpl in *; lia).
    pose proof (Z.log2_spec _ Hn) as [Hlo _]. fold ln in Hlo.
    pose proof (Z.log2_spec (Z.pos (Qden q)) (Pos2Z.is_pos _)) as [_ Hhi]. fold ld in Hhi.
    assert (0 <= ln)%Z as Hln by apply Z.log2_nonneg.
    assert (0 <= ld)%Z as Hld by apply Z.log2_nonneg.
    replace (ln - ld - 1)%Z with (ln + - (ld + 1))%Z by lia.
    rewrite Qpower_plus by apply two_neq_0. rewrite Qpower_opp.
    change 2 with (inject_Z 2).
    rewrite <- !Zpower_Qpower by lia.
    assert (0 < 2 ^ (ld + 1))%Z as Hpos by (apply Z.pow_pos_nonneg; lia).
    assert (0 < inject_Z (2 ^ (ld + 1))) as HposQ
      by (change 0 with (inject_Z 0); by rewrite <- Zlt_Qlt).
    apply Qle_shift_div_r; [done|].
    destruct q as [n d]. unfold Qle, Qmult, inject_Z. simpl in *.
    nia.
  Qed.

  (** Rounding to binary64 moves a positive rational by at most its
      2^-53-th part. *)
Lemma binary64_close q :
    0 < q → Qabs (binary64 q - q) <= q * (1 # 9007199254740992).
  Proof.
    intros Hq. unfold binary64.
    pose proof (Qred_correct q) as Hred.
    set (r := Qred q) in *.
    assert (0 < r) as Hr by (by rewrite Hred).
    destruct r as [n d] eqn:Er. destruct n as [|n|n]; [done| |done].
    cbn [Qnum]. change (Qabs (Z.pos n # d)) with (Z.pos n # d).
    rewrite <- Er in *. clear Er n d.
    pose proof (exponent_le r Hr) as He.
    set (e := exponent r) in *.
    pose proof (round_half_even_close (r * 2 ^ (52 - e))) as Hm.
    set (m := inject_Z (round_half_even (r * 2 ^ (52 - e)))) in *.
    pose proof (pow2_pos (e - 52)) as HN.
    assert (2 ^ (52 - e) * 2 ^ (e - 52) == 1) as HPN.
    { rewrite <- Qpower_plus by apply two_neq_0.
      replace (52 - e + (e - 52))%Z with 0%Z by lia. reflexivity. }
    assert (2 ^ e == 2 ^ (e - 52) * 4503599627370496) as He52.
    { replace e with (e - 52 + 52)%Z at 1 by lia.
      rewrite Qpower_plus by apply two_neq_0. reflexivity. }
    rewrite He52 in He.
    set (P := 2 ^ (52 - e)) in *. set (N := 2 ^ (e - 52)) in *.
    assert (m * N - q == (m - r * P) * N) as ->.
    { rewrite <- Hred. transitivity (m * N - r * (P * N)); [|ring].
      rewrite HPN. ring. }
    rewrite Qabs_Qmult, (Qabs_pos N) by lra.
    rewrite <- Hred.
    apply Qle_trans with ((1 # 2) * N); [|lra].
    apply Qmult_le_compat_r; [done|lra].
  Qed.

Lemma binary64_proper q q' : q == q' → binary64 q = binary64 q'.
  Proof. intros Heq. unfold binary64. by rewrite (Qred_complete _ _ Heq). Qed.

  (** What lines 132-133 store for two positive counts: a number of
      thousandths, off the thousandfold quotient by one half and the
      rounding of the division. *)
Lemma round3_truediv_value a b :
    (0 < a)%Z → (0 < b)%Z →
    ∃ k : Z,
      py_round3 (py_truediv a b) == inject_Z k / 1000 ∧
      Qabs (inject_Z k - 1000 * (inject_Z a / inject_Z b))
        <= (1 # 2) + (1000 # 9007199254740992) * (inject_Z a / inject_Z b).
  Proof.
    intros Ha Hb. exists (round_half_even (py_truediv a b * 1000)).
    split; [apply py_round3_value|].
    assert (0 < inject_Z a / inject_Z b) as Hq.
    { apply Qlt_shift_div_l; [change 0 with (inject_Z 0); by rewrite <- Zlt_Qlt|].
      rewrite Qmult_0_l. change 0 with (inject_Z 0). by rewrite <- Zlt_Qlt. }
    unfold py_truediv.
    pose proof (binary64_close _ Hq) as Hx.
    pose proof (round_half_even_close (binary64 (inject_Z a / inject_Z b) * 1000)) as Hk.
    set (q := inject_Z a / inject_Z b) in *. set (x := binary64 q) in *.
    set (k := inject_Z (round_half_even (x * 1000))) in *.
    apply Qabs_Qle_condition in Hx as [? ?]. apply Qabs_Qle_condition in Hk as [? ?].
    apply Qabs_Qle_condition. split; lra.
  Qed.


Lemma dist_sum_cons {K} (t : K) p (d : list (K * Q)) :
    dist_sum ((t, p) :: d) = p + dist_sum d.
  Proof. reflexivity. Qed.

  (** Entries that are numbers of thousandths add up to a number of
      thousandths; its distance from the thousandfold sum of the weights
      [w] is one half per entry and the rounding of the divisions. *)
Lemma dist_sum_thousandths {K} (w : K → Q) (d : list (K * Q)) :
    (∀ t p, (t, p) ∈ d →
       ∃ k : Z, p == inject_Z k / 1000 ∧
                Qabs (inject_Z k - 1000 * w t)
                  <= (1 # 2) + (1000 # 9007199254740992) * w t) →
    ∃ S : Z,
      dist_sum d == inject_Z S / 1000 ∧
      Qabs (inject_Z S - 1000 * foldr Qplus 0 (w <$> d.*1))
        <= inject_Z (Z.of_nat (length d)) * (1 # 2)
           + (1000 # 9007199254740992) * foldr Qplus 0 (w <$> d.*1).
  Proof.
    induction d as [|[t p] d IH]; intros Hall.
    - exists 0%Z. split; [reflexivity|]. vm_compute. discriminate.
    - destruct (Hall t p (list_elem_of_here _ _)) as (k & Hp & Hk).
      destruct (IH (λ t' p' Hin, Hall t' p' (list_elem_of_further _ _ _ Hin)))
        as (S' & Hsum & HS).
      exists (k + S')%Z. rewrite dist_sum_cons.
      change (foldr Qplus 0 (w <$> ((t, p) :: d).*1))
        with (w t + foldr Qplus 0 (w <$> d.*1)).
      change (length ((t, p) :: d)) with (S (length d)).
      rewrite Nat2Z.inj_succ, <- Z.add_1_r, !inject_Z_plus.
      change (inject_Z 1) with 1.
      split; [rewrite Hp, Hsum; field|].
      apply Qabs_Qle_condition in Hk as [? ?].
      apply Qabs_Qle_condition in HS as [? ?].
      apply Qabs_Qle_condition. split; lra.
  Qed.

  (** When the weights add up to one, the whole number of thousandths
      absorbs the rounding of the divisions. *)
Lemma thousandths_near_one (n S : Z) (total : Q) :
    total == 1 →
    Qabs (inject_Z S - 1000 * total)
      <= inject_Z n * (1 # 2) + (1000 # 9007199254740992) * total →
    Qabs (inject_Z S / 1000 - 1) <= inject_Z n * (1 # 2000).
  Proof.
    intros Hone HS. rewrite Hone in HS.
    apply Qabs_Qle_condition in HS as [Hlo Hhi].
    assert (- n - 1 < 2 * S - 2000 < n + 1)%Z as [Hz1 Hz2].
    { split; rewrite Zlt_Qlt;
        rewrite ?inject_Z_plus, ?inject_Z_minus, ?inject_Z_opp, ?inject_Z_mult;
        change (inject_Z 1) with 1; change (inject_Z 2) with 2;
        change (inject_Z 2000) with 2000; lra. }
    assert (inject_Z (- n) <= inject_Z (2 * S - 2000)) as H1
      by (rewrite <- Zle_Qle; lia).
    assert (inject_Z (2 * S - 2000) <= inject_Z n) as H2
      by (rewrite <- Zle_Qle; lia).
    rewrite inject_Z_minus, inject_Z_mult in H1, H2. rewrite inject_Z_opp in H1.
    change (inject_Z 2) with 2 in *. change (inject_Z 2000) with 2000 in *.
    apply Qabs_Qle_condition. split.
    - apply (Qmult_le_r _ _ 1000); [reflexivity|]. field_simplify. lra.
    - apply (Qmult_le_r _ _ 1000); [reflexivity|]. field_simplify. lra.
  Qed.

Lemma sum_of_ratios {K} (cnt : K → Z) (c : Z) (T : list K) :
    foldr Qplus 0 ((λ t, inject_Z (cnt t) / inject_Z c) <$> T)
    == inject_Z (sum_Z (cnt <$> T)) / inject_Z c.
  Proof.
    induction T as [|t T IH].
    - unfold Qdiv. simpl. ring.
    - change (foldr Qplus 0 ((λ t, inject_Z (cnt t) / inject_Z c) <$> t :: T))
        with (inject_Z (cnt t) / inject_Z c +
              foldr Qplus 0 ((λ t, inject_Z (cnt t) / inject_Z c) <$> T)).
      rewrite IH.
      change (sum_Z (cnt <$> t :: T)) with (cnt t + sum_Z (cnt <$> T))%Z.
      rewrite inject_Z_plus. unfold Qdiv. ring.
  Qed.

End RoundingFacts.

(** ** Shape of the distributions *)

Section DistFacts.
Context {C : Type} `{Countable C}.

Lemma dict_set_keys {V} (k : C) (v : V) d :
    (dict_set k v d).*1 = if decide (k ∈ d.*1) then d.*1 else d.*1 ++ [k].
  Proof.
    induction d as [|[k' v'] d IH]; csimpl.
    - by destruct (decide (k ∈ [])) as [?%elem_of_nil|].
    - destruct (decide (k = k')) as [->|Hne]; csimpl.
      + by rewrite decide_True by (by left).
      + rewrite IH. destruct (decide (k ∈ d.*1)).
        * by rewrite decide_True by (by right).
        * rewrite decide_False; [done|]. intros [?|?]%elem_of_cons; done.
  Qed.

Lemma dict_set_ok (k : C) (v : Q) d : NoDup (d.*1) → dist_ok (dict_set k v d).
  Proof.
    intros Hnd. split.
    - rewrite dict_set_keys. case_decide; [done|].
      apply NoDup_app. split; [done|]. split; [|apply NoDup_singleton].
      intros x Hx ->%list_elem_of_singleton. done.
    - destruct d as [|[k' v'] d]; simpl; [done|]. by case_decide.
  Qed.

Lemma dict_get_Some_elem {V} (k : C) (v : V) d : dict_get k d = Some v → (k, v) ∈ d.
  Proof.
    induction d as [|[k' v'] d IH]; simpl; [done|].
    case_decide as Hk.
    - intros [= ->]. subst. by left.
    - intros Hget. right. by apply IH.
  Qed.

Lemma dict_get_elem {V} (k : C) (v : V) d :
    NoDup (d.*1) → (k, v) ∈ d → dict_get k d = Some v.
  Proof.
    induction d as [|[k' v'] d IH]; simpl.
    - intros _ Hin. by apply elem_of_nil in Hin.
    - intros [Hnotin Hnd]%NoDup_cons [Heq|Hin]%elem_of_cons.
      + injection Heq as -> ->. by rewrite decide_True.
      + rewrite decide_False; [by apply IH|].
        intros ->. apply Hnotin. apply list_elem_of_fmap. by exists (k', v).
  Qed.

  (** Every distribution of an index has distinct keys and is not empty. *)
Lemma index_dists_ok (rf : string) (lc : list string) (l : list (mapped_row C))
      (d : gmap (list C) (list (C * Q))) :
    map_Forall (λ _ dist, dist_ok dist) d →
    map_Forall (λ _ dist, dist_ok dist) (foldl (index_step rf lc) d l).
  Proof.
    revert d. induction l as [|row l IH]; intros d Hd; simpl; [done|].
    apply IH. unfold index_step. apply map_Forall_insert_2; [|done].
    apply dict_set_ok.
    destruct (d !! project lc (m_cells row)) as [dist|] eqn:Hdist; simpl.
    - by apply (Hd _ _ Hdist).
    - apply NoDup_nil_2.
  Qed.

End DistFacts.

Section SumOfTableIndex.
Variables treatment_field randomized_field : string.
Variable df : frame (series (option string)).
Variable lc : list string.
Hypothesis Hlc : lc ≠ [].
Hypothesis Hsub : lc ⊆ columns df.
Hypothesis Htf : treatment_field ∈ columns df.
Hypothesis Hrf : randomized_field ∉ lc.
Hypothesis Hrows : rows df ≠ [].
Hypothesis Hdet :
    determined_by_key_and_treatment treatment_field (columns df) lc (table_rows df).

Local Abbreviation table := (table_rows df).
Local Abbreviation idx :=
    (foldl (index_step randomized_field lc) ∅
       (mapped_rows treatment_field randomized_field (columns df) lc (table_rows df))).

Lemma table_index_entry key dist t p :
    idx !! key = Some dist → (t, p) ∈ dist →
    p = stored_probability treatment_field lc table key t ∧
    ∃ r, r ∈ table ∧ project lc r = key ∧ r treatment_field = t.
  Proof.
    intros Hdist Hin.
    pose proof (index_dists_ok randomized_field lc _ ∅ (map_Forall_empty _) _ _ Hdist)
      as [Hnd _].
    assert (Hentry : index_entry idx key t = Some p).
    { unfold index_entry. rewrite Hdist. simpl. by apply dict_get_elem. }
    destruct (table_index_backward treatment_field randomized_field df lc
                Hsub Htf Hrf Hdet key t p Hentry) as (r & Hr & <- & <-).
    split; [|by exists r].
    pose proof (table_index_forward treatment_field randomized_field df lc
                  Hsub Htf Hrf Hdet r Hr) as Hfwd.
    congruence.
  Qed.

  (** The counts of the treatments of a distribution add up to the count
      of its stratum. *)
Lemma table_index_counts key dist :
    idx !! key = Some dist →
    sum_Z ((λ t, count_pair treatment_field lc table key t) <$> dist.*1)
    = count_stratum lc table key.
  Proof.
    intros Hdist.
    pose proof (index_dists_ok randomized_field lc _ ∅ (map_Forall_empty _) _ _ Hdist)
      as [Hnd _].
    unfold count_stratum.
    rewrite <- (sum_counts (λ r : series string, r treatment_field) (dist.*1)
                  (filter (λ r, project lc r = key) table)); [|done|].
    - f_equal. apply list_fmap_ext. intros i t _. unfold count_pair.
      rewrite list_filter_filter. do 2 f_equal. apply list_filter_iff. intros r. tauto.
    - intros r [Hk Hr]%list_elem_of_filter.
      pose proof (table_index_forward treatment_field randomized_field df lc
                    Hsub Htf Hrf Hdet r Hr) as Hfwd.
      unfold index_entry in Hfwd.
      rewrite Hk, Hdist in Hfwd. simpl in Hfwd.
      apply dict_get_Some_elem in Hfwd. apply list_elem_of_fmap. by eexists (_, _).
  Qed.

Lemma table_index_sum key dist :
    idx !! key = Some dist →
    (Qabs (dist_sum dist - 1) <= inject_Z (Z.of_nat (length dist)) * (1 # 2000))%Q.
  Proof.
    intros Hdist.
    pose proof (index_dists_ok randomized_field lc _ ∅ (map_Forall_empty _) _ _ Hdist)
      as [_ Hne].
    set (c := count_stratum lc table key).
    set (cnt := λ t, count_pair treatment_field lc table key t).
    assert (Hc : 0 < c).
    { destruct dist as [|[t p] dist']; [done|].
      destruct (table_index_entry key _ t p Hdist (list_elem_of_here _ _))
        as (_ & r & Hr & <- & _).
      by apply count_stratum_pos. }
    destruct (dist_sum_thousandths (λ t, inject_Z (cnt t) / inject_Z c)%Q dist)
      as (S & Hsum & HS).
    { intros t p Hin.
      destruct (table_index_entry key dist t p Hdist Hin) as [-> (r & Hr & Hk & Ht)].
      unfold stored_probability. fold c. apply round3_truediv_value; [|done].
      change (0 < count_pair treatment_field lc table key t).
      rewrite <- Hk, <- Ht. by apply count_pair_pos. }
    rewrite Hsum. eapply thousandths_near_one; [|exact HS].
    rewrite sum_of_ratios. unfold cnt.
    rewrite (table_index_counts key dist Hdist). fold c.
    field. intros H0. unfold Qeq in H0. simpl in H0. lia.
  Qed.

End SumOfTableIndex.



(** C2, refuted as stated: one stratum with six treatments of one row each
    gets six entries of 0.167, which sum to 1.002, in the index of the
    calculator and in the index on codes that [main] builds. *)
Lemma six_arm_sum_exceeds_tolerance :
  (∃ idx dist,
     probability_index "treatment" "assigned" six_arm_table ["stratum"] = Some idx ∧
     idx !! ["A"] = Some dist ∧
     (dist_sum dist == 1002 # 1000)%Q ∧
     ¬ (Qabs (dist_sum dist - 1) <= 1 # 1000)%Q) ∧
  (∃ translation_dict idx dist,
     convert_codebook "treatment" six_arm_codebook ["stratum"; "assigned"]
       = Some translation_dict ∧
     main_index "treatment" "assigned" six_arm_main_table ["stratum"; "assigned"]
       translation_dict = Some idx ∧
     idx !! [1] = Some dist ∧
     (dist_sum dist == 1002 # 1000)%Q ∧
     ¬ (Qabs (dist_sum dist - 1) <= 1 # 1000)%Q).
Proof.
  split.
  - eexists _, _. split; [vm_compute; reflexivity|].
    split; [vm_compute; reflexivity|]. split; [reflexivity|].
    intros Hle. vm_compute in Hle. by apply Hle.
  - eexists _, _, _. split; [vm_compute; reflexivity|].
    split; [vm_compute; reflexivity|]. split; [vm_compute; reflexivity|].
    split; [reflexivity|].
    intros Hle. vm_compute in Hle. by apply Hle.
Qed.

(** C2, amended. On a historical table whose rows are told apart by their
    stratum key and treatment, for every stratum key of the index of the
    probability calculator the values of its distribution sum to 1 within
    0.0005 times the number of its treatments; in particular within 0.001
    for a stratum with at most two treatments. *)
Theorem distribution_sum_near_one treatment_field randomized_field df lc :
  lc ≠ [] → lc ⊆ columns df → treatment_field ∈ columns df →
  randomized_field ∉ lc → rows df ≠ [] →
  determined_by_key_and_treatment treatment_field (columns df) lc (table_rows df) →
  ∃ idx,
    probability_index treatment_field randomized_field df lc = Some idx ∧
    ∀ key dist, idx !! key = Some dist →
      (Qabs (dist_sum dist - 1) <= inject_Z (Z.of_nat (length dist)) * (1 # 2000))%Q ∧
      ((length dist ≤ 2)%nat → (Qabs (dist_sum dist - 1) <= 1 # 1000)%Q).
Proof.
  intros Hlc Hsub Htf Hrf Hrows Hdet.
  eexists. split; [by apply (table_index_Some treatment_field randomized_field df lc)|].
  intros key dist Hdist.
  pose proof (table_index_sum treatment_field randomized_field df lc
                Hsub Htf Hrf Hdet key dist Hdist) as Hsum.
  split; [done|]. intros Hlen.
  eapply Qle_trans; [exact Hsum|].
  assert (Hn : (inject_Z (Z.of_nat (length dist)) <= 2)%Q).
  { change 2%Q with (inject_Z 2). rewrite <- Zle_Qle. lia. }
  lra.
Qed.

(** C10. In [create_probability_dict] a later row with the stratum key and
    treatment code of an earlier row overwrites its probability: the entry
    is the probability of the last such row, not a sum. Two treatment
    labels that the codebook does not list both become the unknown
    sentinel, and the stratum is left with one entry of 0.5. *)
Theorem later_row_overwrites_probability :
  (∀ (C : Type) `(Countable C) (rf : string) (lc cols : list string)
     (l1 l2 l3 : list (mapped_row C)) (r1 r2 : mapped_row C) idx,
     project lc (m_cells r1) = project lc (m_cells r2) →
     m_cells r1 rf = m_cells r2 rf →
     (∀ r, r ∈ l3 → ¬ row_matches rf lc (project lc (m_cells r2)) (m_cells r2 rf) r) →
     create_probability_dict rf (Frame cols (l1 ++ r1 :: l2 ++ r2 :: l3)) lc = Some idx →
     index_entry idx (project lc (m_cells r1)) (m_cells r1 rf) = Some (m_probability r2)) ∧
  (∃ translation_dict idx dist,
     convert_codebook "treatment" unlisted_codebook ["stratum"; "assigned"]
       = Some translation_dict ∧
     main_index "treatment" "assigned" unlisted_table ["stratum"; "assigned"]
       translation_dict = Some idx ∧
     idx !! [1] = Some dist ∧ dist = [(-1, 1 # 2)] ∧ (dist_sum dist < 1)%Q).
Proof.
  split.
  - intros C ?? rf lc cols l1 l2 l3 r1 r2 idx Hk Ht Hlater Hidx.
    unfold create_probability_dict in Hidx. case_decide; [|done].
    injection Hidx as <-. cbn [rows]. rewrite Hk, Ht.
    replace (l1 ++ r1 :: l2 ++ r2 :: l3) with ((l1 ++ r1 :: l2) ++ r2 :: l3)
      by (by rewrite <- app_assoc).
    by apply index_entry_foldl_last.
  - eexists _, _, _. split; [vm_compute; reflexivity|].
    split; [vm_compute; reflexivity|]. split; [vm_compute; reflexivity|].
    split; [reflexivity|]. reflexivity.
Qed.

(** ** Encoding reconciliation *)

Section ReconcileFacts.
Variable translation_dict : gmap string (gmap string string).

Lemma foldl_convert_column_None cs :
    foldl (convert_column translation_dict) None cs = None.
  Proof. induction cs; simpl; done. Qed.

  (** One more column converted. *)
Lemma convert_column_step cols cs (rs : list (mapped_row string)) rs' c :
    c ∈ cols → c ∉ cs → is_Some (translation_dict !! c) →
    Forall2 (converts_to translation_dict cs) rs rs' →
    ∃ rs'', convert_column translation_dict (Some (Frame cols rs')) c
              = Some (Frame cols rs'') ∧
            Forall2 (converts_to translation_dict (cs ++ [c])) rs rs''.
  Proof.
    intros Hc Hfresh [m Hm] Hrel. unfold convert_column.
    cbn [mbind option_bind columns rows]. rewrite decide_True by done.
    assert (Hstep : ∀ r r', converts_to translation_dict cs r r' →
      converts_to translation_dict (cs ++ [c]) r
        (MappedRow (λ c', if decide (c' = c) then m_cells r' c' ≫= (m !!.)
                          else m_cells r' c') (m_size r') (m_probability r'))).
    { intros r r' (Hs & Hp & Hcells). split; [done|]. split; [done|].
      intros c'. simpl. rewrite Hcells. unfold converted_cell.
      destruct (decide (c' = c)) as [->|Hne].
      - rewrite decide_False by done.
        rewrite decide_True by (apply elem_of_app; right; by left).
        by rewrite Hm.
      - destruct (decide (c' ∈ cs)) as [Hin|Hnin].
        + by rewrite decide_True by (apply elem_of_app; by left).
        + rewrite decide_False; [done|].
          intros [?|?%list_elem_of_singleton]%elem_of_app; done. }
    destruct rs' as [|r0' rs0'].
    - exists []. split; [done|]. inversion Hrel. constructor.
    - rewrite Hm. cbn [mbind option_bind]. eexists. split; [reflexivity|].
      rewrite Forall2_fmap_r. eapply Forall2_impl; [exact Hrel|].
      intros r r' Hrr'. by apply Hstep.
  Qed.

Lemma foldl_convert_column cols cs0 cs (rs : list (mapped_row string)) rs' :
    NoDup (cs0 ++ cs) →
    (∀ c, c ∈ cs → c ∈ cols ∧ is_Some (translation_dict !! c)) →
    Forall2 (converts_to translation_dict cs0) rs rs' →
    ∃ rs'', foldl (convert_column translation_dict) (Some (Frame cols rs')) cs
              = Some (Frame cols rs'') ∧
            Forall2 (converts_to translation_dict (cs0 ++ cs)) rs rs''.
  Proof.
    revert cs0 rs'. induction cs as [|c cs IH]; intros cs0 rs' Hnd Hok Hrel.
    - exists rs'. split; [done|]. by rewrite app_nil_r.
    - destruct (Hok c (list_elem_of_here _ _)) as [Hc Hm].
      destruct (convert_column_step cols cs0 rs rs' c Hc) as (rs1 & Hstep & Hrel1);
        [|done|done|].
      { apply NoDup_app in Hnd as (_ & Hdisj & _). intros Hin.
        apply (Hdisj c Hin). by left. }
      cbn [foldl]. rewrite Hstep.
      destruct (IH (cs0 ++ [c]) rs1) as (rs2 & Hfold & Hrel2).
      + by rewrite <- app_assoc.
      + intros c' Hc'. apply Hok. by right.
      + done.
      + exists rs2. split; [done|]. by rewrite <- app_assoc in Hrel2.
  Qed.

  (** [convert_to_values] succeeds when every column to convert is a
      column of the frame with a mapping in the codebook. *)
Lemma convert_to_values_spec full_criteria (mapped_df : frame (mapped_row string)) :
    NoDup full_criteria →
    (∀ c, c ∈ full_criteria → c ∈ columns mapped_df ∧ is_Some (translation_dict !! c)) →
    ∃ converted,
      convert_to_values full_criteria mapped_df translation_dict = Some converted ∧
      columns converted = columns mapped_df ∧
      Forall2 (λ r r', m_size r' = m_size r ∧ m_probability r' = m_probability r ∧
                       ∀ c, m_cells r' c =
                            default "" (converted_cell translation_dict full_criteria r c))
              (rows mapped_df) (rows converted).
  Proof.
    intros Hnd Hok. unfold convert_to_values.
    destruct (foldl_convert_column (columns mapped_df) [] full_criteria (rows mapped_df)
                ((λ r, MappedRow (λ c, Some (m_cells r c)) (m_size r) (m_probability r))
                   <$> rows mapped_df)) as (rs'' & Hfold & Hrel); [done|done|..].
    { rewrite Forall2_fmap_r. apply Forall_Forall2_diag, Forall_forall.
      intros r _. split; [done|]. split; [done|]. intros c. simpl.
      unfold converted_cell. rewrite decide_False; [done|]. apply not_elem_of_nil. }
    rewrite Hfold. cbn [mbind option_bind columns rows]. eexists. split; [reflexivity|].
    split; [done|]. cbn [rows]. rewrite Forall2_fmap_r.
    eapply Forall2_impl; [exact Hrel|].
    intros r r' (Hs & Hp & Hcells). simpl. split; [done|]. split; [done|].
    intros c. by rewrite Hcells.
  Qed.


End ReconcileFacts.

Section CoerceFacts.
Variable translation_dict : gmap string (gmap string string).
Variable full_criteria : list string.

  (** The cell of a converted row in a converted column. *)
Lemma converted_cell_lookup (row : mapped_row string) c m :
    c ∈ full_criteria → translation_dict !! c = Some m →
    default "" (converted_cell translation_dict full_criteria row c)
    = default "" (m !! m_cells row c).
  Proof.
    intros Hc Hm. unfold converted_cell. rewrite decide_True by done.
    by rewrite Hm.
  Qed.


End CoerceFacts.


(** ** Randomizer *)

Section RandFacts.
Variable randomized_field : string.
Variable less_criteria : list string.
Variable probability_dict : gmap (list Z) (list (Z * Q)).

Local Abbreviation assign := (assign_subject randomized_field less_criteria probability_dict).
Local Abbreviation run := (run_subjects randomized_field less_criteria probability_dict).

  (** One position: the list keeps its length, the other positions their
      records, and the record at the position every field but the
      randomized one; without a draw it stays as it is. *)
Lemma assign_subject_frame rep g i rep' g' :
    assign (rep, g) i = Some (rep', g') →
    length rep' = length rep ∧
    (∀ j, j ≠ i → rep' !! j = rep !! j) ∧
    (∀ r, rep !! i = Some r →
       ∃ r', rep' !! i = Some r' ∧
             (∀ f, f ≠ randomized_field → r' !! f = r !! f) ∧
             (unmatched less_criteria probability_dict r → r' = r ∧ g' = g)).
  Proof.
    unfold assign_subject. intros Hstep.
    destruct (rep !! i) as [r|] eqn:Hr.
    2: { injection Hstep as <- <-. repeat split; try done. }
    destruct (mapM (λ key, r !! key) less_criteria) as [k|] eqn:Hk.
    2: { injection Hstep as <- <-. split; [done|]. split; [done|].
         intros r0 [= <-]. exists r. repeat split; done. }
    destruct (probability_dict !! k) as [dist|] eqn:Hdist.
    2: { injection Hstep as <- <-. split; [done|]. split; [done|].
         intros r0 [= <-]. exists r. repeat split; done. }
    cbn [random] in Hstep.
    destruct (choices (dist.*1) (dist.*2) (stream g (cursor g))) as [choice|];
      simpl in Hstep; [|done].
    injection Hstep as <- <-. split; [apply length_insert|]. split.
    - intros j Hj. by rewrite list_lookup_insert_ne.
    - intros r0 [= <-]. eexists. split.
      + apply list_lookup_insert_eq. by eapply lookup_lt_Some.
      + split.
        * intros f Hf. by rewrite lookup_insert_ne.
        * intros Hun. specialize (Hun k Hk). congruence.
  Qed.

Lemma run_None positions : run None positions = None.
  Proof. unfold run_subjects. induction positions; simpl; done. Qed.

Lemma run_cons s i positions : run (Some s) (i :: positions) = run (assign s i) positions.
  Proof. reflexivity. Qed.

  (** The whole loop over distinct positions. *)
Lemma run_subjects_frame positions rep g rep' g' :
    NoDup positions →
    run (Some (rep, g)) positions = Some (rep', g') →
    length rep' = length rep ∧
    ∀ j r, rep !! j = Some r →
      ∃ r', rep' !! j = Some r' ∧
            (j ∉ positions → r' = r) ∧
            (∀ f, f ≠ randomized_field → r' !! f = r !! f) ∧
            (unmatched less_criteria probability_dict r → r' = r).
  Proof.
    revert rep g. induction positions as [|i positions IH]; intros rep g Hnd Hrun.
    - injection Hrun as <- <-. split; [done|]. intros j r Hj. exists r. by repeat split.
    - rewrite run_cons in Hrun.
      destruct (assign (rep, g) i) as [[rep1 g1]|] eqn:Hstep;
        [|by rewrite run_None in Hrun].
      apply NoDup_cons in Hnd as [Hi Hnd].
      apply assign_subject_frame in Hstep as (Hlen1 & Hother & Hat).
      destruct (IH rep1 g1 Hnd Hrun) as (Hlen & Hrest).
      split; [congruence|]. intros j r Hj.
      destruct (decide (j = i)) as [->|Hne].
      + destruct (Hat r Hj) as (r1 & Hr1 & Hfields1 & Hun1).
        destruct (Hrest i r1 Hr1) as (r' & Hr' & Hout & Hfields & _).
        exists r'. split; [done|]. split; [|split].
        * intros Hnotin. exfalso. apply Hnotin. by left.
        * intros f Hf. rewrite <- (Hfields1 f Hf). by apply Hfields.
        * intros Hun. destruct (Hun1 Hun) as [-> _]. by apply Hout.
      + rewrite <- (Hother j Hne) in Hj.
        destruct (Hrest j r Hj) as (r' & Hr' & Hout & Hfields & Hun).
        exists r'. split; [done|]. split; [|done].
        intros Hnotin. apply Hout. intros Hin. apply Hnotin. by right.
  Qed.

  (** [randomization_step] is the loop over all positions. *)
Lemma randomization_step_frame rep g rep' g' :
    randomization_step randomized_field rep less_criteria probability_dict g
      = Some (rep', g') →
    length rep' = length rep ∧
    ∀ j r, rep !! j = Some r →
      ∃ r', rep' !! j = Some r' ∧
            (∀ f, f ≠ randomized_field → r' !! f = r !! f) ∧
            (unmatched less_criteria probability_dict r → r' = r).
  Proof.
    intros Hrun.
    destruct (run_subjects_frame (seq 0 (length rep)) rep g rep' g'
                (NoDup_seq _ _) Hrun) as (Hlen & Hall).
    split; [done|]. intros j r Hj.
    destruct (Hall j r Hj) as (r' & Hr' & _ & Hfields & Hun). by exists r'.
  Qed.

End RandFacts.

Section DrawFacts.
Variable randomized_field : string.
Variable less_criteria : list string.
Variable probability_dict : gmap (list Z) (list (Z * Q)).

Local Abbreviation assign := (assign_subject randomized_field less_criteria probability_dict).
Local Abbreviation run := (run_subjects randomized_field less_criteria probability_dict).

Lemma bisect_le a x hi : (bisect a x hi ≤ hi)%nat.
  Proof.
    revert a. induction hi as [|hi IH]; intros a.
    - destruct a; simpl; lia.
    - destruct a as [|y a]; simpl; [lia|].
      destruct (Qlt_le_dec x y); [lia|]. specialize (IH a). lia.
  Qed.

Lemma choices_is_Some (dist : list (Z * Q)) u :
    drawable dist → is_Some (choices (dist.*1) (dist.*2) u).
  Proof.
    intros (total & Hlast & Hpos). unfold choices. rewrite Hlast.
    cbn [mbind option_bind]. destruct (Qlt_le_dec 0 total) as [_|Hle]; [|lra].
    apply lookup_lt_is_Some.
    pose proof (bisect_le (accumulate (dist.*2)) (u * total)%Q (length (dist.*1) - 1)).
    destruct dist as [|e dist]; [done|]. simpl length in *. lia.
  Qed.

Lemma assign_subject_total s i :
    map_Forall (λ _ dist, drawable dist) probability_dict → is_Some (assign s i).
  Proof.
    intros Hok. destruct s as [rep g]. unfold assign_subject.
    destruct (rep !! i) as [r|]; [|by eexists].
    destruct (mapM (λ key, r !! key) less_criteria) as [k|]; [|by eexists].
    destruct (probability_dict !! k) as [dist|] eqn:Hdist; [|by eexists].
    cbn [random].
    destruct (choices_is_Some dist (stream g (cursor g)) (Hok _ _ Hdist)) as [c ->].
    by eexists.
  Qed.

Lemma run_subjects_total s positions :
    map_Forall (λ _ dist, drawable dist) probability_dict →
    is_Some (run (Some s) positions).
  Proof.
    intros Hok. revert s. induction positions as [|i positions IH]; intros s.
    - by eexists.
    - rewrite run_cons. destruct (assign_subject_total s i Hok) as [s' ->]. apply IH.
  Qed.

  (** The loop reads the random source one value per draw, in order: two
      sources that agree on as many values as there are positions give the
      same records. *)
Lemma run_subjects_stream positions rep s1 c1 s2 c2 :
    (∀ i, (i < length positions)%nat → s1 (c1 + i)%nat = s2 (c2 + i)%nat) →
    fst <$> run (Some (rep, Rng s1 c1)) positions =
    fst <$> run (Some (rep, Rng s2 c2)) positions.
  Proof.
    revert rep c1 c2. induction positions as [|i positions IH]; intros rep c1 c2 Hagree.
    - done.
    - rewrite !run_cons. unfold assign_subject.
      assert (Hrest : ∀ j, (j < length positions)%nat → s1 (c1 + j)%nat = s2 (c2 + j)%nat).
      { intros j Hj. apply Hagree. simpl. lia. }
      destruct (rep !! i) as [r|]; [|by apply IH].
      destruct (mapM (λ key, r !! key) less_criteria) as [k|]; [|by apply IH].
      destruct (probability_dict !! k) as [dist|]; [|by apply IH].
      cbn [random stream cursor].
      assert (s1 c1 = s2 c2) as ->.
      { specialize (Hagree 0%nat). rewrite !Nat.add_0_r in Hagree. apply Hagree.
        simpl. lia. }
      destruct (choices (dist.*1) (dist.*2) (s2 c2)) as [choice|]; simpl.
      + apply IH. intros j Hj. specialize (Hagree (S j)).
        rewrite !Nat.add_succ_r in Hagree. apply Hagree. simpl. lia.
      + by rewrite !run_None.
  Qed.

End DrawFacts.

(** ** The randomization step inside [main] *)

Section MainAssignFacts.
Variable randomized_field : string.

Lemma parse_record_lookup (d : gmap string string) r f :
    parse_record d = Some r → r !! f = d !! f ≫= parse_value.
  Proof.
    unfold parse_record. case_decide; [|done]. intros [= <-]. apply lookup_omap.
  Qed.

Lemma null_sentinels_lookup (r : gmap string Z) f :
    null_sentinels r !! f = (λ value, if decide (value = -1) then None else Some value) <$> r !! f.
  Proof. unfold null_sentinels. apply lookup_fmap. Qed.

End MainAssignFacts.

(** C3. [randomization_step] returns the list it was given, record by
    record at the same positions: every field other than the randomized
    field of every record is as before, and the record of a subject
    without a match is as before altogether, so that its randomized field
    keeps the value it had. The step fails on no index whose distributions
    have a positive total weight. Inside [main], where an empty field is
    read as -1 and written back as null, the randomized field of an
    unmatched subject that came in empty goes out null. *)
Theorem randomization_step_changes_only_treatment randomized_field lc idx :
  (∀ rep g rep' g',
     randomization_step randomized_field rep lc idx g = Some (rep', g') →
     length rep' = length rep ∧
     ∀ i r, rep !! i = Some r →
       ∃ r', rep' !! i = Some r' ∧
             (∀ f, f ≠ randomized_field → r' !! f = r !! f) ∧
             (unmatched lc idx r → r' = r)) ∧
  (map_Forall (λ _ dist, drawable dist) idx →
   ∀ rep g, is_Some (randomization_step randomized_field rep lc idx g)) ∧
  (∀ raw g out g',
     main_assign randomized_field raw lc idx g = Some (out, g') →
     length out = length raw ∧
     ∀ i d, raw !! i = Some d →
       ∃ r o, parse_record d = Some r ∧ out !! i = Some o ∧
              (∀ f, f ≠ randomized_field → o !! f = null_sentinels r !! f) ∧
              (unmatched lc idx r →
               o = null_sentinels r ∧
               (d !! randomized_field = Some "" → o !! randomized_field = Some None))).
Proof.
  split; [|split].
  - intros rep g rep' g'. apply randomization_step_frame.
  - intros Hok rep g. by apply run_subjects_total.
  - intros raw g out g'. unfold main_assign.
    destruct (mapM parse_record raw) as [parsed|] eqn:Hparsed; [|done].
    destruct (randomization_step randomized_field parsed lc idx g)
      as [[assigned g1]|] eqn:Hstep; [|done].
    intros [= <- <-].
    apply randomization_step_frame in Hstep as [Hlen Hall].
    apply mapM_Some_1 in Hparsed.
    split.
    { rewrite length_fmap, Hlen. symmetry. by eapply Forall2_length. }
    intros i d Hd.
    destruct (Forall2_lookup_l _ _ _ _ _ Hparsed Hd) as (r & Hr & Hpr).
    destruct (Hall i r Hr) as (r' & Hr' & Hfields & Hun).
    exists r, (null_sentinels r'). split; [done|]. split.
    { by rewrite list_lookup_fmap, Hr'. }
    split.
    + intros f Hf. rewrite !null_sentinels_lookup. by rewrite Hfields.
    + intros Hu. rewrite (Hun Hu). split; [done|]. intros Hempty.
      rewrite null_sentinels_lookup, (parse_record_lookup d r _ Hpr), Hempty. done.
Qed.

(** C5, refuted as stated: the step returns the records and nothing else,
    and a subject left without a match (empty index) comes back exactly
    as the same subject matched and drawn the value it already had, so no
    list of unassigned identifiers can be read off what the caller is
    given. *)
Lemma no_unassigned_report :
  ¬ ∃ report_of : list (gmap string Z) → list Z,
      ∀ lc idx rep g rep' g',
        randomization_step "assigned" rep lc idx g = Some (rep', g') →
        ∀ i r id, rep !! i = Some r → r !! "record_id" = Some id →
                  (id ∈ report_of rep' ↔ unmatched lc idx r).
Proof.
  intros (report_of & Hreport).
  assert (HA : randomization_step "assigned" one_subject ["site"] ∅ constant_rng
               = Some (one_subject, constant_rng)) by reflexivity.
  assert (HB : randomization_step "assigned" one_subject ["site"] site_index constant_rng
               = Some (one_subject, Rng (λ _, 0 # 1) 1)).
  { vm_compute. reflexivity. }
  destruct (Hreport _ _ _ _ _ _ HA 0%nat
              {[ "record_id" := 1; "site" := 1; "assigned" := 2 ]} 1 eq_refl eq_refl)
    as [_ HinA].
  destruct (Hreport _ _ _ _ _ _ HB 0%nat
              {[ "record_id" := 1; "site" := 1; "assigned" := 2 ]} 1 eq_refl eq_refl)
    as [HinB _].
  assert (Hun : unmatched ["site"] ∅
                  ({[ "record_id" := 1; "site" := 1; "assigned" := 2 ]} : gmap string Z)).
  { intros k _. apply lookup_empty. }
  specialize (HinB (HinA Hun) [1] eq_refl). vm_compute in HinB. discriminate.
Qed.

(** C5, amended. A pending subject whose complete stratum key is not a
    key of the index gets no assignment: its record is returned as it
    was, at its position in the returned list. The step builds no list of
    unassigned identifiers. *)
Theorem unmatched_subject_left_as_is randomized_field lc idx rep g rep' g' i r tuple_key :
  randomization_step randomized_field rep lc idx g = Some (rep', g') →
  rep !! i = Some r →
  mapM (λ key, r !! key) lc = Some tuple_key →
  idx !! tuple_key = None →
  length rep' = length rep ∧ rep' !! i = Some r.
Proof.
  intros Hstep Hr Hkey Hnone.
  apply randomization_step_frame in Hstep as [Hlen Hall]. split; [done|].
  destruct (Hall i r Hr) as (r' & Hr' & _ & Hun).
  rewrite Hr'. f_equal. apply Hun. intros k Hk. congruence.
Qed.

(** C8. Two runs of [randomization_step] over the same subjects, criteria
    and index, with random sources whose next values agree, one per
    subject, fail together or return the same records; in particular two
    runs from the same state of the random source do. *)
Theorem same_stream_same_assignments randomized_field rep lc idx g1 g2 :
  (∀ i, (i < length rep)%nat →
        stream g1 (cursor g1 + i)%nat = stream g2 (cursor g2 + i)%nat) →
  fst <$> randomization_step randomized_field rep lc idx g1 =
  fst <$> randomization_step randomized_field rep lc idx g2.
Proof.
  intros Hagree. destruct g1 as [s1 c1], g2 as [s2 c2]. simpl in Hagree.
  apply (run_subjects_stream randomized_field lc idx (seq 0 (length rep)) rep s1 c1 s2 c2).
  intros i Hi. apply Hagree. by rewrite length_seq in Hi.
Qed.

(** * Instances

    Each statement below applies one of the theorems above to sample data
    and discharges its hypotheses there. *)

Lemma join_table_determined :
  determined_by_key_and_treatment "treatment" (columns join_table) ["stratum"]
    (table_rows join_table).
Proof.
  apply columns_determine. intros c Hc. simpl in Hc.
  apply elem_of_cons in Hc as [->|Hc]; [left; by left|].
  apply elem_of_cons in Hc as [->|Hc]; [by right|]. by apply elem_of_nil in Hc.
Defined.


Lemma distribution_sum_near_one_witness :
  ["stratum"] ≠ [] ∧ ["stratum"] ⊆ columns join_table ∧
  "treatment" ∈ columns join_table ∧ ("assigned" ∉ ["stratum"]) ∧
  rows join_table ≠ [] ∧
  ∃ idx,
    probability_index "treatment" "assigned" join_table ["stratum"] = Some idx ∧
    ∀ key dist, idx !! key = Some dist →
      (Qabs (dist_sum dist - 1) <= inject_Z (Z.of_nat (length dist)) * (1 # 2000))%Q ∧
      ((length dist ≤ 2)%nat → (Qabs (dist_sum dist - 1) <= 1 # 1000)%Q).
Proof.
  assert (H1 : (["stratum"] : list string) ≠ []) by discriminate.
  assert (H2 : ["stratum"] ⊆ columns join_table).
  { intros c Hc. apply list_elem_of_singleton in Hc as ->. by left. }
  assert (H3 : "treatment" ∈ columns join_table) by (right; left).
  assert (H4 : "assigned" ∉ ["stratum"]).
  { intros Hin. apply list_elem_of_singleton in Hin. discriminate. }
  assert (H5 : rows join_table ≠ []) by discriminate.
  repeat (split; [assumption|]).
  exact (distribution_sum_near_one "treatment" "assigned" join_table
           ["stratum"] H1 H2 H3 H4 H5 join_table_determined).
Defined.

Lemma randomization_step_changes_only_treatment_witness :
  randomization_step "assigned" one_subject ["site"] site_index constant_rng
    = Some (one_subject, Rng (λ _, 0 # 1) 1) ∧
  length one_subject = length one_subject ∧
  ∀ i r, one_subject !! i = Some r →
    ∃ r', one_subject !! i = Some r' ∧
          (∀ f, f ≠ "assigned" → r' !! f = r !! f) ∧
          (unmatched ["site"] site_index r → r' = r).
Proof.
  assert (H1 : randomization_step "assigned" one_subject ["site"] site_index constant_rng
               = Some (one_subject, Rng (λ _, 0 # 1) 1)) by (vm_compute; reflexivity).
  split; [exact H1|].
  exact (proj1 (randomization_step_changes_only_treatment "assigned" ["site"] site_index)
           one_subject constant_rng one_subject (Rng (λ _, 0 # 1) 1) H1).
Defined.

Lemma unmatched_subject_left_as_is_witness :
  randomization_step "assigned" one_subject ["site"] ∅ constant_rng
    = Some (one_subject, constant_rng) ∧
  one_subject !! 0%nat = Some {[ "record_id" := 1; "site" := 1; "assigned" := 2 ]} ∧
  mapM (λ key, ({[ "record_id" := 1; "site" := 1; "assigned" := 2 ]} : gmap string Z) !! key)
       ["site"] = Some [1] ∧
  (∅ : gmap (list Z) (list (Z * Q))) !! [1] = None ∧
  length one_subject = length one_subject ∧
  one_subject !! 0%nat = Some {[ "record_id" := 1; "site" := 1; "assigned" := 2 ]}.
Proof.
  assert (H1 : randomization_step "assigned" one_subject ["site"] ∅ constant_rng
               = Some (one_subject, constant_rng)) by reflexivity.
  assert (H2 : one_subject !! 0%nat
               = Some ({[ "record_id" := 1; "site" := 1; "assigned" := 2 ]} : gmap string Z))
    by reflexivity.
  assert (H3 : mapM (λ key, ({[ "record_id" := 1; "site" := 1; "assigned" := 2 ]}
                               : gmap string Z) !! key) ["site"] = Some [1])
    by reflexivity.
  assert (H4 : (∅ : gmap (list Z) (list (Z * Q))) !! [1] = None) by reflexivity.
  repeat (split; [assumption|]).
  exact (unmatched_subject_left_as_is "assigned" ["site"] ∅ one_subject constant_rng
           one_subject constant_rng 0%nat _ [1] H1 H2 H3 H4).
Defined.

Lemma frequency_aggregator_keeps_missing_apart_witness :
  ∃ grouped_df,
    frequency_aggregator gap_table = Some grouped_df ∧
    sum_Z (g_size <$> rows grouped_df) = Z.of_nat (length (rows gap_table)) ∧
    (∀ r, r ∈ rows gap_table →
       ∃ gr, gr ∈ rows grouped_df ∧ in_group (columns gap_table) gr r ∧
             g_size gr = Z.of_nat (length (filter (in_group (columns gap_table) gr)
                                             (rows gap_table))) ∧
             0 < g_size gr) ∧
    (∀ gr,
       in_group (columns gap_table) gr (row_of [("treatment", "treatment1")]) →
       ¬ in_group (columns gap_table) gr
           (row_of [("stratum", "A"); ("treatment", "treatment1")])).
Proof.
  eexists. split; [reflexivity|].
  destruct (frequency_aggregator_keeps_missing_apart gap_table _ eq_refl)
    as (Htotal & Hgroups & Hapart).
  split; [exact Htotal|]. split; [exact Hgroups|].
  intros gr. apply (Hapart _ _ "stratum" "A").
  - right. left.
  - left.
  - left.
  - reflexivity.
  - reflexivity.
  - discriminate.
Defined.

Lemma unlisted_mapped_columns c :
  c ∈ ["stratum"; "assigned"] →
  c ∈ columns unlisted_mapped ∧ is_Some (small_translation !! c).
Proof.
  intros Hc. split; [exact Hc|].
  apply elem_of_cons in Hc as [->|Hc]; [by eexists|].
  apply list_elem_of_singleton in Hc as ->. by eexists.
Defined.


Lemma same_stream_same_assignments_witness :
  (∀ i, (i < length one_subject)%nat →
        stream constant_rng (cursor constant_rng + i)%nat
        = stream (Rng (λ _, 0 # 1) 7) (cursor (Rng (λ _, 0 # 1) 7) + i)%nat) ∧
  fst <$> randomization_step "assigned" one_subject ["site"] site_index constant_rng =
  fst <$> randomization_step "assigned" one_subject ["site"] site_index
            (Rng (λ _, 0 # 1) 7).
Proof.
  assert (H1 : ∀ i, (i < length one_subject)%nat →
                    stream constant_rng (cursor constant_rng + i)%nat
                    = stream (Rng (λ _, 0 # 1) 7) (cursor (Rng (λ _, 0 # 1) 7) + i)%nat).
  { intros i _. reflexivity. }
  split; [exact H1|].
  exact (same_stream_same_assignments "assigned" one_subject ["site"] site_index
           constant_rng (Rng (λ _, 0 # 1) 7) H1).
Defined.

Lemma later_row_overwrites_probability_witness :
  project ["stratum"] (m_cells (clash_row (1 # 4)))
    = project ["stratum"] (m_cells (clash_row (3 # 4))) ∧
  m_cells (clash_row (1 # 4)) "assigned" = m_cells (clash_row (3 # 4)) "assigned" ∧
  create_probability_dict "assigned"
    (Frame ["stratum"; "assigned"] ([] ++ clash_row (1 # 4) :: [] ++ clash_row (3 # 4) :: []))
    ["stratum"] = Some {[ [1] := [(-1, 3 # 4)] ]} ∧
  index_entry ({[ [1] := [(-1, 3 # 4)] ]} : gmap (list Z) (list (Z * Q)))
    (project ["stratum"] (m_cells (clash_row (1 # 4))))
    (m_cells (clash_row (1 # 4)) "assigned") = Some (3 # 4).
Proof.
  assert (H1 : project ["stratum"] (m_cells (clash_row (1 # 4)))
               = project ["stratum"] (m_cells (clash_row (3 # 4)))) by reflexivity.
  assert (H2 : m_cells (clash_row (1 # 4)) "assigned"
               = m_cells (clash_row (3 # 4)) "assigned") by reflexivity.
  assert (H3 : create_probability_dict "assigned"
                 (Frame ["stratum"; "assigned"]
                    ([] ++ clash_row (1 # 4) :: [] ++ clash_row (3 # 4) :: []))
                 ["stratum"] = Some {[ [1] := [(-1, 3 # 4)] ]})
    by (vm_compute; reflexivity).
  split; [exact H1|]. split; [exact H2|]. split; [exact H3|].
  refine (proj1 later_row_overwrites_probability Z _ _ "assigned" ["stratum"]
            ["stratum"; "assigned"] [] [] [] (clash_row (1 # 4)) (clash_row (3 # 4))
            _ H1 H2 _ H3).
  intros r Hr. by apply elem_of_nil in Hr.
Defined.

(** * Further properties *)

(** * Further properties *)

(** ** Codebook translator: what enters the codebook, when it fails *)

Section CodebookMore.
Variable treatment_field : string.
Variable criteria : list string.

Local Abbreviation step := (convert_step treatment_field criteria).

Lemma parse_choices_nonempty spec m : parse_choices spec = Some m → m ≠ ∅.
  Proof.
    unfold parse_choices. intros Hm.
    apply foldl_add_pair_Some in Hm as (entries & Hes & ->).
    destruct (split "|"%char spec) as [|p ps] eqn:Hs; [by apply split_nonempty in Hs|].
    destruct entries as [|[l c] es].
    { apply mapM_Some_1 in Hes. inversion Hes. }
    simpl. intros Hempty.
    destruct (foldl_insert_is_Some es (<[l:=c]> ∅) l) as [x Hx].
    { right. rewrite lookup_insert_eq. by eexists. }
    by rewrite Hempty, lookup_empty in Hx.
  Qed.

Lemma convert_step_Some cb0 obj cb :
    step (Some cb0) obj = Some cb →
    cb = cb0 ∨
    ∃ spec m, effective_choices obj = Some spec ∧ spec ≠ "" ∧
              of_interest treatment_field criteria obj ∧
              parse_choices spec = Some m ∧ cb = <[field_name obj := m]> cb0.
  Proof.
    unfold convert_step. simpl.
    destruct (effective_choices obj) as [spec|]; [|intros [= <-]; by left].
    case_decide as Hsel; [|intros [= <-]; by left].
    destruct (parse_choices spec) as [m|] eqn:Hm; simpl; [|done].
    intros [= <-]. right. exists spec, m. by destruct Hsel.
  Qed.

Lemma convert_codebook_interest fc cb0 cb field m :
    foldl step (Some cb0) fc = Some cb →
    cb !! field = Some m →
    cb0 !! field = Some m ∨
    ∃ obj spec, obj ∈ fc ∧ field_name obj = field ∧
                of_interest treatment_field criteria obj ∧
                effective_choices obj = Some spec ∧ spec ≠ "" ∧
                parse_choices spec = Some m.
  Proof.
    revert cb0. induction fc as [|obj fc IH]; intros cb0.
    - simpl. intros [= <-] ?. by left.
    - change (foldl step (Some cb0) (obj :: fc))
        with (foldl step (step (Some cb0) obj) fc).
      destruct (step (Some cb0) obj) as [cb1|] eqn:Hstep;
        [|by rewrite foldl_convert_step_None].
      intros Hfold Hm.
      destruct (IH _ Hfold Hm) as [Hcb|(o & sp & ? & ?)].
      2: { right. exists o, sp. split; [by right|done]. }
      apply convert_step_Some in Hstep as [->|(spec & m' & Hspec & Hne & Hint & Hparse & ->)];
        [by left|].
      destruct (decide (field_name obj = field)) as [Heq|Hneq].
      + rewrite Heq, lookup_insert_eq in Hcb. injection Hcb as ->.
        right. exists obj, spec. split; [by left|done].
      + rewrite lookup_insert_ne in Hcb by done. by left.
  Qed.

Lemma effective_choices_type obj spec :
    effective_choices obj = Some spec →
    field_type obj ∈ ["yesno"; "truefalse"; "dropdown"; "radio"; "checkbox"].
  Proof.
    unfold effective_choices, approved_field_types.
    destruct (decide (field_type obj = "yesno")) as [->|_]; [intros _; by left|].
    destruct (decide (field_type obj = "truefalse")) as [->|_];
      [intros _; right; by left|].
    case_decide as Happ; [|done]. intros _. by do 2 right.
  Qed.

  (** A later descriptor of another name leaves the mapping of a field as
      it is. *)
Lemma foldl_convert_step_other fc cb0 cb field :
    foldl step (Some cb0) fc = Some cb →
    (∀ o, o ∈ fc → field_name o ≠ field) →
    cb !! field = cb0 !! field.
  Proof.
    revert cb0. induction fc as [|obj fc IH]; intros cb0.
    - simpl. by intros [= <-].
    - change (foldl step (Some cb0) (obj :: fc))
        with (foldl step (step (Some cb0) obj) fc).
      destruct (step (Some cb0) obj) as [cb1|] eqn:Hstep;
        [|by rewrite foldl_convert_step_None].
      intros Hfold Hother.
      rewrite (IH _ Hfold) by (intros o Ho; apply Hother; by right).
      apply convert_step_Some in Hstep as [->|(spec & m' & _ & _ & _ & _ & ->)]; [done|].
      rewrite lookup_insert_ne; [done|]. apply Hother. by left.
  Qed.

Lemma parse_choices_None spec :
    parse_choices spec = None ↔
    ∃ pair, pair ∈ split "|"%char spec ∧ no_comma pair.
  Proof.
    unfold parse_choices. split.
    - intros Hnone.
      destruct (mapM pair_entry (split "|"%char spec)) as [entries|] eqn:Hes.
      { assert (foldl add_pair (Some ∅) (split "|"%char spec)
                = Some (foldl (λ acc e, <[e.1 := e.2]> acc) ∅ entries)) as Hs.
        { apply foldl_add_pair_Some. by exists entries. }
        congruence. }
      assert (¬ Forall (λ p, is_Some (pair_entry p)) (split "|"%char spec)) as Hnot.
      { intros Hall. apply mapM_is_Some in Hall. rewrite Hes in Hall. by destruct Hall. }
      assert (Exists (λ p, ¬ is_Some (pair_entry p)) (split "|"%char spec)) as Hex
        by (apply not_Forall_Exists; [apply _|done]).
      apply Exists_exists in Hex as (pair & Hin & Hbad).
      exists pair. split; [done|]. unfold no_comma.
      unfold pair_entry in Hbad.
      destruct (split ","%char pair) as [|k [|v rest]] eqn:Hs.
      + by apply split_nonempty in Hs.
      + apply split_single in Hs as Hk. by subst.
      + exfalso. apply Hbad. by eexists.
    - intros (pair & Hin & Hbad).
      destruct (foldl add_pair (Some ∅) (split "|"%char spec)) as [m|] eqn:Hm; [|done].
      apply foldl_add_pair_Some in Hm as (entries & Hes & _).
      apply mapM_Some_1 in Hes.
      apply list_elem_of_lookup_1 in Hin as [i Hi].
      destruct (Forall2_lookup_l _ _ _ _ _ Hes Hi) as (e & _ & He).
      unfold pair_entry in He. unfold no_comma in Hbad. by rewrite Hbad in He.
  Qed.

Lemma convert_codebook_None fc cb0 :
    foldl step (Some cb0) fc = None ↔
    ∃ obj spec pair, obj ∈ fc ∧ of_interest treatment_field criteria obj ∧
                     effective_choices obj = Some spec ∧ spec ≠ "" ∧
                     pair ∈ split "|"%char spec ∧ no_comma pair.
  Proof.
    revert cb0. induction fc as [|obj fc IH]; intros cb0.
    - simpl. split; [done|]. intros (o & ? & ? & Ho & _). by apply elem_of_nil in Ho.
    - change (foldl step (Some cb0) (obj :: fc))
        with (foldl step (step (Some cb0) obj) fc).
      destruct (step (Some cb0) obj) as [cb1|] eqn:Hstep.
      + rewrite IH. split.
        * intros (o & sp & p & Ho & ?). exists o, sp, p. split; [by right|done].
        * intros (o & sp & p & Ho & Hint & Hsp & Hne & Hp & Hbad).
          apply elem_of_cons in Ho as [->|Ho]; [|by exists o, sp, p].
          exfalso. unfold convert_step in Hstep. simpl in Hstep.
          rewrite Hsp in Hstep. rewrite decide_True in Hstep by done.
          assert (parse_choices sp = None) as Hnone
            by (apply parse_choices_None; by exists p).
          by rewrite Hnone in Hstep.
      + rewrite foldl_convert_step_None. split; [|done]. intros _.
        unfold convert_step in Hstep. simpl in Hstep.
        destruct (effective_choices obj) as [spec|] eqn:Hspec; [|done].
        case_decide as Hsel; [|done]. destruct Hsel as [Hne Hint].
        destruct (parse_choices spec) as [m|] eqn:Hm; [done|].
        apply parse_choices_None in Hm as (pair & Hin & Hbad).
        exists obj, spec, pair. split; [by left|done].
  Qed.

Lemma foldl_insert_last (entries1 entries2 : list (string * string))
      (d : gmap string string) l c :
    (∀ e, e ∈ entries2 → e.1 ≠ l) →
    foldl (λ acc e, <[e.1 := e.2]> acc) d (entries1 ++ (l, c) :: entries2) !! l = Some c.
  Proof.
    intros Hlater. rewrite foldl_app. simpl.
    generalize (foldl (λ acc e, <[e.1 := e.2]> acc) d entries1). intros d1.
    assert (∀ d2 : gmap string string, d2 !! l = Some c →
              foldl (λ acc e, <[e.1 := e.2]> acc) d2 entries2 !! l = Some c) as Hkeep.
    { induction entries2 as [|e es IH]; intros d2 Hd2; simpl; [done|].
      apply IH; [intros e' He'; apply Hlater; by right|].
      rewrite lookup_insert_ne; [done|]. apply Hlater. by left. }
    apply Hkeep. by rewrite lookup_insert_eq.
  Qed.

End CodebookMore.

(** X1. Whatever the metadata export holds, the translated codebook has
    entries only for the criteria and the treatment field; each entry
    comes from a descriptor of that name whose type is one of the five
    supported ones and whose choices string, as lines 73-76 leave it, is
    not empty; and no entry is an empty mapping. *)
Theorem codebook_holds_only_fields_of_interest tf full_codebook criteria cb field m :
  convert_codebook tf full_codebook criteria = Some cb →
  cb !! field = Some m →
  (field ∈ criteria ∨ field = tf) ∧
  m ≠ ∅ ∧
  ∃ obj spec,
    obj ∈ full_codebook ∧ field_name obj = field ∧
    field_type obj ∈ ["yesno"; "truefalse"; "dropdown"; "radio"; "checkbox"] ∧
    effective_choices obj = Some spec ∧ spec ≠ "" ∧ parse_choices spec = Some m.
Proof.
  unfold convert_codebook. intros Hcb Hm.
  destruct (convert_codebook_interest _ _ _ _ _ _ _ Hcb Hm)
    as [Hempty|(obj & spec & Hin & Hname & Hint & Hspec & Hne & Hparse)].
  { by rewrite lookup_empty in Hempty. }
  split; [unfold of_interest in Hint; by rewrite Hname in Hint|].
  split; [by eapply parse_choices_nonempty|].
  exists obj, spec. repeat split; try done. by eapply effective_choices_type.
Qed.

(** X2. The translator fails exactly when a descriptor of a criterion or
    of the treatment field, of a supported type and with a non-empty
    choices string, holds a pair without a comma; descriptors of other
    fields or of unsupported types never make it fail. *)
Theorem convert_codebook_fails_iff_pair_without_comma tf full_codebook criteria :
  convert_codebook tf full_codebook criteria = None ↔
  ∃ obj spec pair,
    obj ∈ full_codebook ∧ of_interest tf criteria obj ∧
    effective_choices obj = Some spec ∧ spec ≠ "" ∧
    pair ∈ split "|"%char spec ∧ no_comma pair.
Proof. unfold convert_codebook. apply convert_codebook_None. Qed.

(** X3. When no later descriptor bears the same name, the mapping of a
    field of interest is the one parsed from its own descriptor; for a
    yes-no field it is Yes to 1 and No to 0, for a true-false field True
    to 1 and False to 0, whatever choices string the export carries. *)
Theorem last_descriptor_decides_mapping tf criteria before obj after cb spec :
  convert_codebook tf (before ++ obj :: after) criteria = Some cb →
  (∀ o, o ∈ after → field_name o ≠ field_name obj) →
  of_interest tf criteria obj →
  effective_choices obj = Some spec → spec ≠ "" →
  cb !! field_name obj = parse_choices spec ∧
  is_Some (parse_choices spec) ∧
  (field_type obj = "yesno" →
   cb !! field_name obj = Some {[ "Yes" := "1"; "No" := "0" ]}) ∧
  (field_type obj = "truefalse" →
   cb !! field_name obj = Some {[ "True" := "1"; "False" := "0" ]}).
Proof.
  unfold convert_codebook. intros Hcb Hafter Hint Hspec Hne.
  rewrite foldl_app in Hcb.
  destruct (foldl (convert_step tf criteria) (Some ∅) before) as [cb1|] eqn:Hbefore.
  2: { by rewrite foldl_convert_step_None in Hcb. }
  change (foldl (convert_step tf criteria) (Some cb1) (obj :: after))
    with (foldl (convert_step tf criteria) (convert_step tf criteria (Some cb1) obj) after)
    in Hcb.
  destruct (convert_step tf criteria (Some cb1) obj) as [cb2|] eqn:Hstep.
  2: { by rewrite foldl_convert_step_None in Hcb. }
  unfold convert_step in Hstep. simpl in Hstep. rewrite Hspec in Hstep.
  rewrite decide_True in Hstep by done.
  destruct (parse_choices spec) as [m|] eqn:Hm; [|done].
  simpl in Hstep. injection Hstep as <-.
  assert (cb !! field_name obj = Some m) as Hlook.
  { rewrite (foldl_convert_step_other _ _ _ _ _ _ Hcb Hafter). by rewrite lookup_insert_eq. }
  split; [done|]. split; [by eexists|].
  split; intros Hty; rewrite Hlook; f_equal;
    unfold effective_choices in Hspec; rewrite Hty in Hspec; simpl in Hspec;
    injection Hspec as <-; vm_compute in Hm; injection Hm as <-; by vm_compute.
Qed.

(** X4. When a choices string gives the same label, after trimming, more
    than once, the mapping keeps the code of the last pair with that
    label. *)
Theorem repeated_label_keeps_last_code spec m before pair after label code :
  parse_choices spec = Some m →
  split "|"%char spec = before ++ pair :: after →
  pair_entry pair = Some (label, code) →
  (∀ p e, p ∈ after → pair_entry p = Some e → e.1 ≠ label) →
  m !! label = Some code.
Proof.
  unfold parse_choices. intros Hm Hsplit Hpair Hafter.
  apply foldl_add_pair_Some in Hm as (entries & Hes & ->).
  rewrite Hsplit in Hes. apply mapM_Some_1 in Hes.
  apply Forall2_app_inv_l in Hes as (es1 & es' & H1 & H2 & ->).
  apply Forall2_cons_inv_l in H2 as (e & es2 & He & H2 & ->).
  rewrite Hpair in He. injection He as <-.
  apply foldl_insert_last. intros e He.
  apply list_elem_of_lookup_1 in He as [i Hi].
  destruct (Forall2_lookup_r _ _ _ _ _ H2 Hi) as (p & Hp & Hpe).
  eapply Hafter; [by eapply list_elem_of_lookup_2|done].
Qed.

(** ** Probability calculator on an arbitrary grouped frame *)

Section CalcGeneral.
Variable lc : list string.

Lemma inner_loop_zero row grouped acc :
    g_size row = 0 →
    inner_loop lc row grouped acc =
    if decide (filter (λ row2, criteria_match lc row row2) grouped = [])
    then Some acc else None.
  Proof.
    intros Hzero. revert acc. induction grouped as [|row2 rest IH]; intros acc;
      cbn [inner_loop].
    - rewrite filter_nil. by rewrite decide_True.
    - rewrite filter_cons. destruct (criteria_match lc row row2) eqn:Hm.
      + rewrite (decide_True (P := Is_true true)) by exact I. unfold probability_row.
        rewrite (decide_True (P := g_size row = 0)) by done. cbn [mbind option_bind].
        by rewrite decide_False.
      + rewrite (decide_False (P := Is_true false)) by (intros []). apply IH.
  Qed.

Lemma inner_loop_Some row grouped acc res :
    inner_loop lc row grouped acc = Some res ↔
    (filter (λ row2, criteria_match lc row row2) grouped ≠ [] → g_size row ≠ 0) ∧
    res = acc ++ (mapped_of row <$> filter (λ row2, criteria_match lc row row2) grouped).
  Proof.
    destruct (decide (g_size row = 0)) as [Hzero|Hpos].
    - rewrite inner_loop_zero by done. case_decide as Hnil.
      + rewrite Hnil, fmap_nil, app_nil_r. split.
        * intros [= <-]. done.
        * intros [_ ->]. done.
      + split; [done|]. intros [Hne _]. by destruct (Hne Hnil).
    - rewrite inner_loop_spec by done. split.
      + intros [= <-]. done.
      + intros [_ ->]. done.
  Qed.

Lemma outer_loop_Some freq grouped acc res :
    outer_loop lc freq grouped acc = Some res ↔
    Forall (λ row, filter (λ row2, criteria_match lc row row2) grouped ≠ [] →
                   g_size row ≠ 0) freq ∧
    res = acc ++ (freq ≫= λ row,
            mapped_of row <$> filter (λ row2, criteria_match lc row row2) grouped).
  Proof.
    revert acc. induction freq as [|row rest IH]; intros acc; cbn [outer_loop].
    - rewrite app_nil_r. split.
      + intros [= <-]. by split.
      + intros [_ ->]. done.
    - rewrite bind_cons.
      destruct (inner_loop lc row grouped acc) as [m|] eqn:Hinner; cbn [mbind option_bind].
      + apply inner_loop_Some in Hinner as [Hrow ->]. rewrite IH, Forall_cons.
        rewrite <- app_assoc. tauto.
      + split; [done|]. intros [[Hrow _]%Forall_cons _].
        assert (is_Some (inner_loop lc row grouped acc)) as [? Hs]; [|congruence].
        eexists. apply inner_loop_Some. by split.
  Qed.

Lemma fmap_bind_comm {A B C} (f : B → C) (g : A → list B) (l : list A) :
    f <$> (l ≫= g) = l ≫= (λ x, f <$> g x).
  Proof.
    induction l as [|x l IH]; [done|]. by rewrite !bind_cons, fmap_app, IH.
  Qed.

Lemma filter_elem_of_nil {A B} `{EqDecision B} (f : A → B) (l : list A) :
    filter (λ x, f x ∈ ([] : list B)) l = [].
  Proof.
    induction l as [|x l IH]; [done|]. rewrite filter_cons.
    rewrite decide_False; [done|]. apply not_elem_of_nil.
  Qed.

  (** Sorting a list into the classes of distinct keys reorders it. *)
Lemma bind_filter_Permutation {A B} `{EqDecision B} (f : A → B) (T : list B)
      (l : list A) :
    NoDup T → (∀ x, x ∈ l → f x ∈ T) →
    T ≫= (λ k, filter (λ x, f x = k) l) ≡ₚ l.
  Proof.
    intros Hnd Hcover.
    assert (T ≫= (λ k, filter (λ x, f x = k) l) ≡ₚ filter (λ x, f x ∈ T) l) as ->.
    { clear Hcover. induction Hnd as [|t T Hnotin Hnd IH].
      - by rewrite filter_elem_of_nil.
      - rewrite bind_cons, IH. clear IH.
        induction l as [|x l IHl]; [done|].
        rewrite !filter_cons.
        destruct (decide (f x = t)) as [Heq|Hne].
        + rewrite (decide_True (P := f x ∈ t :: T)) by (rewrite Heq; by left).
          rewrite (decide_False (P := f x ∈ T)) by (by rewrite Heq).
          simpl. by rewrite IHl.
        + destruct (decide (f x ∈ T)) as [Hin|Hnin].
          * rewrite (decide_True (P := f x ∈ t :: T)) by (by right).
            rewrite <- Permutation_middle. by rewrite IHl.
          * rewrite (decide_False (P := f x ∈ t :: T)); [done|].
            intros [?|?]%elem_of_cons; done. }
    induction l as [|x l IH]; [done|]. rewrite filter_cons.
    rewrite decide_True by (apply Hcover; by left).
    rewrite IH; [done|]. intros y Hy. apply Hcover. by right.
  Qed.

Variable G : list grouped_row.

Local Abbreviation keys :=
    (group_keys ((λ r : grouped_row, project lc (g_cells r)) <$> G)).
Local Abbreviation freq_of :=
    (λ k : list string,
       GroupedRow (series_of "" lc k)
         (sum_Z (g_size <$> filter (λ r : grouped_row, project lc (g_cells r) = k) G))).
Local Abbreviation with_ratio :=
    (λ row2 : grouped_row,
       MappedRow (g_cells row2) (g_size row2)
         (py_round3 (py_truediv (g_size row2) (stratum_size lc G row2)))).

Lemma elem_of_keys k : k ∈ keys ↔ ∃ row2, row2 ∈ G ∧ project lc (g_cells row2) = k.
  Proof.
    rewrite elem_of_group_keys, list_elem_of_fmap. split.
    - intros (r & -> & Hr). by exists r.
    - intros (r & Hr & <-). by exists r.
  Qed.

Lemma key_series k : k ∈ keys → project lc (series_of "" lc k) = k.
  Proof.
    intros (r & _ & <-)%elem_of_keys. by apply project_series_of.
  Qed.

Lemma filter_match_key k :
    k ∈ keys →
    filter (λ row2, criteria_match lc (freq_of k) row2) G
    = filter (λ r, project lc (g_cells r) = k) G.
  Proof.
    intros Hk. apply list_filter_iff. intros row2.
    rewrite criteria_match_iff. cbn [g_cells]. rewrite key_series by done.
    split; congruence.
  Qed.

Lemma freq_size_stratum row2 :
    g_size (freq_of (project lc (g_cells row2))) = stratum_size lc G row2.
  Proof. done. Qed.

  (** The two loops, on the rows that line 127 builds: they succeed
      exactly when no stratum total is zero, and then yield one row for
      every row of the grouped frame. *)
Lemma loops_on_grouped mapped :
    outer_loop lc (freq_of <$> keys) G [] = Some mapped ↔
    Forall (λ row2, stratum_size lc G row2 ≠ 0) G ∧
    mapped = keys ≫= (λ k, with_ratio <$> filter (λ r, project lc (g_cells r) = k) G).
  Proof.
    rewrite outer_loop_Some. cbn [app].
    assert ((freq_of <$> keys) ≫=
              (λ row, mapped_of row <$> filter (λ row2, criteria_match lc row row2) G)
            = keys ≫= (λ k, with_ratio <$> filter (λ r, project lc (g_cells r) = k) G))
      as ->.
    { rewrite list_fmap_bind. apply Forall_bind_ext, Forall_forall. intros k Hk.
      cbn [compose]. rewrite filter_match_key by done.
      apply list_fmap_ext. intros i row2 Hi.
      apply list_elem_of_lookup_2, list_elem_of_filter in Hi as [Hkey _].
      unfold mapped_of. cbn [g_size]. unfold stratum_size. by rewrite Hkey. }
    split; intros [Hall ->]; (split; [|done]); apply Forall_forall.
    - intros row2 Hrow2. rewrite Forall_forall in Hall.
      rewrite <- freq_size_stratum. apply Hall.
      + apply list_elem_of_fmap. eexists. split; [done|].
        apply elem_of_keys. by exists row2.
      + rewrite filter_match_key by (apply elem_of_keys; by exists row2).
        intros Hnil.
        assert (row2 ∈ filter (λ r, project lc (g_cells r) = project lc (g_cells row2)) G)
          as Hin by (by apply list_elem_of_filter).
        rewrite Hnil in Hin. by apply elem_of_nil in Hin.
    - intros fr (k & -> & Hk)%list_elem_of_fmap _.
      pose proof Hk as (row2 & Hrow2 & <-)%elem_of_keys.
      rewrite Forall_forall in Hall. rewrite freq_size_stratum. by apply Hall.
  Qed.

Lemma loops_Permutation :
    keys ≫= (λ k, with_ratio <$> filter (λ r, project lc (g_cells r) = k) G)
    ≡ₚ with_ratio <$> G.
  Proof.
    rewrite <- fmap_bind_comm. apply fmap_Permutation.
    apply (bind_filter_Permutation (λ r : grouped_row, project lc (g_cells r))).
    - apply NoDup_group_keys.
    - intros row2 Hrow2. apply elem_of_keys. by exists row2.
  Qed.

End CalcGeneral.

Section CalcContract.
Variables treatment_field randomized_field : string.

Lemma calculate_probabilities_Some grouped_df lc mapped_df :
    calculate_probabilities treatment_field randomized_field grouped_df lc = Some mapped_df →
    lc ≠ [] ∧ lc ⊆ columns grouped_df ∧ treatment_field ∈ columns grouped_df ∧
    rows grouped_df ≠ [] ∧
    Forall (λ row2, stratum_size lc (rows grouped_df) row2 ≠ 0) (rows grouped_df) ∧
    columns mapped_df = add_column randomized_field (columns grouped_df) ∧
    rows mapped_df ≡ₚ
      mapped_from treatment_field randomized_field lc (rows grouped_df) <$> rows grouped_df.
  Proof.
    unfold calculate_probabilities, groupby_sum.
    case_decide as Hby; [|done]. destruct Hby as [Hlc Hsub].
    cbn [mbind option_bind rows].
    destruct (outer_loop lc _ (rows grouped_df) []) as [mapped|] eqn:Hloops;
      cbn [mbind option_bind]; [|done].
    case_decide as Hok; [|done]. destruct Hok as [Hne Htf]. intros [= <-].
    apply loops_on_grouped in Hloops as [Hall ->].
    pose proof (loops_Permutation lc (rows grouped_df)) as Hperm.
    repeat split; try done.
    - intros Hnil. apply Hne. rewrite Hnil in Hperm |- *. done.
    - cbn [rows]. rewrite Hperm. by rewrite <- list_fmap_compose.
  Qed.

Lemma calculate_probabilities_is_Some grouped_df lc :
    is_Some (calculate_probabilities treatment_field randomized_field grouped_df lc) ↔
    lc ≠ [] ∧ lc ⊆ columns grouped_df ∧ treatment_field ∈ columns grouped_df ∧
    rows grouped_df ≠ [] ∧
    Forall (λ row2, stratum_size lc (rows grouped_df) row2 ≠ 0) (rows grouped_df).
  Proof.
    split.
    - intros [mapped_df Hm]. apply calculate_probabilities_Some in Hm. tauto.
    - intros (Hlc & Hsub & Htf & Hrows & Hall).
      unfold calculate_probabilities, groupby_sum.
      rewrite decide_True by done. cbn [mbind option_bind rows].
      destruct (outer_loop lc _ (rows grouped_df) []) as [mapped|] eqn:Hloops.
      + cbn [mbind option_bind].
        apply loops_on_grouped in Hloops as [_ ->].
        rewrite decide_True; [by eexists|]. split; [|done].
        intros Hnil. pose proof (loops_Permutation lc (rows grouped_df)) as Hperm.
        rewrite Hnil in Hperm. apply Permutation_nil_l in Hperm.
        symmetry in Hperm. apply fmap_nil_inv in Hperm. done.
      + exfalso.
        assert (is_Some (outer_loop lc
                  ((λ k, GroupedRow (series_of "" lc k)
                           (sum_Z (g_size <$>
                                   filter (λ r, project lc (g_cells r) = k)
                                          (rows grouped_df)))) <$>
                   group_keys ((λ r, project lc (g_cells r)) <$> rows grouped_df))
                  (rows grouped_df) [])) as [? Hs]; [|congruence].
        eexists. apply loops_on_grouped. by split.
  Qed.

Lemma frequency_aggregator_Some df grouped_df :
    frequency_aggregator df = Some grouped_df →
    columns df ≠ [] ∧ columns grouped_df = columns df ∧
    rows grouped_df = grouped_rows (columns df) (table_rows df).
  Proof.
    unfold frequency_aggregator. intros (Hcols & Hc & Hr)%groupby_size_Some.
    done.
  Qed.

Lemma grouped_rows_nil cols table : grouped_rows cols table = [] ↔ table = [].
  Proof.
    split.
    - intros Hnil. destruct table as [|r rest]; [done|].
      assert (GroupedRow (series_of "" cols (project cols r))
                (count_of (project cols r) (project cols <$> r :: rest))
              ∈ grouped_rows cols (r :: rest)) as Hin.
      { apply elem_of_grouped_rows. exists r. split; [by left|done]. }
      rewrite Hnil in Hin. by apply elem_of_nil in Hin.
    - intros ->. destruct (grouped_rows cols []) as [|gr rest] eqn:Hg; [done|].
      assert (gr ∈ grouped_rows cols []) as Hin by (rewrite Hg; by left).
      apply elem_of_grouped_rows in Hin as (r & Hr & _). by apply elem_of_nil in Hr.
  Qed.

Lemma table_rows_nil df : table_rows df = [] ↔ rows df = [].
  Proof. unfold table_rows. simpl. by destruct (rows df). Qed.

Lemma stratum_size_of_table cols lc table row2 :
    lc ⊆ cols → row2 ∈ grouped_rows cols table →
    0 < stratum_size lc (grouped_rows cols table) row2.
  Proof.
    intros Hsub Hin. unfold stratum_size. rewrite stratum_total by done.
    apply elem_of_grouped_rows in Hin as (r & Hr & ->). cbn [g_cells].
    rewrite project_series_of by done. by apply count_stratum_pos.
  Qed.

Lemma probability_index_is_Some df lc :
    is_Some (probability_index treatment_field randomized_field df lc) ↔
    lc ≠ [] ∧ lc ⊆ columns df ∧ treatment_field ∈ columns df ∧ rows df ≠ [].
  Proof.
    split.
    - intros [idx Hidx]. unfold probability_index in Hidx.
      destruct (frequency_aggregator df) as [g|] eqn:Hg; [|done].
      cbn [mbind option_bind] in Hidx.
      destruct (calculate_probabilities _ _ g lc) as [m|] eqn:Hm; [|done].
      apply frequency_aggregator_Some in Hg as (_ & Hc & Hr).
      apply calculate_probabilities_Some in Hm as (Hlc & Hsub & Htf & Hrows & _).
      rewrite Hc in Hsub, Htf. repeat split; try done.
      intros Hnil. apply Hrows. rewrite Hr. apply grouped_rows_nil.
      by apply table_rows_nil.
    - intros (Hlc & Hsub & Htf & Hrows).
      rewrite probability_index_eq by done. by eexists.
  Qed.

End CalcContract.

(** X5. Whatever grouped frame it is given, the probability calculator,
    when it returns, returns one row for every row of the grouped frame
    and no other (in the order of the strata): the row keeps its cells
    and its size, its probability is the float quotient of its size by
    the sum of the sizes of the rows with the same criteria cells,
    rounded to 3 digits, and its randomized field is a copy of its
    treatment. *)
Theorem calculate_probabilities_one_row_per_group tf rf grouped_df lc mapped_df :
  calculate_probabilities tf rf grouped_df lc = Some mapped_df →
  columns mapped_df = add_column rf (columns grouped_df) ∧
  rows mapped_df ≡ₚ mapped_from tf rf lc (rows grouped_df) <$> rows grouped_df ∧
  length (rows mapped_df) = length (rows grouped_df).
Proof.
  intros (_ & _ & _ & _ & _ & Hcols & Hrows)%calculate_probabilities_Some.
  split; [done|]. split; [done|]. by rewrite Hrows, length_fmap.
Qed.

(** X6. The probability calculator returns exactly when the criteria list
    is not empty and names columns of the grouped frame, the treatment
    field is a column, the frame has a row, and no stratum has sizes
    that add up to zero; in every other case the run ends. *)
Theorem calculate_probabilities_succeeds_iff tf rf grouped_df lc :
  is_Some (calculate_probabilities tf rf grouped_df lc) ↔
  lc ≠ [] ∧ lc ⊆ columns grouped_df ∧ tf ∈ columns grouped_df ∧
  rows grouped_df ≠ [] ∧
  Forall (λ row2, stratum_size lc (rows grouped_df) row2 ≠ 0) (rows grouped_df).
Proof. apply calculate_probabilities_is_Some. Qed.

(** X7. From a historical table, lines 243-244, the calculator and the
    index builder yield an index exactly when the criteria list is not
    empty, the criteria and the treatment field are columns of the table
    and the table has a row: an empty table ends the run, and a division
    by zero cannot happen on the counts of a table. *)
Theorem probability_index_succeeds_iff tf rf df lc :
  is_Some (probability_index tf rf df lc) ↔
  lc ≠ [] ∧ lc ⊆ columns df ∧ tf ∈ columns df ∧ rows df ≠ [].
Proof. apply probability_index_is_Some. Qed.

(** ** Index builder: what the index holds *)

Section IndexMore.
Context {C : Type} `{Countable C}.
Variable randomized_field : string.
Variable less_criteria : list string.

Local Abbreviation build :=
    (foldl (index_step (C := C) randomized_field less_criteria)).

Lemma dict_get_is_Some {V} (k : C) (d : list (C * V)) :
    is_Some (dict_get k d) ↔ k ∈ d.*1.
  Proof.
    induction d as [|[k' v'] d IH]; simpl.
    - split; [by intros [? ?]|]. intros Hin. by apply elem_of_nil in Hin.
    - case_decide as Hk.
      + subst. split; [intros _; by left|by eexists].
      + rewrite IH. split; [by right|].
        intros [?|?]%elem_of_cons; done.
  Qed.

Lemma index_entry_foldl_is_Some (d : gmap (list C) (list (C * Q))) l key t :
    (∃ row, row ∈ l ∧ row_matches randomized_field less_criteria key t row) ∨
    is_Some (index_entry d key t) →
    is_Some (index_entry (build d l) key t).
  Proof.
    revert d. induction l as [|row l IH]; intros d.
    - intros [(row & Hin & _)|Hd]; [by apply elem_of_nil in Hin|done].
    - intros Hcase. cbn [foldl]. apply IH.
      destruct Hcase as [(row' & Hin & Hm)|Hd].
      + apply elem_of_cons in Hin as [->|Hin]; [|left; by exists row'].
        right. rewrite index_entry_step. rewrite decide_True by done. by eexists.
      + right. rewrite index_entry_step. case_decide; [by eexists|done].
  Qed.

  (** The keys of the index are the stratum keys of the rows; the keys
      of a distribution are the inner keys of the rows of its stratum. *)
Lemma index_keys (l : list (mapped_row C)) :
    (∀ key, is_Some (build ∅ l !! key) ↔
            ∃ row, row ∈ l ∧ project less_criteria (m_cells row) = key) ∧
    (∀ key dist, build ∅ l !! key = Some dist →
       dist_ok dist ∧
       (∀ t, t ∈ dist.*1 ↔
             ∃ row, row ∈ l ∧ row_matches randomized_field less_criteria key t row) ∧
       (∀ t p, (t, p) ∈ dist →
          ∃ row, row ∈ l ∧ row_matches randomized_field less_criteria key t row ∧
                 m_probability row = p)).
  Proof.
    assert (Hdists : ∀ key dist, build ∅ l !! key = Some dist →
       dist_ok dist ∧
       (∀ t, t ∈ dist.*1 ↔
             ∃ row, row ∈ l ∧ row_matches randomized_field less_criteria key t row) ∧
       (∀ t p, (t, p) ∈ dist →
          ∃ row, row ∈ l ∧ row_matches randomized_field less_criteria key t row ∧
                 m_probability row = p)).
    { intros key dist Hdist.
      pose proof (index_dists_ok randomized_field less_criteria l ∅
                    (map_Forall_empty _) _ _ Hdist) as Hok.
      split; [done|]. split.
      - intros t. rewrite <- dict_get_is_Some. split.
        + intros [p Hp].
          assert (index_entry (build ∅ l) key t = Some p) as Hentry.
          { unfold index_entry. by rewrite Hdist. }
          apply index_entry_foldl_inv in Hentry as [(row & Hin & Hm & _)|Hempty].
          * by exists row.
          * unfold index_entry in Hempty. by rewrite lookup_empty in Hempty.
        + intros Hrow.
          destruct (index_entry_foldl_is_Some ∅ l key t (or_introl Hrow)) as [p Hp].
          unfold index_entry in Hp. rewrite Hdist in Hp. by exists p.
      - intros t p Hin. destruct Hok as [Hnd _].
        assert (index_entry (build ∅ l) key t = Some p) as Hentry.
        { unfold index_entry. rewrite Hdist. simpl. by apply dict_get_elem. }
        apply index_entry_foldl_inv in Hentry as [(row & Hrow & Hm & Hp)|Hempty].
        + by exists row.
        + unfold index_entry in Hempty. by rewrite lookup_empty in Hempty. }
    split; [|done]. intros key. split.
    - intros [dist Hdist]. destruct (Hdists key dist Hdist) as ([_ Hne] & Hkeys & _).
      destruct dist as [|[t p] dist']; [done|].
      destruct (proj1 (Hkeys t)) as (row & Hin & [Hk _]); [by left|].
      by exists row.
    - intros (row & Hin & Hk).
      destruct (index_entry_foldl_is_Some ∅ l key (m_cells row randomized_field))
        as [p Hp].
      { left. by exists row. }
      unfold index_entry in Hp.
      destruct (build ∅ l !! key) as [dist|]; [by eexists|done].
  Qed.

Lemma create_probability_dict_Some cols (l : list (mapped_row C)) idx :
    create_probability_dict randomized_field (Frame cols l) less_criteria = Some idx →
    idx = build ∅ l.
  Proof.
    unfold create_probability_dict. case_decide; [|done]. by intros [= <-].
  Qed.

End IndexMore.

(** X8. Whatever frame it is given, the index that
    [create_probability_dict] returns holds a key exactly for the
    criteria tuples of the rows; every distribution is non-empty, lists
    each treatment once, lists exactly the treatments of the rows of its
    stratum, and every probability in it is the probability of such a
    row. *)
Theorem probability_dict_reflects_rows (C : Type) `(Countable C) (rf : string)
    (mapped_df : frame (mapped_row C)) (lc : list string) idx :
  create_probability_dict rf mapped_df lc = Some idx →
  (∀ key, is_Some (idx !! key) ↔
          ∃ row, row ∈ rows mapped_df ∧ project lc (m_cells row) = key) ∧
  (∀ key dist, idx !! key = Some dist →
     NoDup (dist.*1) ∧ dist ≠ [] ∧
     (∀ t, t ∈ dist.*1 ↔ ∃ row, row ∈ rows mapped_df ∧ row_matches rf lc key t row) ∧
     (∀ t p, (t, p) ∈ dist →
        ∃ row, row ∈ rows mapped_df ∧ row_matches rf lc key t row ∧
               m_probability row = p)).
Proof.
  destruct mapped_df as [cols l]. intros ->%create_probability_dict_Some.
  cbn [rows]. destruct (index_keys rf lc l) as [Hkeys Hdists].
  split; [done|]. intros key dist Hdist.
  destruct (Hdists key dist Hdist) as ([Hnd Hne] & Ht & Hp). done.
Qed.

Section IndexOfTableMore.
Variables treatment_field randomized_field : string.

Lemma mapped_rows_key cols lc table mrow :
    lc ⊆ cols → treatment_field ∈ cols → randomized_field ∉ lc →
    mrow ∈ mapped_rows treatment_field randomized_field cols lc table →
    ∃ r, r ∈ table ∧
         project lc (m_cells mrow) = project lc r ∧
         m_cells mrow randomized_field = r treatment_field.
  Proof.
    intros Hsub Htf Hrf (r & Hr & ->)%elem_of_mapped_rows; [|done].
    exists r. split; [done|]. unfold assign_column. simpl. split.
    - apply project_eq_iff. intros c Hc.
      rewrite decide_False by (intros ->; done).
      apply series_of_project. by apply Hsub.
    - rewrite decide_True by done. by apply series_of_project.
  Qed.

Lemma length_filter_impl {A} (P Q : A → Prop) `{∀ x, Decision (P x)}
      `{∀ x, Decision (Q x)} (l : list A) :
    (∀ x, P x → Q x) → (length (filter P l) ≤ length (filter Q l))%nat.
  Proof.
    intros Himpl. induction l as [|x l IH]; [done|].
    rewrite !filter_cons. destruct (decide (P x)) as [HP|HP].
    - rewrite decide_True by (by apply Himpl). simpl. lia.
    - destruct (decide (Q x)); simpl; lia.
  Qed.

Lemma count_of_bounds cols lc table r :
    lc ⊆ cols → r ∈ table →
    0 < count_of (project cols r) (project cols <$> table)
      ≤ count_stratum lc table (project lc r).
  Proof.
    intros Hsub Hr. unfold count_of, count_stratum. rewrite length_filter_fmap. split.
    - assert (r ∈ filter (λ r', project cols r' = project cols r) table) as Hin
        by (by apply list_elem_of_filter).
      destruct (filter _ table); [by apply elem_of_nil in Hin|simpl; lia].
    - apply inj_le. apply length_filter_impl. intros r' Heq.
      apply project_eq_iff. intros c Hc.
      by apply (proj1 (project_eq_iff r' r cols) Heq), Hsub.
  Qed.

Lemma ratio_unit (a b : Z) :
    0 < a ≤ b → (0 < inject_Z a / inject_Z b)%Q ∧ (inject_Z a / inject_Z b <= 1)%Q.
  Proof.
    intros [Ha Hab].
    assert (0 < inject_Z b)%Q as Hb by (unfold Qlt; simpl; lia).
    split.
    - apply Qlt_shift_div_l; [done|]. unfold Qlt. simpl. lia.
    - apply Qle_shift_div_r; [done|]. unfold Qle. simpl. lia.
  Qed.

  (** A count over a count that is not smaller is stored as a number of
      thousandths between 0 and 1000. *)
Lemma round3_truediv_unit (a b : Z) :
    0 < a ≤ b → 0 ≤ round_half_even (py_truediv a b * 1000) ≤ 1000.
  Proof.
    intros Hab. destruct (ratio_unit a b Hab) as [H0 H1]. unfold py_truediv.
    pose proof (binary64_close _ H0) as Hx.
    pose proof (round_half_even_close (binary64 (inject_Z a / inject_Z b) * 1000))
      as Hclose.
    apply Qabs_Qle_condition in Hx as [Hx0 Hx1].
    apply Qabs_Qle_condition in Hclose as [Hlo Hhi].
    set (q := (inject_Z a / inject_Z b)%Q) in *. set (x := binary64 q) in *.
    set (n := round_half_even (x * 1000)) in *.
    assert (-(1 # 2) <= inject_Z n)%Q as Hn0 by lra.
    assert (inject_Z n <= 1000 + (3 # 4))%Q as Hn1 by lra.
    unfold Qle in Hn0, Hn1. simpl in Hn0, Hn1. lia.
  Qed.

  (** A count over itself is stored as 1. *)
Lemma round3_truediv_same (a : Z) : 0 < a → py_round3 (py_truediv a a) = 1%Q.
  Proof.
    intros Ha. unfold py_truediv.
    rewrite (binary64_proper (inject_Z a / inject_Z a) 1); [by vm_compute|].
    field. intros Hz. unfold Qeq in Hz. simpl in Hz. lia.
  Qed.

Lemma NoDup_all_equal {A} (x : A) (l : list A) :
    NoDup l → l ≠ [] → (∀ y, y ∈ l → y = x) → l = [x].
  Proof.
    intros Hnd Hne Hall. destruct l as [|y l]; [done|].
    assert (y = x) as -> by (apply Hall; by left).
    destruct l as [|z l]; [done|].
    assert (z = x) as -> by (apply Hall; right; by left).
    apply NoDup_cons in Hnd as [Hnotin _]. exfalso. apply Hnotin. by left.
  Qed.

Variable df : frame (series (option string)).
Variable lc : list string.

Local Abbreviation table_index :=
    (foldl (index_step randomized_field lc) ∅
       (mapped_rows treatment_field randomized_field (columns df) lc (table_rows df))).

Lemma table_index_keys :
    lc ⊆ columns df → treatment_field ∈ columns df → randomized_field ∉ lc →
    (∀ key, is_Some (table_index !! key) ↔
            ∃ r, r ∈ table_rows df ∧ project lc r = key) ∧
    (∀ key dist t, table_index !! key = Some dist →
       (t ∈ dist.*1 ↔
        ∃ r, r ∈ table_rows df ∧ project lc r = key ∧ r treatment_field = t)).
  Proof.
    intros Hsub Htf Hrf.
    destruct (index_keys randomized_field lc
                (mapped_rows treatment_field randomized_field (columns df) lc
                   (table_rows df))) as [Hkeys Hdists].
    split.
    - intros key. rewrite Hkeys. split.
      + intros (mrow & Hin & Hk).
        destruct (mapped_rows_key _ _ _ _ Hsub Htf Hrf Hin) as (r & Hr & Hk' & _).
        exists r. split; [done|]. congruence.
      + intros (r & Hr & Hk).
        destruct (mapped_rows_complete treatment_field randomized_field _ _ _ r
                    Hsub Htf Hrf Hr) as (mrow & Hin & [Hk' _]).
        exists mrow. split; [done|]. congruence.
    - intros key dist t Hdist. destruct (Hdists key dist Hdist) as (_ & Ht & _).
      rewrite Ht. split.
      + intros (mrow & Hin & [Hk Hi]).
        destruct (mapped_rows_key _ _ _ _ Hsub Htf Hrf Hin) as (r & Hr & Hk' & Hi').
        exists r. split; [done|]. split; congruence.
      + intros (r & Hr & Hk & Hi).
        destruct (mapped_rows_complete treatment_field randomized_field _ _ _ r
                    Hsub Htf Hrf Hr) as (mrow & Hin & [Hk' Hi'']).
        exists mrow. split; [done|]. split; congruence.
  Qed.

Lemma table_index_thousandths key dist t p :
    lc ⊆ columns df →
    table_index !! key = Some dist → (t, p) ∈ dist →
    ∃ n : Z, 0 ≤ n ≤ 1000 ∧ p = Qred (n # 1000).
  Proof.
    intros Hsub Hdist Hin.
    destruct (index_keys randomized_field lc
                (mapped_rows treatment_field randomized_field (columns df) lc
                   (table_rows df))) as [_ Hdists].
    destruct (Hdists key dist Hdist) as (_ & _ & Hp).
    destruct (Hp t p Hin) as (mrow & Hmrow & _ & <-).
    apply elem_of_mapped_rows in Hmrow as (r & Hr & ->); [|done].
    cbn [assign_column m_probability].
    eexists. split; [|reflexivity].
    apply round3_truediv_unit. by apply count_of_bounds.
  Qed.

End IndexOfTableMore.

(** X9. The index computed from a table holds a stratum key exactly for
    the criteria tuples that occur in the table, and the distribution of
    a stratum lists exactly the treatments that occur in it: a treatment
    never seen in a stratum is absent from its distribution, not present
    with probability 0. *)
Theorem index_holds_exactly_what_was_observed tf rf df lc idx :
  rf ∉ lc →
  probability_index tf rf df lc = Some idx →
  (∀ key, is_Some (idx !! key) ↔ ∃ r, r ∈ table_rows df ∧ project lc r = key) ∧
  (∀ key dist t, idx !! key = Some dist →
     (t ∈ dist.*1 ↔ ∃ r, r ∈ table_rows df ∧ project lc r = key ∧ r tf = t)).
Proof.
  intros Hrf Hidx.
  assert (is_Some (probability_index tf rf df lc)) as Hsome by (by eexists).
  apply probability_index_is_Some in Hsome as (Hlc & Hsub & Htf & Hrows).
  rewrite probability_index_eq in Hidx by done. injection Hidx as <-.
  by apply table_index_keys.
Qed.

(** X10. Every probability of the index computed from a table is a whole
    number of thousandths between 0 and 1. *)
Theorem index_probabilities_are_thousandths tf rf df lc idx key dist t p :
  probability_index tf rf df lc = Some idx →
  idx !! key = Some dist → (t, p) ∈ dist →
  ∃ n : Z, 0 ≤ n ≤ 1000 ∧ p = Qred (n # 1000).
Proof.
  intros Hidx Hdist Hin.
  assert (is_Some (probability_index tf rf df lc)) as Hsome by (by eexists).
  apply probability_index_is_Some in Hsome as (Hlc & Hsub & Htf & Hrows).
  rewrite probability_index_eq in Hidx by done. injection Hidx as <-.
  by eapply table_index_thousandths.
Qed.

(** X11. A stratum in which the table shows one treatment only gets that
    treatment with probability 1, and nothing else. *)
Theorem sole_treatment_is_certain tf rf df lc key t :
  lc ≠ [] → lc ⊆ columns df → tf ∈ columns df → rf ∉ lc →
  determined_by_key_and_treatment tf (columns df) lc (table_rows df) →
  (∃ r, r ∈ table_rows df ∧ project lc r = key) →
  (∀ r, r ∈ table_rows df → project lc r = key → r tf = t) →
  ∃ idx, probability_index tf rf df lc = Some idx ∧ idx !! key = Some [(t, 1%Q)].
Proof.
  intros Hlc Hsub Htf Hrf Hdet (r0 & Hr0 & Hk0) Hsole.
  assert (rows df ≠ []) as Hrows.
  { intros Hnil. apply table_rows_nil in Hnil. rewrite Hnil in Hr0.
    by apply elem_of_nil in Hr0. }
  eexists. split; [by apply probability_index_eq|].
  destruct (table_index_keys tf rf df lc Hsub Htf Hrf) as [Hkeys Hts].
  destruct (proj2 (Hkeys key)) as [dist Hdist]; [by exists r0|].
  rewrite Hdist. f_equal.
  destruct (index_keys rf lc (mapped_rows tf rf (columns df) lc (table_rows df)))
    as [_ Hdists].
  destruct (Hdists key dist Hdist) as ([Hnd Hne] & _ & _).
  assert (dist.*1 = [t]) as Hfst.
  { apply NoDup_all_equal; [done|by destruct dist|].
    intros t' Ht'. apply (Hts key dist t' Hdist) in Ht' as (r & Hr & Hk & <-).
    by apply Hsole. }
  destruct dist as [|[t' p] [|? ?]]; [done| |done].
  simpl in Hfst. injection Hfst as ->. do 2 f_equal.
  destruct (table_index_entry tf rf df lc Hsub Htf Hrf Hdet key [(t, p)] t p Hdist)
    as [-> _]; [by left|].
  unfold stored_probability.
  assert (count_pair tf lc (table_rows df) key t = count_stratum lc (table_rows df) key)
    as ->.
  { unfold count_pair, count_stratum. do 2 f_equal.
    apply filter_ext_in. intros r Hr. split; [by intros [? _]|].
    intros Hk. split; [done|]. by apply Hsole. }
  pose proof (count_stratum_pos lc (table_rows df) r0 Hr0) as Hpos.
  rewrite Hk0 in Hpos. by apply round3_truediv_same.
Qed.

(** ** Encoding reconciliation: when it fails, what it keeps *)

Section ReconcileMore.
Variable translation_dict : gmap string (gmap string string).

Local Abbreviation convert := (convert_column translation_dict).

Lemma convert_column_Some cols (rs' : list (mapped_row (option string))) c d1 :
    convert (Some (Frame cols rs')) c = Some d1 →
    c ∈ cols ∧ (rs' ≠ [] → is_Some (translation_dict !! c)) ∧
    columns d1 = cols ∧ (rows d1 = [] ↔ rs' = []).
  Proof.
    unfold convert_column. cbn [mbind option_bind columns rows].
    case_decide as Hc; [|done]. destruct rs' as [|r0 rs0].
    - intros [= <-]. done.
    - destruct (translation_dict !! c) as [m|]; cbn [mbind option_bind]; [|done].
      intros [= <-]. split; [done|]. split; [by eexists|]. done.
  Qed.

Lemma convert_column_None cols (rs' : list (mapped_row (option string))) c :
    convert (Some (Frame cols rs')) c = None →
    ¬ (c ∈ cols ∧ (rs' ≠ [] → is_Some (translation_dict !! c))).
  Proof.
    unfold convert_column. cbn [mbind option_bind columns rows].
    case_decide as Hc; [|by intros _ [? _]]. destruct rs' as [|r0 rs0]; [done|].
    destruct (translation_dict !! c) as [m|] eqn:Hm; cbn [mbind option_bind]; [done|].
    intros _ [_ Hsome]. destruct Hsome as [? ?]; done.
  Qed.

Lemma foldl_convert_column_is_Some cols cs (rs' : list (mapped_row (option string))) :
    is_Some (foldl convert (Some (Frame cols rs')) cs) ↔
    ∀ c, c ∈ cs → c ∈ cols ∧ (rs' ≠ [] → is_Some (translation_dict !! c)).
  Proof.
    revert rs'. induction cs as [|c cs IH]; intros rs'.
    - simpl. split; [|by eexists]. intros _ c Hc. by apply elem_of_nil in Hc.
    - cbn [foldl].
      destruct (convert (Some (Frame cols rs')) c) as [d1|] eqn:Hstep.
      + destruct d1 as [cols1 rs1].
        apply convert_column_Some in Hstep as (Hc & Hm & Hcols & Hnil).
        cbn [columns rows] in Hcols, Hnil. subst cols1. rewrite IH. split.
        * intros Hall c' [->|Hc']%elem_of_cons; [done|].
          destruct (Hall c' Hc') as [? Hsome]. split; [done|].
          intros Hne. apply Hsome. by rewrite Hnil.
        * intros Hall c' Hc'. destruct (Hall c' (list_elem_of_further _ _ _ Hc'))
            as [? Hsome].
          split; [done|]. intros Hne. apply Hsome. by rewrite <- Hnil.
      + rewrite foldl_convert_column_None. split; [by intros [? ?]|].
        intros Hall. apply convert_column_None in Hstep. destruct Hstep.
        apply Hall. by left.
  Qed.

Lemma convert_to_values_is_Some full_criteria (mapped_df : frame (mapped_row string)) :
    is_Some (convert_to_values full_criteria mapped_df translation_dict) ↔
    ∀ c, c ∈ full_criteria →
         c ∈ columns mapped_df ∧ (rows mapped_df ≠ [] → is_Some (translation_dict !! c)).
  Proof.
    unfold convert_to_values.
    set (start := (λ r : mapped_row string,
                     MappedRow (λ c, Some (m_cells r c)) (m_size r) (m_probability r))
                  <$> rows mapped_df).
    assert (start = [] ↔ rows mapped_df = []) as Hnil.
    { unfold start. by destruct (rows mapped_df). }
    pose proof (foldl_convert_column_is_Some (columns mapped_df) full_criteria start)
      as Hiff.
    destruct (foldl convert (Some (Frame (columns mapped_df) start)) full_criteria)
      as [d|] eqn:Hfold; cbn [mbind option_bind].
    - split; [|intros _; by eexists]. intros _ c Hc.
      destruct (proj1 Hiff (ltac:(by eexists)) c Hc) as [? Hsome].
      split; [done|]. intros Hne. apply Hsome. by rewrite Hnil.
    - split; [by intros [? ?]|]. intros Hall.
      assert (is_Some (None : option (frame (mapped_row (option string))))) as [? ?];
        [|done].
      apply Hiff. intros c Hc. destruct (Hall c Hc) as [? Hsome].
      split; [done|]. intros Hne. apply Hsome. by rewrite <- Hnil.
  Qed.

End ReconcileMore.

(** X12. [convert_to_values] returns exactly when every field to convert
    is a column of the frame and, unless the frame has no row, has an
    entry in the translation dictionary: a criterion whose descriptor
    was skipped by the translator ends the run here. *)
Theorem convert_to_values_succeeds_iff full_criteria
    (mapped_df : frame (mapped_row string)) translation_dict :
  is_Some (convert_to_values full_criteria mapped_df translation_dict) ↔
  ∀ c, c ∈ full_criteria →
       c ∈ columns mapped_df ∧ (rows mapped_df ≠ [] → is_Some (translation_dict !! c)).
Proof. apply convert_to_values_is_Some. Qed.

(** X13. When it returns, [convert_to_values] keeps the columns, the
    number and the order of the rows, their sizes and probabilities and
    every cell outside the converted fields; in a converted field a
    label that the dictionary lists is replaced by its code. *)
Theorem convert_to_values_keeps_frame full_criteria
    (mapped_df : frame (mapped_row string)) translation_dict :
  NoDup full_criteria →
  (∀ c, c ∈ full_criteria → c ∈ columns mapped_df ∧ is_Some (translation_dict !! c)) →
  ∃ converted,
    convert_to_values full_criteria mapped_df translation_dict = Some converted ∧
    columns converted = columns mapped_df ∧
    length (rows converted) = length (rows mapped_df) ∧
    ∀ i row, rows mapped_df !! i = Some row →
      ∃ row', rows converted !! i = Some row' ∧
        m_size row' = m_size row ∧ m_probability row' = m_probability row ∧
        (∀ c, c ∉ full_criteria → m_cells row' c = m_cells row c) ∧
        (∀ c m code, c ∈ full_criteria → translation_dict !! c = Some m →
                     m !! m_cells row c = Some code → m_cells row' c = code).
Proof.
  intros Hnd Hok.
  destruct (convert_to_values_spec translation_dict full_criteria mapped_df Hnd Hok)
    as (converted & Hconv & Hcols & Hrel).
  exists converted. split; [done|]. split; [done|].
  split; [symmetry; by eapply Forall2_length|].
  intros i row Hrow.
  destruct (Forall2_lookup_l _ _ _ _ _ Hrel Hrow) as (row' & Hrow' & Hs & Hp & Hcells).
  exists row'. repeat split; try done.
  - intros c Hc. rewrite Hcells. unfold converted_cell. by rewrite decide_False.
  - intros c m code Hc Hm Hcode. rewrite Hcells.
    rewrite (converted_cell_lookup translation_dict full_criteria row c m Hc Hm).
    by rewrite Hcode.
Qed.

Section CoerceMore.
Variable full_criteria : list string.

Lemma coerce_cell_is_Some s :
    is_Some (coerce_cell s) ↔ s = "" ∨ ∃ z, py_int s = Some z ∧ int64 z.
  Proof.
    unfold coerce_cell. case_decide as Hs.
    - split; [by left|by eexists].
    - destruct (py_int s) as [z|]; cbn [mbind option_bind].
      + case_decide as Hz.
        * split; [right; by exists z|by eexists].
        * split; [by intros [? ?]|]. intros [?|(z' & [= <-] & ?)]; done.
      + split; [by intros [? ?]|]. intros [?|(z' & ? & ?)]; done.
  Qed.

Lemma coerce_row_is_Some (r : mapped_row string) :
    is_Some (coerce_row full_criteria r) ↔
    ∀ c, c ∈ full_criteria →
         m_cells r c = "" ∨ ∃ z, py_int (m_cells r c) = Some z ∧ int64 z.
  Proof.
    unfold coerce_row.
    pose proof (mapM_is_Some (λ c, coerce_cell (m_cells r c)) full_criteria) as Hiff.
    rewrite Forall_forall in Hiff.
    destruct (mapM (λ c, coerce_cell (m_cells r c)) full_criteria) as [cells|];
      cbn [mbind option_bind].
    - split; [|intros _; by eexists]. intros _ c Hc.
      apply coerce_cell_is_Some. apply (proj1 Hiff); [by eexists|done].
    - split; [by intros [? ?]|]. intros Hall.
      assert (is_Some (None : option (list Z))) as [? ?]; [|done].
      apply Hiff. intros c Hc. apply coerce_cell_is_Some. by apply Hall.
  Qed.

Lemma coerce_criteria_is_Some (df : frame (mapped_row string)) :
    is_Some (coerce_criteria full_criteria df) ↔
    full_criteria ⊆ columns df ∧
    ∀ r c, r ∈ rows df → c ∈ full_criteria →
           m_cells r c = "" ∨ ∃ z, py_int (m_cells r c) = Some z ∧ int64 z.
  Proof.
    unfold coerce_criteria. case_decide as Hsub.
    - rewrite fmap_is_Some, mapM_is_Some, Forall_forall. split.
      + intros Hall. split; [done|]. intros r c Hr Hc.
        by apply (proj1 (coerce_row_is_Some r) (Hall r Hr)).
      + intros [_ Hall] r Hr. apply coerce_row_is_Some. intros c Hc. by apply Hall.
    - split; [by intros [? ?]|]. by intros [? _].
  Qed.

End CoerceMore.

(** X14. After a successful [convert_to_values], and with codes written
    in ASCII, the integer coercion of line 266 succeeds exactly when
    every code that a listed label of the frame is mapped to is empty or
    an integer literal whose value fits 64 bits: one code that [int]
    refuses or that overflows, anywhere in a criteria column, ends the
    run. *)
Theorem coercion_succeeds_iff_codes_are_integers full_criteria
    (mapped_df : frame (mapped_row string)) translation_dict converted :
  NoDup full_criteria →
  (∀ c, c ∈ full_criteria → c ∈ columns mapped_df ∧ is_Some (translation_dict !! c)) →
  (∀ c m label code,
     translation_dict !! c = Some m → m !! label = Some code → is_ascii code) →
  convert_to_values full_criteria mapped_df translation_dict = Some converted →
  (is_Some (coerce_criteria full_criteria converted) ↔
   ∀ row c m code,
     row ∈ rows mapped_df → c ∈ full_criteria →
     translation_dict !! c = Some m → m !! m_cells row c = Some code →
     code = "" ∨ ∃ z, py_int code = Some z ∧ int64 z).
Proof.
  intros Hnd Hok _ Hconv.
  destruct (convert_to_values_spec translation_dict full_criteria mapped_df Hnd Hok)
    as (converted' & Hconv' & Hcols & Hrel).
  rewrite Hconv in Hconv'. injection Hconv' as <-.
  rewrite coerce_criteria_is_Some. split.
  - intros [_ Hall] row c m code Hrow Hc Hm Hcode.
    apply list_elem_of_lookup_1 in Hrow as [i Hi].
    destruct (Forall2_lookup_l _ _ _ _ _ Hrel Hi) as (row' & Hrow' & _ & _ & Hcells).
    specialize (Hall row' c (list_elem_of_lookup_2 _ _ _ Hrow') Hc).
    rewrite Hcells in Hall.
    rewrite (converted_cell_lookup translation_dict full_criteria row c m Hc Hm) in Hall.
    by rewrite Hcode in Hall.
  - intros Hall. split.
    + rewrite Hcols. intros c Hc. by apply Hok.
    + intros row' c Hrow' Hc.
      apply list_elem_of_lookup_1 in Hrow' as [i Hi].
      destruct (Forall2_lookup_r _ _ _ _ _ Hrel Hi) as (row & Hrow & _ & _ & Hcells).
      rewrite Hcells. destruct (Hok c Hc) as [_ [m Hm]].
      rewrite (converted_cell_lookup translation_dict full_criteria row c m Hc Hm).
      destruct (m !! m_cells row c) as [code|] eqn:Hcode; [|by left].
      simpl. eapply Hall; [by eapply list_elem_of_lookup_2|done..].
Qed.

(** ** Randomizer: which treatment a subject gets, how many draws are made *)

Section ChoicesFacts.

Lemma length_accumulate_from acc w : length (accumulate_from acc w) = length w.
  Proof. revert acc. induction w as [|x w IH]; intros acc; simpl; [done|]. by rewrite IH. Qed.

Lemma length_accumulate w : length (accumulate w) = length w.
  Proof. destruct w as [|x w]; simpl; [done|]. by rewrite length_accumulate_from. Qed.

Lemma accumulate_from_lookup_S acc w j cj x :
    (acc :: accumulate_from acc w) !! j = Some cj → w !! j = Some x →
    (acc :: accumulate_from acc w) !! S j = Some (cj + x)%Q.
  Proof.
    revert acc j. induction w as [|y w IH]; intros acc j; [done|].
    destruct j as [|j]; simpl.
    - by intros [= <-] [= <-].
    - intros Hcj Hx. by apply (IH (acc + y)%Q j).
  Qed.

  (** Each cumulative weight is the previous one plus the weight. *)
Lemma accumulate_lookup_S w j cj x :
    accumulate w !! j = Some cj → w !! S j = Some x →
    accumulate w !! S j = Some (cj + x)%Q.
  Proof.
    destruct w as [|y w]; [done|]. simpl. intros Hcj Hx.
    by apply (accumulate_from_lookup_S y w j).
  Qed.

Lemma accumulate_lookup_0 w : accumulate w !! 0%nat = w !! 0%nat.
  Proof. by destruct w. Qed.

Lemma bisect_spec a x hi :
    (hi ≤ length a)%nat →
    (∀ j c, (j < bisect a x hi)%nat → a !! j = Some c → (c <= x)%Q) ∧
    ((bisect a x hi < hi)%nat → ∃ c, a !! bisect a x hi = Some c ∧ (x < c)%Q).
  Proof.
    revert a. induction hi as [|hi IH]; intros a Hlen.
    - destruct a; simpl; (split; [intros j c Hj; lia|lia]).
    - destruct a as [|y a]; simpl in Hlen |- *; [lia|].
      destruct (Qlt_le_dec x y) as [Hlt|Hle].
      + split; [intros j c Hj; lia|]. intros _. by exists y.
      + destruct (IH a ltac:(lia)) as [Hbelow Habove]. split.
        * intros [|j] c Hj; simpl.
          -- by intros [= <-].
          -- apply Hbelow. lia.
        * intros Hi. apply Habove. lia.
  Qed.

Lemma choices_Some {A} (population : list A) (weights : list Q) (u : Q) x :
    length population = length weights →
    (0 <= u)%Q → (u < 1)%Q →
    choices population weights u = Some x →
    ∃ i w c total,
      population !! i = Some x ∧ weights !! i = Some w ∧
      last (accumulate weights) = Some total ∧ (0 < total)%Q ∧
      accumulate weights !! i = Some c ∧
      (u * total < c)%Q ∧
      (∀ j c', (j < i)%nat → accumulate weights !! j = Some c' → (c' <= u * total)%Q) ∧
      (0 < w)%Q.
  Proof.
    intros Hlen Hu0 Hu1. unfold choices.
    destruct (last (accumulate weights)) as [total|] eqn:Hlast; cbn [mbind option_bind];
      [|done].
    destruct (Qlt_le_dec 0 total) as [Hpos|_]; [|done].
    intros Hx.
    set (i := bisect (accumulate weights) (u * total) (length population - 1)) in *.
    assert (i < length population)%nat as Hi by (by eapply lookup_lt_Some).
    destruct (bisect_spec (accumulate weights) (u * total)%Q (length population - 1))
      as [Hbelow Habove].
    { rewrite length_accumulate. lia. }
    fold i in Hbelow, Habove.
    assert (∃ c, accumulate weights !! i = Some c ∧ (u * total < c)%Q) as (c & Hc & Hlt).
    { destruct (decide (i < length population - 1)%nat) as [Hin|Hout];
        [by apply Habove|].
      assert (i = (length population - 1)%nat) as Hi' by lia.
      exists total. split; [|nra].
      rewrite last_lookup in Hlast. rewrite length_accumulate, <- Hlen in Hlast.
      rewrite Hi'. by replace (length population - 1)%nat
                        with (Nat.pred (length population)) by lia. }
    destruct (lookup_lt_is_Some_2 weights i) as [w Hw]; [lia|].
    exists i, w, c, total. repeat split; try done.
    destruct i as [|j].
    - rewrite accumulate_lookup_0, Hw in Hc. injection Hc as ->.
      assert (0 <= u * total)%Q by nra. lra.
    - destruct (lookup_lt_is_Some_2 (accumulate weights) j) as [cj Hcj].
      { rewrite length_accumulate. lia. }
      rewrite (accumulate_lookup_S weights j cj w Hcj Hw) in Hc. injection Hc as <-.
      pose proof (Hbelow j cj ltac:(lia) Hcj). lra.
  Qed.

End ChoicesFacts.


Section DrawCount.
Variable randomized_field : string.
Variable less_criteria : list string.
Variable probability_dict : gmap (list Z) (list (Z * Q)).

Local Abbreviation assign := (assign_subject randomized_field less_criteria probability_dict).
Local Abbreviation run := (run_subjects randomized_field less_criteria probability_dict).
Local Abbreviation is_matched := (matched less_criteria probability_dict).

Lemma assign_subject_unmatched rep g i r :
    rep !! i = Some r → ¬ is_matched r → assign (rep, g) i = Some (rep, g).
  Proof.
    unfold assign_subject, matched. intros -> Hun.
    destruct (mapM (λ key, r !! key) less_criteria) as [k|]; [|done].
    destruct (probability_dict !! k) as [dist|]; [|done].
    exfalso. apply Hun. by eexists.
  Qed.

Lemma assign_subject_matched rep g i r k dist :
    rep !! i = Some r → mapM (λ key, r !! key) less_criteria = Some k →
    probability_dict !! k = Some dist →
    assign (rep, g) i =
    (t ← choices (dist.*1) (dist.*2) (stream g (cursor g));
     Some (<[i := <[randomized_field := t]> r]> rep, Rng (stream g) (S (cursor g)))).
  Proof. unfold assign_subject. by intros -> -> ->. Qed.

Lemma matched_inv r :
    is_matched r →
    ∃ k dist, mapM (λ key, r !! key) less_criteria = Some k ∧
              probability_dict !! k = Some dist.
  Proof.
    unfold matched. destruct (mapM (λ key, r !! key) less_criteria) as [k|]; [|done].
    intros [dist Hdist]. by exists k, dist.
  Qed.

  (** The loop over the positions of [todo], the records before them
      being [pre]. *)
Lemma run_seq pre todo g rep' g' :
    run (Some (pre ++ todo, g)) (seq (length pre) (length todo)) = Some (rep', g') →
    stream g' = stream g ∧
    cursor g' = (cursor g + length (filter is_matched todo))%nat ∧
    ∃ done', rep' = pre ++ done' ∧ length done' = length todo ∧
      ∀ i r k dist,
        todo !! i = Some r → mapM (λ key, r !! key) less_criteria = Some k →
        probability_dict !! k = Some dist →
        ∃ t, choices (dist.*1) (dist.*2)
               (stream g (cursor g + length (filter is_matched (take i todo)))%nat)
             = Some t ∧
             done' !! i = Some (<[randomized_field := t]> r).
  Proof.
    revert pre g. induction todo as [|r todo IH]; intros pre g.
    - simpl. intros [= <- <-]. split; [done|]. split; [lia|].
      exists []. split; [done|]. split; [done|]. intros i r k dist Hi. done.
    - cbn [length seq]. rewrite run_cons.
      assert ((pre ++ r :: todo) !! length pre = Some r) as Hr
        by apply list_lookup_middle, eq_refl.
      destruct (decide (is_matched r)) as [Hm|Hun].
      + destruct (matched_inv r Hm) as (k & dist & Hk & Hdist).
        rewrite (assign_subject_matched _ g _ r k dist Hr Hk Hdist).
        destruct (choices (dist.*1) (dist.*2) (stream g (cursor g))) as [t|] eqn:Ht;
          cbn [mbind option_bind]; [|by rewrite run_None].
        rewrite insert_app_r_alt by done. rewrite Nat.sub_diag. cbn [insert list_insert].
        rewrite (cons_middle _ pre todo), app_assoc.
        replace (S (length pre)) with (length (pre ++ [<[randomized_field:=t]> r]))
          by (rewrite length_app; simpl; lia).
        intros Hrun. apply IH in Hrun as (Hs & Hc & done' & -> & Hlen & Hdraws).
        cbn [stream cursor] in Hs, Hc, Hdraws.
        split; [done|]. split.
        { rewrite filter_cons, decide_True by done. simpl. lia. }
        exists (<[randomized_field:=t]> r :: done').
        split; [by rewrite <- app_assoc|]. split; [simpl; lia|].
        intros [|i] r0 k0 dist0 Hi Hk0 Hdist0.
        * simpl in Hi. injection Hi as <-.
          assert (k0 = k) as -> by congruence. assert (dist0 = dist) as -> by congruence.
          exists t. simpl. rewrite Nat.add_0_r. done.
        * simpl in Hi. destruct (Hdraws i r0 k0 dist0 Hi Hk0 Hdist0) as (t0 & Ht0 & Hd).
          exists t0. split; [|done]. cbn [take]. rewrite filter_cons, decide_True by done.
          simpl length. by replace (cursor g + S (length (filter is_matched (take i todo))))%nat
            with (S (cursor g) + length (filter is_matched (take i todo)))%nat by lia.
      + rewrite (assign_subject_unmatched _ g _ r Hr Hun).
        rewrite (cons_middle r pre todo), app_assoc.
        replace (S (length pre)) with (length (pre ++ [r]))
          by (rewrite length_app; simpl; lia).
        intros Hrun. apply IH in Hrun as (Hs & Hc & done' & -> & Hlen & Hdraws).
        split; [done|]. split.
        { rewrite filter_cons, decide_False by done. done. }
        exists (r :: done').
        split; [by rewrite <- app_assoc|]. split; [simpl; lia|].
        intros [|i] r0 k0 dist0 Hi Hk0 Hdist0.
        * simpl in Hi. injection Hi as <-. exfalso. apply Hun.
          unfold matched. rewrite Hk0. by eexists.
        * simpl in Hi. destruct (Hdraws i r0 k0 dist0 Hi Hk0 Hdist0) as (t0 & Ht0 & Hd).
          exists t0. split; [|done]. cbn [take]. by rewrite filter_cons, decide_False.
  Qed.

Lemma randomization_step_draws rep g rep' g' :
    randomization_step randomized_field rep less_criteria probability_dict g
      = Some (rep', g') →
    stream g' = stream g ∧
    cursor g' = (cursor g + length (filter is_matched rep))%nat ∧
    ∀ i r k dist,
      rep !! i = Some r → mapM (λ key, r !! key) less_criteria = Some k →
      probability_dict !! k = Some dist →
      ∃ t, choices (dist.*1) (dist.*2)
             (stream g (cursor g + draws_before less_criteria probability_dict rep i)%nat)
           = Some t ∧
           rep' !! i = Some (<[randomized_field := t]> r).
  Proof.
    intros Hrun. destruct (run_seq [] rep g rep' g' Hrun)
      as (Hs & Hc & done' & -> & _ & Hdraws).
    split; [done|]. split; [done|]. exact Hdraws.
  Qed.


End DrawCount.


(** X17. The randomizer reads one value of the random source for every
    subject whose criteria tuple is a key of the index, and none for the
    others. *)
Theorem one_draw_per_matched_subject rf rep lc idx g rep' g' :
  randomization_step rf rep lc idx g = Some (rep', g') →
  stream g' = stream g ∧
  cursor g' = (cursor g + length (filter (matched lc idx) rep))%nat.
Proof.
  intros Hrun.
  destruct (randomization_step_draws rf lc idx rep g rep' g' Hrun) as (Hs & Hc & _).
  done.
Qed.

(** X18. With a random source in [0, 1) and probabilities that are not
    negative, a treatment whose probability in the index is 0 is never
    assigned: the treatment a matched subject gets is listed in the
    distribution of its stratum with a positive probability. *)
Theorem assigned_treatment_has_positive_probability rf rep lc idx g rep' g' i r
    tuple_key dist :
  (∀ n, (0 <= stream g n)%Q ∧ (stream g n < 1)%Q) →
  Forall (λ w, (0 <= w)%Q) (dist.*2) →
  randomization_step rf rep lc idx g = Some (rep', g') →
  rep !! i = Some r →
  mapM (λ key, r !! key) lc = Some tuple_key →
  idx !! tuple_key = Some dist →
  ∃ t p, (t, p) ∈ dist ∧ (0 < p)%Q ∧ rep' !! i = Some (<[rf := t]> r).
Proof.
  intros Hrange _ Hrun Hr Hk Hdist.
  destruct (randomization_step_draws rf lc idx rep g rep' g' Hrun) as (_ & _ & Hdraws).
  destruct (Hdraws i r tuple_key dist Hr Hk Hdist) as (t & Ht & Hi).
  destruct (Hrange (cursor g + draws_before lc idx rep i)%nat) as [Hu0 Hu1].
  apply choices_Some in Ht as (n & w & _ & _ & Hn & Hw & _ & _ & _ & _ & _ & Hpos);
    [|by rewrite !length_fmap|done..].
  exists t, w. split; [|done].
  rewrite list_lookup_fmap in Hn. rewrite list_lookup_fmap in Hw.
  destruct (dist !! n) as [[t' w']|] eqn:Hd; [|done].
  simpl in Hn, Hw. injection Hn as ->. injection Hw as ->.
  by eapply list_elem_of_lookup_2.
Qed.

(** ** The steps of [main] around the functions *)

Section MainMore.
Variables treatment_field randomized_field : string.

Lemma py_remove_Permutation x l l' : py_remove x l = Some l' → l ≡ₚ x :: l'.
  Proof.
    revert l'. induction l as [|y l IH]; intros l'; simpl; [done|].
    case_decide as Hxy.
    - intros [= <-]. by subst.
    - destruct (py_remove x l) as [l0|]; simpl; [|done].
      intros [= <-]. rewrite (IH l0 eq_refl). apply Permutation_swap.
  Qed.

Lemma main_less_criteria_Some df full_criteria less_criteria :
    main_less_criteria treatment_field randomized_field df full_criteria
      = Some less_criteria →
    randomized_field ≠ treatment_field ∧
    randomized_field ∈ columns df ∧ treatment_field ∈ columns df ∧
    (treatment_field ∉ full_criteria) ∧
    full_criteria ≡ₚ randomized_field :: less_criteria ∧
    (∀ c, c ∈ full_criteria ↔ c ∈ columns df ∧ c ≠ treatment_field).
  Proof.
    unfold main_less_criteria.
    destruct (py_remove randomized_field full_criteria) as [lc|] eqn:Hrem;
      cbn [mbind option_bind]; [|done].
    case_decide as Hok; [|done]. destruct Hok as [Htf Hperm]. intros [= <-].
    apply py_remove_Permutation in Hrem.
    assert (∀ c, c ∈ full_criteria ↔ c ∈ columns df ∧ c ≠ treatment_field) as Hiff.
    { intros c. rewrite Hperm, list_elem_of_filter. tauto. }
    assert (randomized_field ∈ full_criteria) as Hrf by (rewrite Hrem; by left).
    apply Hiff in Hrf as [Hrf Hne].
    repeat split; try done; try (by apply Hiff).
    intros Hin. by apply Hiff in Hin as [_ ?].
  Qed.

Lemma parse_record_None (d : gmap string string) f v :
    d !! f = Some v → v ≠ "" → py_int v = None → parse_record d = None.
  Proof.
    intros Hf Hne Hint. unfold parse_record. case_decide as Hall; [|done].
    specialize (Hall f v Hf). unfold parse_value in Hall.
    rewrite decide_False, Hint in Hall by done. by destruct Hall.
  Qed.

End MainMore.

(** X19. The field check of lines 247-259 lets a run pass only when the
    table has, beside the treatment column, a column named after the
    randomized field, the two configured names differ, the treatment
    field is not a field of the report, and the fields of the report are
    the columns of the table without the treatment column; the criteria
    list is the report's fields without the randomized field. *)
Theorem field_check_requires_randomized_column tf rf df full_criteria less_criteria :
  main_less_criteria tf rf df full_criteria = Some less_criteria →
  rf ≠ tf ∧ rf ∈ columns df ∧ tf ∈ columns df ∧ (tf ∉ full_criteria) ∧
  full_criteria ≡ₚ rf :: less_criteria ∧
  (∀ c, c ∈ full_criteria ↔ c ∈ columns df ∧ c ≠ tf).
Proof. apply main_less_criteria_Some. Qed.

(** X20. Lines 269 and 278-281 together: a field that the report gives
    as the empty string goes out as null, and so does a field whose
    value reads as the integer -1; every other value goes out as the
    integer it reads as; no field is added or dropped. *)
Theorem empty_and_minus_one_go_out_null (input_dict : gmap string string) r f :
  parse_record input_dict = Some r →
  (input_dict !! f = None → null_sentinels r !! f = None) ∧
  (input_dict !! f = Some "" → null_sentinels r !! f = Some None) ∧
  (∀ value, input_dict !! f = Some value → value ≠ "" →
     ∃ z, py_int value = Some z ∧
          null_sentinels r !! f = Some (if decide (z = -1) then None else Some z)).
Proof.
  intros Hparse. rewrite null_sentinels_lookup, (parse_record_lookup _ _ f Hparse).
  split; [by intros ->|]. split; [by intros ->|].
  intros value Hf Hne. rewrite Hf. cbn [mbind option_bind].
  unfold parse_record in Hparse. case_decide as Hall; [|done].
  destruct (Hall f value Hf) as [z Hz]. unfold parse_value in Hz |- *.
  rewrite decide_False in Hz |- * by done. exists z. by rewrite Hz.
Qed.

(** X21. One value of the report, written in ASCII, that is neither
    empty nor an integer literal, in any field of any record, the record
    identifier included, ends the run at line 269, before any subject is
    randomized. *)
Theorem non_integer_value_ends_the_run rf (eligibility_report : list (gmap string string))
    lc idx g i input_dict f value :
  eligibility_report !! i = Some input_dict →
  input_dict !! f = Some value → value ≠ "" → is_ascii value → py_int value = None →
  main_assign rf eligibility_report lc idx g = None.
Proof.
  intros Hi Hf Hne _ Hint. unfold main_assign.
  assert (mapM parse_record eligibility_report = None) as ->; [|done].
  apply mapM_None_2, Exists_exists. exists input_dict.
  split; [by eapply list_elem_of_lookup_2|]. by eapply parse_record_None.
Qed.

(** X22. What a run that reaches the upload has met: the two configured
    field names differ; the table has a row, a treatment column and a
    column named after the randomized field; the report has at least
    two fields beside the record identifier; every field of the report, the
    randomized field included, has in the metadata a descriptor of a
    supported type with a non-empty choices string; and the run returns
    one record for every subject of the report. *)
Theorem successful_run_requirements tf rf (eligibility_report : list (gmap string string))
    full_criteria original_codebook df g out g' :
  main_core tf rf eligibility_report full_criteria original_codebook df g
    = Some (out, g') →
  rf ≠ tf ∧ tf ∈ columns df ∧ rf ∈ columns df ∧ rows df ≠ [] ∧
  (2 ≤ length full_criteria)%nat ∧
  (∀ c, c ∈ full_criteria →
     ∃ obj spec, obj ∈ original_codebook ∧ field_name obj = c ∧
                 field_type obj ∈ ["yesno"; "truefalse"; "dropdown"; "radio"; "checkbox"] ∧
                 effective_choices obj = Some spec ∧ spec ≠ "") ∧
  length out = length eligibility_report.
Proof.
  unfold main_core. intros Hrun.
  destruct (convert_codebook tf original_codebook full_criteria) as [td|] eqn:Htd;
    cbn [mbind option_bind] in Hrun; [|done].
  destruct (main_less_criteria tf rf df full_criteria) as [lc|] eqn:Hlc;
    cbn [mbind option_bind] in Hrun; [|done].
  destruct (main_index tf rf df full_criteria td) as [idx|] eqn:Hidx;
    cbn [mbind option_bind] in Hrun; [|done].
  pose proof (main_less_criteria_Some _ _ _ _ _ Hlc)
    as (Hne & Hrf & Htf & Hnotin & Hperm & Hcols).
  unfold main_index in Hidx. rewrite Hlc in Hidx.
  destruct (frequency_aggregator df) as [grouped|] eqn:Hg;
    cbn [mbind option_bind] in Hidx; [|done].
  destruct (calculate_probabilities tf rf grouped lc) as [mapped|] eqn:Hm;
    cbn [mbind option_bind] in Hidx; [|done].
  destruct (convert_to_values full_criteria mapped td) as [converted|] eqn:Hconv;
    cbn [mbind option_bind] in Hidx; [|done].
  apply frequency_aggregator_Some in Hg as (_ & Hgc & Hgr).
  apply calculate_probabilities_Some in Hm
    as (Hlcne & _ & _ & Hgrows & _ & _ & Hmrows).
  assert (rows df ≠ []) as Hrows.
  { intros Hnil. apply Hgrows. rewrite Hgr. apply grouped_rows_nil.
    by apply table_rows_nil. }
  assert (rows mapped ≠ []) as Hmne.
  { intros Hnil. rewrite Hnil in Hmrows. apply Permutation_nil_l in Hmrows.
    symmetry in Hmrows. apply fmap_nil_inv in Hmrows. done. }
  assert (is_Some (convert_to_values full_criteria mapped td)) as Hsome by (by eexists).
  pose proof (proj1 (convert_to_values_is_Some td full_criteria mapped) Hsome) as Hneed.
  split; [done|]. split; [done|]. split; [done|]. split; [done|].
  split; [|split].
  - rewrite Hperm. destruct lc; [done|]. simpl. lia.
  - intros c Hc. destruct (Hneed c Hc) as [_ Hentry].
    destruct (Hentry Hmne) as [m Hm].
    destruct (convert_codebook_interest tf full_criteria original_codebook ∅ td c m Htd Hm)
      as [Hempty|(obj & spec & Hin & Hname & _ & Hspec & Hsne & _)].
    { by rewrite lookup_empty in Hempty. }
    exists obj, spec. split; [done|]. split; [done|].
    split; [by eapply effective_choices_type|done].
  - unfold main_assign in Hrun.
    destruct (mapM parse_record eligibility_report) as [parsed|] eqn:Hparsed; [|done].
    destruct (randomization_step rf parsed lc idx g) as [[assigned g1]|] eqn:Hstep;
      [|done].
    injection Hrun as <- <-. rewrite length_fmap.
    apply randomization_step_frame in Hstep as [Hlen _].
    apply length_mapM in Hparsed. congruence.
Qed.

(** ** The two aggregations *)

Section AggregationMore.

Lemma sum_Z_Permutation l l' : l ≡ₚ l' → sum_Z l = sum_Z l'.
  Proof.
    unfold sum_Z. induction 1 as [|x l l' _ IH|x y l|l l' l'' _ IH1 _ IH2]; simpl; lia.
  Qed.

Lemma sum_Z_bind {A B} (w : B → Z) (h : A → list B) (T : list A) :
    sum_Z (w <$> (T ≫= h)) = sum_Z ((λ k, sum_Z (w <$> h k)) <$> T).
  Proof.
    induction T as [|k T IH]; [done|].
    rewrite bind_cons, fmap_app, sum_Z_app, IH. done.
  Qed.

Lemma groupby_sum_Some by_cols (df : frame grouped_row) freq_df :
    groupby_sum by_cols df = Some freq_df →
    by_cols ≠ [] ∧ by_cols ⊆ columns df ∧ columns freq_df = by_cols ∧
    NoDup ((λ fr, project by_cols (g_cells fr)) <$> rows freq_df) ∧
    (∀ fr, fr ∈ rows freq_df →
       ∃ row2, row2 ∈ rows df ∧
               project by_cols (g_cells row2) = project by_cols (g_cells fr) ∧
               g_size fr = stratum_size by_cols (rows df) row2) ∧
    (∀ row2, row2 ∈ rows df →
       ∃ fr, fr ∈ rows freq_df ∧
             project by_cols (g_cells fr) = project by_cols (g_cells row2) ∧
             g_size fr = stratum_size by_cols (rows df) row2) ∧
    sum_Z (g_size <$> rows freq_df) = sum_Z (g_size <$> rows df).
  Proof.
    unfold groupby_sum. case_decide as Hby; [|done]. destruct Hby as [Hne Hsub].
    intros [= <-]. cbn [columns rows].
    split; [done|]. split; [done|]. split; [done|].
    set (G := rows df).
    set (keys := group_keys ((λ r : grouped_row, project by_cols (g_cells r)) <$> G)).
    split; [|split; [|split]].
    - rewrite <- list_fmap_compose.
      rewrite (list_fmap_ext _ id keys).
      + rewrite list_fmap_id. apply NoDup_group_keys.
      + intros i k Hk. simpl. apply (key_series by_cols G).
        by eapply list_elem_of_lookup_2.
    - intros fr (k & -> & Hk)%list_elem_of_fmap.
      pose proof Hk as (row2 & Hrow2 & <-)%elem_of_keys.
      exists row2. split; [done|]. cbn [g_cells g_size].
      split; [|done]. symmetry. by apply (key_series by_cols G).
    - intros row2 Hrow2.
      assert (project by_cols (g_cells row2) ∈ keys) as Hk
        by (apply elem_of_keys; by exists row2).
      eexists. split; [apply list_elem_of_fmap; eexists; split; [reflexivity|exact Hk]|].
      cbn [g_cells g_size]. split; [|done]. by apply (key_series by_cols G).
    - transitivity
        (sum_Z (g_size <$>
                (keys ≫= λ k, filter (λ r : grouped_row,
                                        project by_cols (g_cells r) = k) G))).
      + rewrite sum_Z_bind, <- list_fmap_compose. done.
      + apply sum_Z_Permutation, fmap_Permutation.
        apply (bind_filter_Permutation (λ r : grouped_row, project by_cols (g_cells r))).
        * apply NoDup_group_keys.
        * intros row2 Hrow2. apply elem_of_keys. by exists row2.
  Qed.

Lemma frequency_aggregator_rows df grouped_df :
    frequency_aggregator df = Some grouped_df →
    columns grouped_df = columns df ∧
    NoDup ((λ gr, project (columns df) (g_cells gr)) <$> rows grouped_df) ∧
    ∀ gr, gr ∈ rows grouped_df →
      0 < g_size gr ∧ ∃ r, r ∈ rows df ∧ in_group (columns df) gr r.
  Proof.
    unfold frequency_aggregator. intros (_ & Hc & Hr)%groupby_size_Some.
    cbn [columns replace_missing] in Hc, Hr.
    split; [done|]. rewrite Hr. split.
    - rewrite <- list_fmap_compose.
      set (keys := project (columns df) <$> rows (replace_missing df)).
      rewrite (list_fmap_ext _ id (group_keys keys)).
      + rewrite list_fmap_id. apply NoDup_group_keys.
      + intros i k Hk. apply list_elem_of_lookup_2 in Hk.
        apply (proj1 (elem_of_group_keys _ _)) in Hk.
        unfold keys in Hk. apply list_elem_of_fmap in Hk as (r & -> & _).
        simpl. by apply project_series_of.
    - intros gr (k & -> & Hk)%list_elem_of_fmap.
      apply (proj1 (elem_of_group_keys _ _)) in Hk. pose proof Hk as Hk'.
      apply list_elem_of_fmap in Hk as (r' & -> & Hr').
      cbn [rows replace_missing] in Hr'.
      apply list_elem_of_fmap in Hr' as (r & -> & Hin). split.
      + cbn [g_size]. unfold count_of.
        assert (project (columns df) (λ c, default "" (r c))
                ∈ filter (λ k', k' = project (columns df) (λ c, default "" (r c)))
                         (project (columns df) <$> rows (replace_missing df))) as Hf
          by (by apply list_elem_of_filter).
        destruct (filter _ _); [by apply elem_of_nil in Hf|simpl; lia].
      + exists r. split; [done|]. unfold in_group. cbn [g_cells].
        by apply project_series_of.
  Qed.

End AggregationMore.

(** X23. Line 127, on whatever grouped frame: [freq_df] has one row for
    every distinct criteria tuple of the grouped frame and no row for
    another; the size of a row is the sum of the sizes of the grouped
    rows with its tuple; and the sizes of [freq_df] add up to the sizes
    of the grouped frame. *)
Theorem groupby_sum_totals by_cols (grouped_df : frame grouped_row) freq_df :
  groupby_sum by_cols grouped_df = Some freq_df →
  columns freq_df = by_cols ∧
  NoDup ((λ fr, project by_cols (g_cells fr)) <$> rows freq_df) ∧
  (∀ fr, fr ∈ rows freq_df →
     ∃ row2, row2 ∈ rows grouped_df ∧
             project by_cols (g_cells row2) = project by_cols (g_cells fr) ∧
             g_size fr = stratum_size by_cols (rows grouped_df) row2) ∧
  (∀ row2, row2 ∈ rows grouped_df →
     ∃ fr, fr ∈ rows freq_df ∧
           project by_cols (g_cells fr) = project by_cols (g_cells row2) ∧
           g_size fr = stratum_size by_cols (rows grouped_df) row2) ∧
  sum_Z (g_size <$> rows freq_df) = sum_Z (g_size <$> rows grouped_df).
Proof.
  intros (_ & _ & H)%groupby_sum_Some. exact H.
Qed.

(** X24. The frequency aggregator of lines 243-244 returns one row for
    every distinct combination of cells and no two rows for the same
    one; every row it returns stands for at least one row of the table,
    so no group is empty. *)
Theorem frequency_aggregator_one_row_per_combination df grouped_df :
  frequency_aggregator df = Some grouped_df →
  columns grouped_df = columns df ∧
  NoDup ((λ gr, project (columns df) (g_cells gr)) <$> rows grouped_df) ∧
  ∀ gr, gr ∈ rows grouped_df →
    0 < g_size gr ∧ ∃ r, r ∈ rows df ∧ in_group (columns df) gr r.
Proof. apply frequency_aggregator_rows. Qed.

(** * Further instances

    Each statement below applies one of the further properties to sample
    data and discharges its hypotheses there. *)

Lemma codebook_holds_only_fields_of_interest_witness :
  convert_codebook "arm" consent_codebook ["consent"; "site"] = Some consent_translation ∧
  consent_translation !! "site" = Some ({[ "North" := "1"; "South" := "2" ]} : gmap string string) ∧
  ("site" ∈ ["consent"; "site"] ∨ "site" = "arm") ∧
  ({[ "North" := "1"; "South" := "2" ]} : gmap string string) ≠ ∅.
Proof.
  assert (H1 : convert_codebook "arm" consent_codebook ["consent"; "site"]
               = Some consent_translation) by (vm_compute; reflexivity).
  assert (H2 : consent_translation !! "site"
               = Some ({[ "North" := "1"; "South" := "2" ]} : gmap string string))
    by (vm_compute; reflexivity).
  split; [exact H1|]. split; [exact H2|].
  destruct (codebook_holds_only_fields_of_interest "arm" consent_codebook
              ["consent"; "site"] consent_translation "site" _ H1 H2) as (Hin & Hne & _).
  exact (conj Hin Hne).
Defined.

Lemma last_descriptor_decides_mapping_witness :
  convert_codebook "arm" ([] ++ FieldDescriptor "consent" "yesno" "" ::
                          [FieldDescriptor "notes" "text" "";
                           FieldDescriptor "site" "radio" "1, North | 2, South"])
    ["consent"; "site"] = Some consent_translation ∧
  consent_translation !! "consent"
    = Some ({[ "Yes" := "1"; "No" := "0" ]} : gmap string string).
Proof.
  assert (H1 : convert_codebook "arm"
                 ([] ++ FieldDescriptor "consent" "yesno" "" ::
                  [FieldDescriptor "notes" "text" "";
                   FieldDescriptor "site" "radio" "1, North | 2, South"])
                 ["consent"; "site"] = Some consent_translation)
    by (vm_compute; reflexivity).
  assert (H2 : ∀ o, o ∈ [FieldDescriptor "notes" "text" "";
                         FieldDescriptor "site" "radio" "1, North | 2, South"] →
                    field_name o ≠ field_name (FieldDescriptor "consent" "yesno" "")).
  { intros o Ho. apply elem_of_cons in Ho as [->|Ho]; [discriminate|].
    apply list_elem_of_singleton in Ho as ->. discriminate. }
  assert (H3 : of_interest "arm" ["consent"; "site"] (FieldDescriptor "consent" "yesno" ""))
    by (left; left).
  assert (H4 : effective_choices (FieldDescriptor "consent" "yesno" "")
               = Some "1, Yes | 0, No") by reflexivity.
  assert (H5 : "1, Yes | 0, No" ≠ "") by discriminate.
  split; [exact H1|].
  exact (proj1 (proj2 (proj2 (last_descriptor_decides_mapping "arm" ["consent"; "site"] []
                                (FieldDescriptor "consent" "yesno" "") _ consent_translation
                                "1, Yes | 0, No" H1 H2 H3 H4 H5))) eq_refl).
Defined.

Lemma repeated_label_keeps_last_code_witness :
  parse_choices "1, Yes | 2, Yes" = Some ({[ "Yes" := "2" ]} : gmap string string) ∧
  split "|"%char "1, Yes | 2, Yes" = ["1, Yes "] ++ " 2, Yes" :: [] ∧
  pair_entry " 2, Yes" = Some ("Yes", "2") ∧
  ({[ "Yes" := "2" ]} : gmap string string) !! "Yes" = Some "2".
Proof.
  assert (H1 : parse_choices "1, Yes | 2, Yes"
               = Some ({[ "Yes" := "2" ]} : gmap string string))
    by (vm_compute; reflexivity).
  assert (H2 : split "|"%char "1, Yes | 2, Yes" = ["1, Yes "] ++ " 2, Yes" :: [])
    by (vm_compute; reflexivity).
  assert (H3 : pair_entry " 2, Yes" = Some ("Yes", "2")) by (vm_compute; reflexivity).
  assert (H4 : ∀ p e, p ∈ ([] : list string) → pair_entry p = Some e → e.1 ≠ "Yes").
  { intros p e Hp. by apply elem_of_nil in Hp. }
  split; [exact H1|]. split; [exact H2|]. split; [exact H3|].
  exact (repeated_label_keeps_last_code "1, Yes | 2, Yes" _ ["1, Yes "] " 2, Yes" []
           "Yes" "2" H1 H2 H3 H4).
Defined.

Lemma calculate_probabilities_one_row_per_group_witness :
  ∃ mapped_df,
    calculate_probabilities "treatment" "assigned" tie_grouped ["stratum"]
      = Some mapped_df ∧
    columns mapped_df = add_column "assigned" (columns tie_grouped) ∧
    length (rows mapped_df) = length (rows tie_grouped) ∧
    m_probability <$> rows mapped_df ≡ₚ [13 # 1000; 37 # 1000; 19 # 20]%Q.
Proof.
  destruct (calculate_probabilities "treatment" "assigned" tie_grouped ["stratum"])
    as [mapped_df|] eqn:H; [|vm_compute in H; discriminate H].
  exists mapped_df. split; [reflexivity|].
  destruct (calculate_probabilities_one_row_per_group "treatment" "assigned"
              tie_grouped ["stratum"] mapped_df H) as (Hc & Hp & Hl).
  split; [exact Hc|]. split; [exact Hl|].
  apply (fmap_Permutation m_probability) in Hp. vm_compute in Hp. exact Hp.
Defined.

Lemma probability_dict_reflects_rows_witness :
  create_probability_dict "assigned"
    (Frame ["stratum"; "assigned"] [clash_row (1 # 4); clash_row (3 # 4)])
    ["stratum"] = Some ({[ [1] := [(-1, 3 # 4)] ]} : gmap (list Z) (list (Z * Q))) ∧
  ∀ key dist,
    ({[ [1] := [(-1, 3 # 4)] ]} : gmap (list Z) (list (Z * Q))) !! key = Some dist →
    NoDup (dist.*1) ∧ dist ≠ [].
Proof.
  assert (H1 : create_probability_dict "assigned"
                 (Frame ["stratum"; "assigned"] [clash_row (1 # 4); clash_row (3 # 4)])
                 ["stratum"]
               = Some ({[ [1] := [(-1, 3 # 4)] ]} : gmap (list Z) (list (Z * Q))))
    by (vm_compute; reflexivity).
  split; [exact H1|]. intros key dist Hd.
  destruct (proj2 (probability_dict_reflects_rows Z _ "assigned" _ ["stratum"] _ H1)
              key dist Hd) as (Hnd & Hne & _).
  exact (conj Hnd Hne).
Defined.

Lemma index_holds_exactly_what_was_observed_witness :
  ("assigned" ∉ ["stratum"]) ∧
  probability_index "treatment" "assigned" join_table ["stratum"] = Some join_index ∧
  ∀ key, is_Some (join_index !! key) ↔
         ∃ r, r ∈ table_rows join_table ∧ project ["stratum"] r = key.
Proof.
  assert (H1 : "assigned" ∉ ["stratum"]).
  { intros Hin. apply list_elem_of_singleton in Hin. discriminate. }
  assert (H2 : probability_index "treatment" "assigned" join_table ["stratum"]
               = Some join_index) by (vm_compute; reflexivity).
  split; [exact H1|]. split; [exact H2|].
  exact (proj1 (index_holds_exactly_what_was_observed "treatment" "assigned" join_table
                  ["stratum"] join_index H1 H2)).
Defined.

Lemma index_probabilities_are_thousandths_witness :
  probability_index "treatment" "assigned" join_table ["stratum"] = Some join_index ∧
  join_index !! ["A"] = Some [("treatment1", 3 # 4); ("treatment2", 1 # 4)] ∧
  ∃ n : Z, 0 ≤ n ≤ 1000 ∧ (3 # 4) = Qred (n # 1000).
Proof.
  assert (H1 : probability_index "treatment" "assigned" join_table ["stratum"]
               = Some join_index) by (vm_compute; reflexivity).
  assert (H2 : join_index !! ["A"] = Some [("treatment1", 3 # 4); ("treatment2", 1 # 4)])
    by (vm_compute; reflexivity).
  assert (H3 : ("treatment1", 3 # 4) ∈ [("treatment1", 3 # 4); ("treatment2", 1 # 4)])
    by left.
  split; [exact H1|]. split; [exact H2|].
  exact (index_probabilities_are_thousandths "treatment" "assigned" join_table
           ["stratum"] join_index ["A"] _ "treatment1" (3 # 4) H1 H2 H3).
Defined.

Lemma stratum_B_rows r :
  r ∈ table_rows join_table → project ["stratum"] r = ["B"] → r "treatment" = "treatment3".
Proof.
  unfold table_rows. cbn [rows replace_missing join_table].
  intros (r0 & -> & Hr0)%list_elem_of_fmap.
  apply elem_of_app in Hr0 as [Hr0|Hr0];
    [apply elem_of_replicate in Hr0 as [-> _]; intros Hk; by vm_compute in Hk|].
  apply elem_of_app in Hr0 as [Hr0|Hr0];
    [apply elem_of_replicate in Hr0 as [-> _]; intros Hk; by vm_compute in Hk|].
  apply elem_of_replicate in Hr0 as [-> _]. intros _. reflexivity.
Qed.

Lemma stratum_B_observed :
  ∃ r, r ∈ table_rows join_table ∧ project ["stratum"] r = ["B"].
Proof.
  exists stratum_B_row. split; [|reflexivity].
  unfold table_rows. cbn [rows replace_missing join_table].
  apply list_elem_of_fmap.
  exists (row_of [("stratum", "B"); ("treatment", "treatment3")]). split; [reflexivity|].
  apply elem_of_app. right. apply elem_of_app. right.
  apply elem_of_replicate. split; [reflexivity|discriminate].
Qed.

Lemma sole_treatment_is_certain_witness :
  ["stratum"] ≠ [] ∧ ["stratum"] ⊆ columns join_table ∧
  "treatment" ∈ columns join_table ∧ ("assigned" ∉ ["stratum"]) ∧
  ∃ idx,
    probability_index "treatment" "assigned" join_table ["stratum"] = Some idx ∧
    idx !! ["B"] = Some [("treatment3", 1%Q)].
Proof.
  assert (H1 : (["stratum"] : list string) ≠ []) by discriminate.
  assert (H2 : ["stratum"] ⊆ columns join_table).
  { intros c Hc. apply list_elem_of_singleton in Hc as ->. by left. }
  assert (H3 : "treatment" ∈ columns join_table) by (right; left).
  assert (H4 : "assigned" ∉ ["stratum"]).
  { intros Hin. apply list_elem_of_singleton in Hin. discriminate. }
  repeat (split; [assumption|]).
  exact (sole_treatment_is_certain "treatment" "assigned" join_table ["stratum"] ["B"]
           "treatment3" H1 H2 H3 H4 join_table_determined stratum_B_observed
           stratum_B_rows).
Defined.

Lemma convert_to_values_keeps_frame_witness :
  NoDup ["stratum"; "assigned"] ∧
  ∃ converted,
    convert_to_values ["stratum"; "assigned"] unlisted_mapped small_translation
      = Some converted ∧
    columns converted = columns unlisted_mapped ∧
    length (rows converted) = length (rows unlisted_mapped).
Proof.
  assert (H1 : NoDup ["stratum"; "assigned"]).
  { apply (bool_decide_unpack _). vm_compute. exact I. }
  split; [exact H1|].
  destruct (convert_to_values_keeps_frame ["stratum"; "assigned"] unlisted_mapped
              small_translation H1 unlisted_mapped_columns)
    as (converted & Hc & Hcols & Hlen & _).
  exists converted. exact (conj Hc (conj Hcols Hlen)).
Defined.

Lemma small_translation_ascii c m label code :
  small_translation !! c = Some m → m !! label = Some code → is_ascii code.
Proof.
  unfold small_translation. intros Hc Hm.
  apply lookup_insert_Some in Hc as [[_ <-]|[_ Hc]].
  - apply lookup_singleton_Some in Hm as [_ <-].
    apply (bool_decide_unpack _). vm_compute. exact I.
  - apply lookup_singleton_Some in Hc as [_ <-].
    apply lookup_singleton_Some in Hm as [_ <-].
    apply (bool_decide_unpack _). vm_compute. exact I.
Qed.

Lemma coercion_succeeds_iff_codes_are_integers_witness :
  NoDup ["stratum"; "assigned"] ∧
  ∃ converted,
    convert_to_values ["stratum"; "assigned"] unlisted_mapped small_translation
      = Some converted ∧
    (is_Some (coerce_criteria ["stratum"; "assigned"] converted) ↔
     ∀ row c m code,
       row ∈ rows unlisted_mapped → c ∈ ["stratum"; "assigned"] →
       small_translation !! c = Some m → m !! m_cells row c = Some code →
       code = "" ∨ ∃ z, py_int code = Some z ∧ int64 z).
Proof.
  assert (H1 : NoDup ["stratum"; "assigned"]).
  { apply (bool_decide_unpack _). vm_compute. exact I. }
  split; [exact H1|].
  destruct (convert_to_values_spec small_translation ["stratum"; "assigned"]
              unlisted_mapped H1 unlisted_mapped_columns) as (converted & Hc & _).
  exists converted. split; [exact Hc|].
  exact (coercion_succeeds_iff_codes_are_integers ["stratum"; "assigned"] unlisted_mapped
           small_translation converted H1 unlisted_mapped_columns
           small_translation_ascii Hc).
Defined.



Lemma one_draw_per_matched_subject_witness :
  randomization_step "assigned" one_subject ["site"] site_index constant_rng
    = Some (one_subject, Rng (λ _, 0 # 1) 1) ∧
  stream (Rng (λ _, 0 # 1) 1) = stream constant_rng ∧
  cursor (Rng (λ _, 0 # 1) 1)
  = (cursor constant_rng + length (filter (matched ["site"] site_index) one_subject))%nat.
Proof.
  assert (H1 : randomization_step "assigned" one_subject ["site"] site_index constant_rng
               = Some (one_subject, Rng (λ _, 0 # 1) 1)) by (vm_compute; reflexivity).
  split; [exact H1|].
  exact (one_draw_per_matched_subject "assigned" one_subject ["site"] site_index
           constant_rng one_subject (Rng (λ _, 0 # 1) 1) H1).
Defined.

Lemma assigned_treatment_has_positive_probability_witness :
  (∀ n, (0 <= stream constant_rng n)%Q ∧ (stream constant_rng n < 1)%Q) ∧
  Forall (λ w, (0 <= w)%Q) ([(2, 1 # 1)].*2 : list Q) ∧
  randomization_step "assigned" one_subject ["site"] site_index constant_rng
    = Some (one_subject, Rng (λ _, 0 # 1) 1) ∧
  ∃ t p, (t, p) ∈ [(2, 1 # 1)] ∧ (0 < p)%Q ∧
         one_subject !! 0%nat
         = Some (<[ "assigned" := t ]>
                   ({[ "record_id" := 1; "site" := 1; "assigned" := 2 ]} : gmap string Z)).
Proof.
  assert (H0 : ∀ n, (0 <= stream constant_rng n)%Q ∧ (stream constant_rng n < 1)%Q).
  { intros n. split; [discriminate|reflexivity]. }
  assert (H0' : Forall (λ w, (0 <= w)%Q) ([(2, 1 # 1)].*2 : list Q)).
  { repeat constructor. discriminate. }
  assert (H1 : randomization_step "assigned" one_subject ["site"] site_index constant_rng
               = Some (one_subject, Rng (λ _, 0 # 1) 1)) by (vm_compute; reflexivity).
  assert (H2 : one_subject !! 0%nat
               = Some ({[ "record_id" := 1; "site" := 1; "assigned" := 2 ]} : gmap string Z))
    by reflexivity.
  assert (H3 : mapM (λ key, ({[ "record_id" := 1; "site" := 1; "assigned" := 2 ]}
                               : gmap string Z) !! key) ["site"] = Some [1])
    by reflexivity.
  assert (H4 : site_index !! [1] = Some [(2, 1 # 1)]) by reflexivity.
  split; [exact H0|]. split; [exact H0'|]. split; [exact H1|].
  exact (assigned_treatment_has_positive_probability "assigned" one_subject ["site"]
           site_index constant_rng one_subject (Rng (λ _, 0 # 1) 1) 0%nat _ [1] _
           H0 H0' H1 H2 H3 H4).
Defined.

Lemma field_check_requires_randomized_column_witness :
  main_less_criteria "treatment" "assigned" unlisted_table ["stratum"; "assigned"]
    = Some ["stratum"] ∧
  "assigned" ≠ "treatment" ∧ "assigned" ∈ columns unlisted_table ∧
  "treatment" ∈ columns unlisted_table ∧ ("treatment" ∉ ["stratum"; "assigned"]) ∧
  ["stratum"; "assigned"] ≡ₚ "assigned" :: ["stratum"] ∧
  (∀ c, c ∈ ["stratum"; "assigned"] ↔ c ∈ columns unlisted_table ∧ c ≠ "treatment").
Proof.
  assert (H1 : main_less_criteria "treatment" "assigned" unlisted_table
                 ["stratum"; "assigned"] = Some ["stratum"]) by (vm_compute; reflexivity).
  split; [exact H1|].
  exact (field_check_requires_randomized_column "treatment" "assigned" unlisted_table
           ["stratum"; "assigned"] ["stratum"] H1).
Defined.

Lemma empty_and_minus_one_go_out_null_witness :
  parse_record raw_record = Some parsed_record ∧
  (raw_record !! "site" = Some "" → null_sentinels parsed_record !! "site" = Some None) ∧
  (∀ value, raw_record !! "arm" = Some value → value ≠ "" →
     ∃ z, py_int value = Some z ∧
          null_sentinels parsed_record !! "arm"
          = Some (if decide (z = -1) then None else Some z)).
Proof.
  assert (H1 : parse_record raw_record = Some parsed_record) by (vm_compute; reflexivity).
  split; [exact H1|]. split.
  - exact (proj1 (proj2 (empty_and_minus_one_go_out_null raw_record parsed_record "site" H1))).
  - exact (proj2 (proj2 (empty_and_minus_one_go_out_null raw_record parsed_record "arm" H1))).
Defined.

Lemma non_integer_value_ends_the_run_witness :
  [ ({[ "record_id" := "A-12" ]} : gmap string string) ] !! 0%nat
    = Some ({[ "record_id" := "A-12" ]} : gmap string string) ∧
  ({[ "record_id" := "A-12" ]} : gmap string string) !! "record_id" = Some "A-12" ∧
  "A-12" ≠ "" ∧ is_ascii "A-12" ∧ py_int "A-12" = None ∧
  main_assign "assigned" [ ({[ "record_id" := "A-12" ]} : gmap string string) ]
    ["site"] site_index constant_rng = None.
Proof.
  assert (H1 : [ ({[ "record_id" := "A-12" ]} : gmap string string) ] !! 0%nat
               = Some ({[ "record_id" := "A-12" ]} : gmap string string)) by reflexivity.
  assert (H2 : ({[ "record_id" := "A-12" ]} : gmap string string) !! "record_id"
               = Some "A-12") by reflexivity.
  assert (H3 : "A-12" ≠ "") by discriminate.
  assert (H4 : is_ascii "A-12") by (apply (bool_decide_unpack _); vm_compute; exact I).
  assert (H5 : py_int "A-12" = None) by (vm_compute; reflexivity).
  repeat (split; [assumption|]).
  exact (non_integer_value_ends_the_run "assigned" _ ["site"] site_index constant_rng
           0%nat _ "record_id" "A-12" H1 H2 H3 H4 H5).
Defined.

Lemma successful_run_requirements_witness :
  ∃ out g',
    main_core "treatment" "assigned" join_report ["stratum"; "assigned"] join_codebook
      join_main_table constant_rng = Some (out, g') ∧
    "assigned" ≠ "treatment" ∧ rows join_main_table ≠ [] ∧
    length out = length join_report.
Proof.
  destruct (main_core "treatment" "assigned" join_report ["stratum"; "assigned"]
              join_codebook join_main_table constant_rng) as [[out g']|] eqn:H;
    [|vm_compute in H; discriminate H].
  exists out, g'. split; [reflexivity|].
  destruct (successful_run_requirements "treatment" "assigned" join_report
              ["stratum"; "assigned"] join_codebook join_main_table constant_rng out g' H)
    as (Hne & _ & _ & Hrows & _ & _ & Hlen).
  exact (conj Hne (conj Hrows Hlen)).
Defined.

Lemma groupby_sum_totals_witness :
  ∃ freq_df,
    groupby_sum ["stratum"] small_grouped = Some freq_df ∧
    columns freq_df = ["stratum"] ∧
    sum_Z (g_size <$> rows freq_df) = sum_Z (g_size <$> rows small_grouped).
Proof.
  destruct (groupby_sum ["stratum"] small_grouped) as [freq_df|] eqn:H;
    [|vm_compute in H; discriminate H].
  exists freq_df. split; [reflexivity|].
  destruct (groupby_sum_totals ["stratum"] small_grouped freq_df H)
    as (Hc & _ & _ & _ & Hsum).
  exact (conj Hc Hsum).
Defined.

Lemma frequency_aggregator_one_row_per_combination_witness :
  ∃ grouped_df,
    frequency_aggregator gap_table = Some grouped_df ∧
    columns grouped_df = columns gap_table ∧
    NoDup ((λ gr, project (columns gap_table) (g_cells gr)) <$> rows grouped_df).
Proof.
  eexists. split; [reflexivity|].
  destruct (frequency_aggregator_one_row_per_combination gap_table _ eq_refl)
    as (Hc & Hnd & _).
  exact (conj Hc Hnd).
Defined.
